(** * keyword-filtering: a model of [src/index.ts]

    The plugin's middleware normalises a group message into a string with
    CQ codes, runs every enabled blocking word (a regular expression) over
    it, keeps a per-user violation counter with a 24-hour timer, and sends
    an alert.  The development below embeds that code: JavaScript strings
    are sequences of UTF-16 code units, the regular expressions the code
    builds are run by a backtracking matcher written after the ECMAScript
    specification, and the middleware is a function from a state (the
    [violationRecords] map and the pending timers) and the outcomes of the
    OneBot calls to a new state and the list of calls it made.  A message
    is handled from start to end: no other message and no timeout comes in
    between its awaits. *)

From Stdlib Require Import String Ascii NArith ZArith Lia DecimalString Sorted.
From stdpp Require Import gmap list.

Set Default Proof Using "Type".
Local Open Scope N_scope.

(** ** JavaScript strings *)

(** A string value is a finite sequence of 16-bit code units. *)
Definition jstring := list N.

(** [utf16] reads a literal of this file (UTF-8 bytes) as code units, so
    that the literals below can be written as they are in the source. *)
Fixpoint utf16_of_bytes (fuel : nat) (bs : list N) : jstring :=
  match fuel with
  | O => []
  | S fuel =>
    match bs with
    | [] => []
    | b :: bs1 =>
      if b <? 128 then b :: utf16_of_bytes fuel bs1
      else if b <? 224 then
        match bs1 with
        | b1 :: bs2 =>
          (N.land b 31 * 64 + N.land b1 63) :: utf16_of_bytes fuel bs2
        | _ => []
        end
      else if b <? 240 then
        match bs1 with
        | b1 :: b2 :: bs3 =>
          (N.land b 15 * 4096 + N.land b1 63 * 64 + N.land b2 63)
            :: utf16_of_bytes fuel bs3
        | _ => []
        end
      else
        match bs1 with
        | b1 :: b2 :: b3 :: bs4 =>
          let cp := N.land b 7 * 262144 + N.land b1 63 * 4096
                    + N.land b2 63 * 64 + N.land b3 63 in
          let v := cp - 65536 in
          (55296 + v / 1024) :: (56320 + v mod 1024) :: utf16_of_bytes fuel bs4
        | _ => []
        end
    end
  end.

Definition utf16 (s : string) : jstring :=
  let bs := map N_of_ascii (list_ascii_of_string s) in
  utf16_of_bytes (length bs) bs.

(** ** Numbers

    A number of the program is a double.  The numbers the code computes
    with are natural numbers (counts, thresholds, durations): below [2^53]
    such a number is a double as it is, and its division, remainder and
    rounding are exact; a larger one stands for the double nearest to it,
    and what is computed from it is rounded to 53 significant bits, to the
    nearest and in a tie to the even one. *)

Definition two53 : N := 9007199254740992.

(** [a / b] rounded to the nearest natural number, in a tie to the even
    one. *)
Definition nearest (a b : N) : N :=
  let q := a / b in
  let r := a mod b in
  if (b <? 2 * r) || ((2 * r =? b) && N.odd q) then q + 1 else q.

(** The double nearest to a natural number (below [2^1024], where the
    doubles end). *)
Definition to_double (n : N) : N :=
  if n <? two53 then n
  else let s := N.log2 n - 52 in nearest n (2 ^ s) * 2 ^ s.

(** [Math.floor(a / b)] for a double [a] and a double [b], not zero and
    below [2^53], that are natural numbers.  Below [2^53] the rounded
    quotient has the floor of the exact one; from there on the quotient,
    with [l + 1] bits before the point, is rounded first. *)
Definition Math_floor_div (a b : N) : N :=
  if a <? two53 then a / b
  else
    let l := N.log2 (a / b) in
    if 52 <=? l then nearest a (b * 2 ^ (l - 52)) * 2 ^ (l - 52)
    else nearest (a * 2 ^ (52 - l)) b / 2 ^ (52 - l).

(** The decimal digits of a natural number. *)
Definition decimal (n : N) : jstring :=
  utf16 (NilEmpty.string_of_uint (N.to_uint n)).

(** The digits Number::toString prints for a double [v] of [nd] decimal
    digits, at least [2^53]: the least number [k] of digits, out of [ks],
    for which [s * 10^(nd-k)] with a [k]-digit [s] is rounded to [v], and
    of two such [s] the one whose number is nearer to [v], in a tie the
    even one. *)
Fixpoint shortest_digits (ks : list nat) (nd : nat) (v : N) : N * nat :=
  match ks with
  | [] => (v, nd)
  | k :: ks1 =>
    let p := 10 ^ N.of_nat (nd - k) in
    let lo := v / p in
    let hi := lo + 1 in
    let fits (s : N) :=
      (10 ^ N.of_nat (k - 1) <=? s) && (s <? 10 ^ N.of_nat k)
      && (to_double (s * p) =? v) in
    if fits lo && fits hi then
      (if v - lo * p <? hi * p - v then lo
       else if hi * p - v <? v - lo * p then hi
       else if N.even lo then lo else hi, k)
    else if fits lo then (lo, k)
    else if fits hi then (hi, k)
    else shortest_digits ks1 nd v
  end.

(** Number::toString for a natural number: below [2^53] its decimal
    digits; from there on the shortest digits that are rounded to its
    double, followed by zeros up to 21 digits and in exponent form beyond
    (a power of ten that is rounded to the double prints as that power). *)
Definition Number_toString (n : N) : jstring :=
  if n <? two53 then decimal n
  else
    let v := to_double n in
    let nd := length (decimal v) in
    let '(s, k, e) :=
      if to_double (10 ^ N.of_nat nd) =? v then (1, 1%nat, S nd)
      else
        let '(s, k) := shortest_digits (seq 1 (Nat.min 17 nd)) nd v in
        (s, k, nd) in
    let digits := decimal s in
    if Nat.leb e 21 then digits ++ repeat 48 (e - k)
    else
      take 1 digits ++ (if Nat.eqb k 1 then [] else 46 :: drop 1 digits)
        ++ utf16 "e+" ++ decimal (N.of_nat (e - 1)).

(** [s.slice(0, n)] *)
Definition slice0 (n : nat) (s : jstring) : jstring := take n s.

(** [s.substring(a, b)] for [a <= b] *)
Definition substring (a b : nat) (s : jstring) : jstring :=
  take (b - a) (drop a s).

Definition jstring_eqb (a b : jstring) : bool := bool_decide (a = b).

(** ** Regular expressions *)

(** The patterns of the fragment that is modelled.  [CharSet A complement
    invert] is CharacterSetMatcher with [invert], for the set of the
    characters of [A] or, with [complement], of all the others: a literal
    character [c] is [CharSet [c] false false], the class [\D] is
    [CharSet class_digit true false], and [.] under the [s] flag, the set
    of all characters, is [CharSet [] true false]. *)
Inductive regex : Type :=
| Epsilon
| CharSet (A : list N) (complement invert : bool)
| Seq (r1 r2 : regex)
| Disj (r1 r2 : regex)
| Quant (min : nat) (max : option nat) (greedy : bool) (r : regex)
| Group (n : nat) (r : regex)
| Look (behind negative : bool) (r : regex)
| AssertStart
| AssertEnd.

(** The capturing groups inside a pattern, which a quantifier resets at
    the start of every iteration. *)
Fixpoint groups_of (r : regex) : list nat :=
  match r with
  | Epsilon | CharSet _ _ _ | AssertStart | AssertEnd => []
  | Seq r1 r2 | Disj r1 r2 => groups_of r1 ++ groups_of r2
  | Quant _ _ _ r1 | Look _ _ r1 => groups_of r1
  | Group n r1 => n :: groups_of r1
  end.

(** The character classes [\d], [\s] and [\w]. *)
Definition class_digit : list N := [48; 49; 50; 51; 52; 53; 54; 55; 56; 57].

Definition class_space : list N :=
  [9; 10; 11; 12; 13; 32; 160; 5760; 8192; 8193; 8194; 8195; 8196; 8197;
   8198; 8199; 8200; 8201; 8202; 8232; 8233; 8239; 8287; 12288; 65279].

Definition class_word : list N :=
  [65; 66; 67; 68; 69; 70; 71; 72; 73; 74; 75; 76; 77; 78; 79; 80; 81; 82;
   83; 84; 85; 86; 87; 88; 89; 90;
   97; 98; 99; 100; 101; 102; 103; 104; 105; 106; 107; 108; 109; 110; 111;
   112; 113; 114; 115; 116; 117; 118; 119; 120; 121; 122;
   48; 49; 50; 51; 52; 53; 54; 55; 56; 57; 95].

Definition line_terminators : list N := [10; 13; 8232; 8233].

(** All the code units, 65535 down to 0. *)
Definition code_units : list N :=
  N.recursion [] (fun n units => n :: units) 65536.

(** A state of the matcher: the input split at the current index (the part
    before it reversed, so that both directions read the next character
    from the head of a list) and the captures made so far. *)
Record mstate : Type := MState {
  before : jstring;
  after : jstring;
  captures : list (nat * jstring)
}.

Definition endIndex (x : mstate) : nat := length (before x).
Definition input_length (x : mstate) : nat := length (before x) + length (after x).

Definition set_capture (n : nat) (s : jstring) (x : mstate) : mstate :=
  MState (before x) (after x) ((n, s) :: captures x).

Definition reset_captures (gs : list nat) (x : mstate) : mstate :=
  MState (before x) (after x)
    (filter (fun p => negb (bool_decide (p.1 ∈ gs))) (captures x)).

Fixpoint capture (n : nat) (cs : list (nat * jstring)) : option jstring :=
  match cs with
  | [] => None
  | (k, s) :: cs1 => if Nat.eqb k n then Some s else capture n cs1
  end.

Definition continuation := mstate -> option mstate.

(** RepeatMatcher, with the matcher of the quantified atom as [m].  Every
    call either uses up one of the [min] required iterations or, once
    [min] is zero, has to move the index, so [fuel] larger than [min] plus
    the length of the input is never used up. *)
Fixpoint RepeatMatcher (fuel : nat) (m : mstate -> continuation -> option mstate)
    (gs : list nat) (min : nat) (max : option nat) (greedy : bool)
    (x : mstate) (c : continuation) : option mstate :=
  match fuel with
  | O => None
  | S fuel1 =>
    match max with
    | Some O => c x
    | _ =>
      let d : continuation := fun y =>
        if Nat.eqb min 0 && Nat.eqb (endIndex y) (endIndex x) then None
        else RepeatMatcher fuel1 m gs (Nat.pred min) (Nat.pred <$> max) greedy y c in
      let xr := reset_captures gs x in
      if negb (Nat.eqb min 0) then m xr d
      else if negb greedy then
        match c x with
        | Some z => Some z
        | None => m xr d
        end
      else
        match m xr d with
        | Some z => Some z
        | None => c x
        end
    end
  end.

Definition is_digit (ch : N) : bool := (48 <=? ch) && (ch <=? 57).

(** ** Reading a pattern

    The part of the pattern syntax that is read (without the [u] flag):
    alternatives, the quantifiers [*], [+], [?] and their lazy forms,
    groups [( )] and [(?: )], the four lookarounds, [^] and [$], [.], the
    class escapes [\d \D \s \S \w \W], the control escapes [\t \n \v \f \r]
    and an escaped punctuation character.  A source outside this part
    (brackets, braces, backreferences, [\b], named groups), and a source
    JavaScript rejects with a SyntaxError, reads as [None]. *)

Definition dot (dotAll : bool) : regex :=
  CharSet (if dotAll then [] else line_terminators) true false.

Definition is_alnum (ch : N) : bool :=
  is_digit ch || (65 <=? ch) && (ch <=? 90) || (97 <=? ch) && (ch <=? 122).

(** The atom after a backslash. *)
Definition parse_escape (ch : N) : option regex :=
  match ch with
  | 100 => Some (CharSet class_digit false false)
  | 68 => Some (CharSet class_digit true false)
  | 115 => Some (CharSet class_space false false)
  | 83 => Some (CharSet class_space true false)
  | 119 => Some (CharSet class_word false false)
  | 87 => Some (CharSet class_word true false)
  | 116 => Some (CharSet [9] false false)
  | 110 => Some (CharSet [10] false false)
  | 118 => Some (CharSet [11] false false)
  | 102 => Some (CharSet [12] false false)
  | 114 => Some (CharSet [13] false false)
  | _ => if is_alnum ch then None else Some (CharSet [ch] false false)
  end.

(** Whether the next character is [ch]. *)
Definition next_is (ch : N) (s : jstring) : bool :=
  match s with
  | c :: _ => c =? ch
  | [] => false
  end.

(** What is left of [s] behind the prefix [pre]. *)
Fixpoint strip_prefix (pre s : jstring) : option jstring :=
  match pre with
  | [] => Some s
  | a :: pre1 =>
    match s with
    | b :: s1 => if a =? b then strip_prefix pre1 s1 else None
    | [] => None
    end
  end.

(** An optional quantifier after the atom [r]: [*], [+] or [?], lazy when
    a [?] follows.  A brace is not read. *)
Definition parse_quantifier (r : regex) (s : jstring) (g : nat)
    : option (regex * jstring * nat) :=
  let lazy (mn : nat) (mx : option nat) (s1 : jstring) :=
    if next_is 63 s1 then Some (Quant mn mx false r, drop 1 s1, g)
    else Some (Quant mn mx true r, s1, g) in
  if next_is 123 s then None
  else if next_is 42 s then lazy O None (drop 1 s)
  else if next_is 43 s then lazy 1%nat None (drop 1 s)
  else if next_is 63 s then lazy O (Some 1%nat) (drop 1 s)
  else Some (r, s, g).

(** An assertion takes no quantifier. *)
Definition no_quantifier (r : regex) (s : jstring) (g : nat)
    : option (regex * jstring * nat) :=
  if next_is 42 s || next_is 43 s || next_is 63 s || next_is 123 s then None
  else Some (r, s, g).

Definition expect_close (s : jstring) : option jstring :=
  if next_is 41 s then Some (drop 1 s) else None.

(** What an opening parenthesis starts, and the text behind its mark. *)
Inductive group_kind : Type :=
| Capturing
| NonCapturing
| Lookaround (behind negative : bool).

Definition group_start (s : jstring) : option (group_kind * jstring) :=
  if next_is 63 s then
    match strip_prefix [63; 58] s with
    | Some s1 => Some (NonCapturing, s1)
    | None =>
    match strip_prefix [63; 61] s with
    | Some s1 => Some (Lookaround false false, s1)
    | None =>
    match strip_prefix [63; 33] s with
    | Some s1 => Some (Lookaround false true, s1)
    | None =>
    match strip_prefix [63; 60; 61] s with
    | Some s1 => Some (Lookaround true false, s1)
    | None =>
    match strip_prefix [63; 60; 33] s with
    | Some s1 => Some (Lookaround true true, s1)
    | None => None
    end end end end end
  else Some (Capturing, s).

(** The characters that cannot stand for themselves as an atom. *)
Definition not_an_atom (ch : N) : bool :=
  (ch =? 42) || (ch =? 43) || (ch =? 63) || (ch =? 41) || (ch =? 124)
  || (ch =? 91) || (ch =? 123).

(** Disjunction, Alternative and Term; [g] is the number of the next
    capturing group.  Each call uses one unit of [fuel]. *)
Fixpoint parse_disjunction (dotAll : bool) (fuel : nat) (s : jstring) (g : nat)
    {struct fuel} : option (regex * jstring * nat) :=
  match fuel with
  | O => None
  | S fuel1 =>
    '(r1, s1, g1) ← parse_alternative dotAll fuel1 s g;
    if next_is 124 s1 then
      '(r2, s2, g2) ← parse_disjunction dotAll fuel1 (drop 1 s1) g1;
      Some (Disj r1 r2, s2, g2)
    else Some (r1, s1, g1)
  end
with parse_alternative (dotAll : bool) (fuel : nat) (s : jstring) (g : nat)
    {struct fuel} : option (regex * jstring * nat) :=
  match fuel with
  | O => None
  | S fuel1 =>
    match s with
    | [] => Some (Epsilon, s, g)
    | _ =>
      if next_is 124 s || next_is 41 s then Some (Epsilon, s, g)
      else
        '(r1, s1, g1) ← parse_term dotAll fuel1 s g;
        '(r2, s2, g2) ← parse_alternative dotAll fuel1 s1 g1;
        Some (Seq r1 r2, s2, g2)
    end
  end
with parse_term (dotAll : bool) (fuel : nat) (s : jstring) (g : nat)
    {struct fuel} : option (regex * jstring * nat) :=
  match fuel with
  | O => None
  | S fuel1 =>
    match s with
    | [] => None
    | ch :: s1 =>
      if ch =? 94 then no_quantifier AssertStart s1 g
      else if ch =? 36 then no_quantifier AssertEnd s1 g
      else if ch =? 40 then
        '(kind, s2) ← group_start s1;
        '(r, s3, g1) ← parse_disjunction dotAll fuel1 s2
                          (match kind with Capturing => g + 1 | _ => g end)%nat;
        s4 ← expect_close s3;
        match kind with
        | Capturing => parse_quantifier (Group g r) s4 g1
        | NonCapturing => parse_quantifier r s4 g1
        | Lookaround behind negative => no_quantifier (Look behind negative r) s4 g1
        end
      else if ch =? 46 then parse_quantifier (dot dotAll) s1 g
      else if ch =? 92 then
        match s1 with
        | [] => None
        | e :: s2 => r ← parse_escape e; parse_quantifier r s2 g
        end
      else if not_an_atom ch then None
      else parse_quantifier (CharSet [ch] false false) s1 g
    end
  end.

(** ** The configuration and the session *)

Module BlockingWords.
Record t : Type := mk {
  enable : bool;
  triggerMute : bool;
  recall : bool;
  replace : bool;
  replaceWord : jstring
}.
End BlockingWords.

Module MuteConfig.
Record t : Type := mk {
  enable : bool;
  threshold : N;
  duration : N
}.
End MuteConfig.

(** [blockingWords] is the object's properties in the order they were
    created, each pattern with its rule. *)
Module GroupRule.
Record t : Type := mk {
  groupId : jstring;
  enable : bool;
  muteConfig : MuteConfig.t;
  blockingWords : list (jstring * BlockingWords.t);
  customMessage : jstring;
  alertContent : jstring;
  correctPrefix : jstring
}.
End GroupRule.

(** An element of the message: its type and its attributes, each value as
    the string a template literal makes of it. *)
Record Element : Type := mkElement {
  type : jstring;
  attrs : list (jstring * jstring)
}.

(** What the middleware reads of the session.  [onebot] says whether
    [meta.onebot] is there; [quote] is [meta.quote?.id]. *)
Record Session : Type := mkSession {
  onebot : bool;
  subtype : jstring;
  guildId : jstring;
  selfId : jstring;
  userId : jstring;
  messageId : jstring;
  elements : list Element;
  quote : option jstring
}.

(** How the OneBot calls of one message end: the role the bot's member
    information carries ([None] when the call is rejected), whether the
    sender's member information arrives, and whether [deleteMsg],
    [setGroupBan] and [sendGroupMsg] are fulfilled. *)
Record Outcomes : Type := mkOutcomes {
  bot_role : option jstring;
  user_info : bool;
  deleteMsg_ok : bool;
  setGroupBan_ok : bool;
  sendGroupMsg_ok : bool
}.

(** The calls and log lines of one run of the middleware, in order. *)
Inductive LogSite : Type :=
| RecallFailed | MuteFailed | AlertFailed | HandlingFailed.

Inductive Effect : Type :=
| GetGroupMemberInfo (group user : jstring)
| DeleteMsg (message : jstring)
| SetGroupBan (group user : jstring) (seconds : N)
| SendGroupMsg (group text : jstring)
| LogWarn (site : LogSite)
| LogError (site : LogSite)
| Next.

(** ** The violation records *)

Record ViolationRecord : Type := mkRecord {
  count : N;
  timer : nat
}.

(** The state the middleware closes over: the [violationRecords] map and
    the timeouts that are pending, each with the key its callback deletes. *)
Record State : Type := mkState {
  violationRecords : gmap jstring ViolationRecord;
  timers : gmap nat jstring;
  nextTimer : nat
}.

Definition initial : State := mkState ∅ ∅ O.


(** Lines 156-171: find or create the record, add [muteCount], compare
    with the threshold.  The result is the new state, the record and
    [shouldMute]. *)
Definition register (recordKey : jstring) (muteCount threshold : N) (st : State)
    : State * ViolationRecord * bool :=
  let '(st1, record) :=
    match violationRecords st !! recordKey with
    | Some record => (st, record)
    | None =>
      let record := mkRecord 0 (nextTimer st) in
      (mkState (<[recordKey := record]> (violationRecords st))
         (<[nextTimer st := recordKey]> (timers st)) (S (nextTimer st)),
       record)
    end in
  let record1 := mkRecord (count record + muteCount) (timer record) in
  (mkState (<[recordKey := record1]> (violationRecords st1)) (timers st1)
     (nextTimer st1),
   record1, threshold <=? count record1).

(** Lines 200-201: [clearTimeout(record.timer)] and
    [violationRecords.delete(recordKey)]. *)
Definition clear (recordKey : jstring) (record : ViolationRecord) (st : State) : State :=
  mkState (delete recordKey (violationRecords st)) (delete (timer record) (timers st))
    (nextTimer st).

(** ** [Object.entries] *)

(** The number a key spells when it is an array index: canonical decimal
    digits, below [2^32 - 1]. *)
Definition digits_value (k : jstring) : N :=
  foldl (fun n d => 10 * n + (d - 48)) 0 k.

Definition array_index (k : jstring) : option N :=
  match k with
  | [] => None
  | d :: ds =>
    if forallb is_digit k && (negb (d =? 48) || bool_decide (ds = []))
       && (length k <=? 10)%nat && (digits_value k <? 4294967295)
    then Some (digits_value k) else None
  end.

Fixpoint insert_by_index {V : Type} (e : N * (jstring * V)) (l : list (N * (jstring * V)))
    : list (N * (jstring * V)) :=
  match l with
  | [] => [e]
  | e1 :: l1 => if e.1 <? e1.1 then e :: l else e1 :: insert_by_index e l1
  end.

(** Keys that are array indices come first, in ascending order; the other
    keys follow in the order of their creation. *)
Definition Object_entries {V : Type} (props : list (jstring * V)) : list (jstring * V) :=
  let indexed :=
    omap (fun e => i ← array_index e.1; Some (i, e)) props in
  map snd (foldr insert_by_index [] indexed)
    ++ filter (fun e => array_index e.1 = None) props.

(** ** The duration text (lines 183-188) *)

(** [Math.ceil(a / b)] on natural numbers. *)
Definition ceil_div (a b : N) : N := (a + (b - 1)) / b.

(** The duration is the double of the configuration.  The remainder of a
    double by 3600 is exact and below 3600, where the quotient by 60 is
    rounded to a whole number only when it is one: the minutes are the
    ceiling of the exact quotient. *)
Definition durationText (totalSeconds : N) : jstring :=
  let totalSeconds := to_double totalSeconds in
  let hours := Math_floor_div totalSeconds 3600 in
  let minutes := ceil_div (totalSeconds mod 3600) 60 in
  (if 0 <? hours then Number_toString hours ++ utf16 "小时" else [])
    ++ (if 0 <? minutes then Number_toString minutes ++ utf16 "分钟" else []).

(** A case mapping for the examples: no character outside ASCII has an
    upper-case form of its own. *)
Definition ascii_only (ch : N) : N := ch.

Section CaseMapping.

(** The upper-case mapping of a code unit outside ASCII ([toUpperCase] on
    a one-character string, when the result is one code unit; the code
    unit itself otherwise).  The Unicode table is not part of the program;
    every theorem of the section holds whatever it is. *)
Variable toUpperCase : N -> N.

Definition ascii_upper (ch : N) : N :=
  if (97 <=? ch) && (ch <=? 122) then ch - 32 else ch.

(** Canonicalize, for a pattern without the [u] flag. *)
Definition Canonicalize (ignoreCase : bool) (ch : N) : N :=
  if negb ignoreCase then ch
  else if ch <? 128 then ascii_upper ch
  else let cu := toUpperCase ch in if cu <? 128 then ch else cu.

(** [Canonicalize a = Canonicalize ch], decided without looking at the
    table when one of the two is in ASCII: an ASCII character and one
    outside ASCII never have the same canonical form. *)
Definition same_char (ignoreCase : bool) (a ch : N) : bool :=
  if negb ignoreCase then a =? ch
  else if (a <? 128) && (ch <? 128) then ascii_upper a =? ascii_upper ch
  else if (a <? 128) || (ch <? 128) then false
  else Canonicalize true a =? Canonicalize true ch.

(** Whether the set has a member with the canonical form of [ch].  In the
    complement of [A] the character itself is such a member when it is not
    in [A]; when it is, another code unit may have its canonical form. *)
Definition char_found (ignoreCase : bool) (A : list N) (complement : bool) (ch : N)
    : bool :=
  if complement then
    if negb (existsb (N.eqb ch) A) then true
    else if negb ignoreCase then false
    else existsb (fun a => negb (existsb (N.eqb a) A) && same_char true a ch) code_units
  else existsb (fun a => same_char ignoreCase a ch) A.

(** CharacterSetMatcher's test. *)
Definition in_CharSet (ignoreCase : bool) (A : list N) (complement invert : bool)
    (ch : N) : bool :=
  xorb (char_found ignoreCase A complement ch) invert.

(** The matcher of a pattern, in continuation-passing style as in the
    ECMAScript specification.  [forward] is the direction: inside a
    lookbehind the pattern is matched backward.  What a group captures is
    the text between the two indices, read off the state that has it in
    front. *)
Fixpoint matcher (ignoreCase : bool) (r : regex) (forward : bool)
    (x : mstate) (c : continuation) {struct r} : option mstate :=
  match r with
  | Epsilon => c x
  | CharSet A complement invert =>
    if forward then
      match after x with
      | [] => None
      | ch :: rest =>
        if in_CharSet ignoreCase A complement invert ch
        then c (MState (ch :: before x) rest (captures x))
        else None
      end
    else
      match before x with
      | [] => None
      | ch :: rest =>
        if in_CharSet ignoreCase A complement invert ch
        then c (MState rest (ch :: after x) (captures x))
        else None
      end
  | Seq r1 r2 =>
    if forward
    then matcher ignoreCase r1 forward x (fun y => matcher ignoreCase r2 forward y c)
    else matcher ignoreCase r2 forward x (fun y => matcher ignoreCase r1 forward y c)
  | Disj r1 r2 =>
    match matcher ignoreCase r1 forward x c with
    | Some z => Some z
    | None => matcher ignoreCase r2 forward x c
    end
  | Quant min max greedy r1 =>
    RepeatMatcher (min + input_length x + 1)
      (fun y d => matcher ignoreCase r1 forward y d)
      (groups_of r1) min max greedy x c
  | Group n r1 =>
    matcher ignoreCase r1 forward x (fun y =>
      let s := if forward
               then take (endIndex y - endIndex x) (after x)
               else take (endIndex x - endIndex y) (after y) in
      c (set_capture n s y))
  | Look behind negative r1 =>
    match matcher ignoreCase r1 (negb behind) x Some with
    | Some y =>
      if negative then None
      else c (MState (before x) (after x) (captures y))
    | None =>
      if negative then c x else None
    end
  | AssertStart =>
    match before x with [] => c x | _ => None end
  | AssertEnd =>
    match after x with [] => c x | _ => None end
  end.

(** A compiled pattern: [new RegExp(source, flags)] or a literal.  All the
    patterns of the program carry the [g] flag and none the [m], [u] or
    [y] flag. *)
Record RegExp : Type := mkRegExp {
  pattern_of : regex;
  ignoreCase : bool;
  nCaptures : nat
}.

Definition state_at (str : jstring) (i : nat) : mstate :=
  MState (reverse (take i str)) (drop i str) [].

(** One attempt at the index of [x]. *)
Definition match_here (re : RegExp) (x : mstate) : option mstate :=
  matcher (ignoreCase re) (pattern_of re) true x Some.

(** RegExpBuiltinExec for a global pattern: the first index from
    [lastIndex] on at which the pattern matches, with the state at the end
    of that match. *)
Fixpoint exec_loop (re : RegExp) (bef aft : jstring) : option (nat * mstate) :=
  match match_here re (MState bef aft []) with
  | Some y => Some (length bef, y)
  | None =>
    match aft with
    | [] => None
    | ch :: rest => exec_loop re (ch :: bef) rest
    end
  end.

Definition RegExpBuiltinExec (re : RegExp) (str : jstring) (lastIndex : nat)
    : option (nat * mstate) :=
  if Nat.ltb (length str) lastIndex then None
  else exec_loop re (reverse (take lastIndex str)) (drop lastIndex str).

(** [regex.test(str)] on a pattern that was just built ([lastIndex] is 0). *)
Definition RegExp_test (re : RegExp) (str : jstring) : bool :=
  bool_decide (is_Some (RegExpBuiltinExec re str 0)).

(** The results a global [replace] collects: after an empty match the
    search resumes one code unit further. *)
Fixpoint collect_matches (fuel : nat) (re : RegExp) (str : jstring) (lastIndex : nat)
    : list (nat * mstate) :=
  match fuel with
  | O => []
  | S fuel1 =>
    match RegExpBuiltinExec re str lastIndex with
    | None => []
    | Some (p, y) =>
      let e := endIndex y in
      (p, y) :: collect_matches fuel1 re str (if Nat.eqb e p then e + 1 else e)%nat
    end
  end.

(** [$n] with one digit. *)
Definition subst_digit (caps : list (option jstring)) (d : N) : jstring :=
  let index := N.to_nat (d - 48) in
  if Nat.leb 1 index && Nat.leb index (length caps)
  then default [] (mjoin (caps !! (index - 1)%nat))
  else [36; d].

(** GetSubstitution, for a pattern without named groups. *)
Fixpoint GetSubstitution (matched str : jstring) (position : nat)
    (caps : list (option jstring)) (template : jstring) : jstring :=
  match template with
  | [] => []
  | 36 :: t1 =>
    match t1 with
    | [] => [36]
    | 36 :: t2 => 36 :: GetSubstitution matched str position caps t2
    | 96 :: t2 => take position str ++ GetSubstitution matched str position caps t2
    | 38 :: t2 => matched ++ GetSubstitution matched str position caps t2
    | 39 :: t2 =>
      drop (Nat.min (position + length matched) (length str)) str
        ++ GetSubstitution matched str position caps t2
    | d1 :: t2 =>
      if is_digit d1 then
        match t2 with
        | d2 :: t3 =>
          if is_digit d2 then
            let index := (10 * N.to_nat (d1 - 48) + N.to_nat (d2 - 48))%nat in
            if Nat.ltb (length caps) index
            then subst_digit caps d1 ++ GetSubstitution matched str position caps t2
            else if Nat.leb 1 index
            then default [] (mjoin (caps !! (index - 1)%nat))
                   ++ GetSubstitution matched str position caps t3
            else [36; d1; d2] ++ GetSubstitution matched str position caps t3
          else subst_digit caps d1 ++ GetSubstitution matched str position caps t2
        | [] => subst_digit caps d1
        end
      else 36 :: GetSubstitution matched str position caps t1
    end
  | ch :: t1 => ch :: GetSubstitution matched str position caps t1
  end.

Definition captures_array (re : RegExp) (y : mstate) : list (option jstring) :=
  map (fun i => capture i (captures y)) (seq 1 (nCaptures re)).

(** The second half of a global [replace]: the pieces between the matches
    and the substitutions. *)
Fixpoint build_replaced (re : RegExp) (str replaceValue : jstring)
    (results : list (nat * mstate)) (nextSourcePosition : nat) : jstring :=
  match results with
  | [] => drop nextSourcePosition str
  | (position, y) :: results1 =>
    let matched := substring position (endIndex y) str in
    let replacement :=
      GetSubstitution matched str position (captures_array re y) replaceValue in
    if Nat.leb nextSourcePosition position
    then substring nextSourcePosition position str ++ replacement
           ++ build_replaced re str replaceValue results1 (position + length matched)
    else build_replaced re str replaceValue results1 nextSourcePosition
  end.

(** [str.replace(re, replaceValue)] with a global pattern and a string as
    replacement. *)
Definition String_replace (str : jstring) (re : RegExp) (replaceValue : jstring) : jstring :=
  build_replaced re str replaceValue (collect_matches (length str + 2) re str 0) 0.

(** [str.split(re)]: the pattern is tried at [q] only; an element is [None]
    for a capture that is undefined. *)
Fixpoint split_loop (fuel : nat) (re : RegExp) (str : jstring) (p q : nat)
    : list (option jstring) :=
  match fuel with
  | O => [Some (drop p str)]
  | S fuel1 =>
    if negb (Nat.ltb q (length str)) then [Some (drop p str)]
    else
      match match_here re (state_at str q) with
      | None => split_loop fuel1 re str p (q + 1)
      | Some y =>
        let e := Nat.min (endIndex y) (length str) in
        if Nat.eqb e p then split_loop fuel1 re str p (q + 1)
        else Some (substring p q str) :: captures_array re y
               ++ split_loop fuel1 re str e e
      end
  end.

Definition String_split (str : jstring) (re : RegExp) : list (option jstring) :=
  match str with
  | [] =>
    match match_here re (state_at str 0) with
    | Some _ => []
    | None => [Some str]
    end
  | _ => split_loop (2 * length str + 2) re str O O
  end.

(** [new RegExp(source, 'gis')] *)
Definition RegExp_new (source : jstring) (ignoreCase dotAll : bool) : option RegExp :=
  match parse_disjunction dotAll (4 * length source + 4) source 1 with
  | Some (r, [], g) => Some (mkRegExp r ignoreCase (g - 1))
  | _ => None
  end.

(** ** [handleMsg] (lines 92-111) *)

Fixpoint property (name : jstring) (props : list (jstring * jstring)) : option jstring :=
  match props with
  | [] => None
  | (k, v) :: props1 => if jstring_eqb k name then Some v else property name props1
  end.

(** [${e.attrs.name}]: a missing attribute prints as [undefined]. *)
Definition attr (e : Element) (name : string) : jstring :=
  default (utf16 "undefined") (property (utf16 name) (attrs e)).

(** [e.attrs?.content || ''] *)
Definition content_or_empty (e : Element) : jstring :=
  default [] (property (utf16 "content") (attrs e)).

Definition element_text (e : Element) : jstring :=
  if jstring_eqb (type e) (utf16 "at") then
    utf16 "[CQ:at,qq=" ++ attr e "id" ++ utf16 "]"
  else if jstring_eqb (type e) (utf16 "image") then
    utf16 "[CQ:image,file=" ++ attr e "file" ++ utf16 "]"
  else if jstring_eqb (type e) (utf16 "face") then
    utf16 "[CQ:face,id=" ++ attr e "id" ++ utf16 "]"
  else if jstring_eqb (type e) (utf16 "mface") then
    utf16 "[CQ:mface,id=" ++ attr e "emojiId" ++ utf16 "]"
  else content_or_empty e.

Definition message_of (meta : Session) : jstring :=
  concat (map element_text (elements meta)).

(** The role of the bot and the message, or [None] when one of the two
    [getGroupMemberInfo] calls is rejected. *)
Definition handleMsg (meta : Session) (w : Outcomes) : option (jstring * jstring) :=
  match bot_role w with
  | Some role => if user_info w then Some (role, message_of meta) else None
  | None => None
  end.

(** ** The blocking words (lines 130-152) *)

Record Filtered : Type := mkFiltered {
  modifiedMessage : jstring;
  needRecall : bool;
  muteCount : N;
  hasTriggerMuteRule : bool;
  hasValidReplace : bool
}.

(** Line 140: the source of the pattern built for one blocking word. *)
Definition rule_source (pattern : jstring) : jstring :=
  utf16 "(?<!\$CQ:\w+.*?\$CQ)\s*(" ++ pattern ++ utf16 ")".

(** The body of the loop for one entry.  [None]: the pattern is outside
    the part of the syntax that is read. *)
Definition apply_rule (acc : Filtered) (entry : jstring * BlockingWords.t)
    : option Filtered :=
  let '(pattern, rule) := entry in
  if negb (BlockingWords.enable rule) then Some acc
  else
    regex ← RegExp_new (rule_source pattern) true true;
    if RegExp_test regex (modifiedMessage acc) then
      let replaced :=
        if BlockingWords.enable rule
        then String_replace (modifiedMessage acc) regex
               (if BlockingWords.replace rule then BlockingWords.replaceWord rule else [])
        else modifiedMessage acc in
      Some (mkFiltered replaced
              (needRecall acc || BlockingWords.recall rule)
              (if BlockingWords.triggerMute rule then 1 else muteCount acc)
              (if BlockingWords.triggerMute rule then true else hasTriggerMuteRule acc)
              (if BlockingWords.enable rule then true else hasValidReplace acc))
    else Some acc.

Fixpoint apply_rules (acc : Filtered) (entries : list (jstring * BlockingWords.t))
    : option Filtered :=
  match entries with
  | [] => Some acc
  | entry :: entries1 =>
    acc1 ← apply_rule acc entry;
    apply_rules acc1 entries1
  end.

Definition filter_message (blockingWords : list (jstring * BlockingWords.t))
    (message : jstring) : option Filtered :=
  apply_rules (mkFiltered message false 0 false false) (Object_entries blockingWords).

(** ** Escaping the corrected text (lines 221-228) *)

(** [/$CQ:[^$]*]/g] *)
Definition cqPattern : RegExp :=
  mkRegExp
    (Seq AssertEnd
      (Seq (CharSet [67] false false)
        (Seq (CharSet [81] false false)
          (Seq (CharSet [58] false false)
            (Seq (Quant 0 None true (CharSet [36] false true))
              (Seq (CharSet [93] false false) Epsilon))))))
    false 0.

(** [/&/g] *)
Definition ampersand : RegExp := mkRegExp (CharSet [38] false false) false 0.

(** The loop over [parts] from index [i] on.  [None] is the TypeError of
    [undefined.replace]. *)
Fixpoint escape_parts (i : nat) (parts : list (option jstring)) : option jstring :=
  match parts with
  | [] => Some []
  | part :: parts1 =>
    piece ←
      (if Nat.even i then
         text ← part; Some (String_replace text ampersand (utf16 "&amp;"))
       else Some (default (utf16 "undefined") part));
    rest ← escape_parts (S i) parts1;
    Some (piece ++ rest)
  end.

Definition escapedText (modifiedMessage : jstring) : option jstring :=
  escape_parts 0 (String_split modifiedMessage cqPattern).

(** ** The two answers (lines 154-245) *)

Definition record_key (groupId userId : jstring) : jstring :=
  groupId ++ utf16 ":" ++ userId.

Definition recall_effects (meta : Session) (w : Outcomes) (needRecall : bool)
    : list Effect :=
  if needRecall
  then DeleteMsg (messageId meta)
         :: (if deleteMsg_ok w then [] else [LogWarn RecallFailed])
  else [].

(** Lines 190-198: the text sent when the user is muted. *)
Definition mute_text (groupConfig : GroupRule.t) (meta : Session) (message : jstring)
    (f : Filtered) (record : ViolationRecord) : jstring :=
  let mute := GroupRule.muteConfig groupConfig in
  let contentPart :=
    if hasValidReplace f && negb (jstring_eqb (modifiedMessage f) message)
    then GroupRule.correctPrefix groupConfig ++ modifiedMessage f ++ [10]
    else [] in
  utf16 "[CQ:at,qq=" ++ userId meta ++ utf16 "] "
    ++ GroupRule.alertContent groupConfig ++ [10]
    ++ contentPart
    ++ utf16 "因累计违规 " ++ Number_toString (count record) ++ utf16 "/"
    ++ Number_toString (MuteConfig.threshold mute) ++ utf16 " 次，已被禁言 "
    ++ durationText (MuteConfig.duration mute).

(** Lines 173-205, when [shouldMute] holds. *)
Definition mute_branch (groupConfig : GroupRule.t) (meta : Session) (w : Outcomes)
    (message : jstring) (f : Filtered) (recordKey : jstring)
    (record : ViolationRecord) (st : State) : State * list Effect :=
  let mute := GroupRule.muteConfig groupConfig in
  let groupId := guildId meta in
  let ban := SetGroupBan groupId (userId meta) (MuteConfig.duration mute) in
  let recalled := recall_effects meta w (needRecall f) in
  if negb (setGroupBan_ok w) then (st, recalled ++ [ban; LogError MuteFailed])
  else
    let send := SendGroupMsg groupId (mute_text groupConfig meta message f record) in
    if negb (sendGroupMsg_ok w) then (st, recalled ++ [ban; send; LogError MuteFailed])
    else (clear recordKey record st, recalled ++ [ban; send]).

(** Lines 216-239: the text of the alert, before the final [slice]. *)
Definition finalMessage (groupConfig : GroupRule.t) (meta : Session) (message : jstring)
    (f : Filtered) (st : State) : option jstring :=
  let mute := GroupRule.muteConfig groupConfig in
  let reply :=
    match quote meta with
    | Some (c :: id) => utf16 "[CQ:reply,id=" ++ c :: id ++ utf16 "]"
    | _ => []
    end in
  let head :=
    reply ++ utf16 "[CQ:at,qq=" ++ userId meta ++ utf16 "] "
      ++ GroupRule.alertContent groupConfig ++ [10] in
  corrected ←
    (if hasValidReplace f && negb (jstring_eqb (modifiedMessage f) message)
     then
       escaped ← escapedText (modifiedMessage f);
       Some (GroupRule.correctPrefix groupConfig ++ slice0 2000 escaped ++ [10])
     else Some []);
  let tail :=
    if hasTriggerMuteRule f && MuteConfig.enable mute then
      let n :=
        match violationRecords st !! record_key (guildId meta) (userId meta) with
        | Some record => count record
        | None => 0
        end in
      utf16 "累计违规 " ++ Number_toString n ++ utf16 "/"
        ++ Number_toString (MuteConfig.threshold mute) ++ utf16 " 次后禁言！"
    else GroupRule.customMessage groupConfig in
  Some (head ++ corrected ++ tail).

(** Lines 208-245. *)
Definition alert_branch (groupConfig : GroupRule.t) (meta : Session) (w : Outcomes)
    (message : jstring) (f : Filtered) (st : State) : list Effect :=
  let recalled := recall_effects meta w (needRecall f) in
  match finalMessage groupConfig meta message f st with
  | None => recalled ++ [LogError AlertFailed]
  | Some text =>
    recalled ++ SendGroupMsg (guildId meta) (slice0 4500 text)
      :: (if sendGroupMsg_ok w then [] else [LogError AlertFailed])
  end.

(** Lines 154-245: what follows the loop over the blocking words. *)
Definition respond (groupConfig : GroupRule.t) (meta : Session) (w : Outcomes)
    (message : jstring) (f : Filtered) (st : State) : State * list Effect :=
  let mute := GroupRule.muteConfig groupConfig in
  let '(st1, shouldMute, effects1) :=
    if MuteConfig.enable mute && hasTriggerMuteRule f then
      let recordKey := record_key (guildId meta) (userId meta) in
      let '(st1, record, shouldMute) :=
        register recordKey (muteCount f) (MuteConfig.threshold mute) st in
      if shouldMute then
        let '(st2, effects) :=
          mute_branch groupConfig meta w message f recordKey record st1 in
        (st2, true, effects)
      else (st1, false, [])
    else (st, false, []) in
  let effects2 :=
    if (negb (jstring_eqb (modifiedMessage f) message) || needRecall f)
       && negb shouldMute
    then alert_branch groupConfig meta w message f st1
    else [] in
  (st1, effects1 ++ effects2).

(** ** The middleware (lines 113-252) *)

(** [new Map(rules.map(rule => [rule.groupId, rule]))]: a later rule of the
    same group replaces an earlier one. *)
Definition configDict (blockingRules : list GroupRule.t) : gmap jstring GroupRule.t :=
  foldl (fun m rule => <[GroupRule.groupId rule := rule]> m) ∅ blockingRules.

Definition elevated (role : jstring) : bool :=
  jstring_eqb role (utf16 "admin") || jstring_eqb role (utf16 "owner").

(** One message, handled from start to end.  [None]: a pattern of the
    group is outside the part of the syntax that is read. *)
Definition middleware (blockingRules : list GroupRule.t) (meta : Session)
    (w : Outcomes) (st : State) : option (State * list Effect) :=
  if negb (onebot meta) || negb (jstring_eqb (subtype meta) (utf16 "group"))
  then Some (st, [Next])
  else
    match configDict blockingRules !! guildId meta with
    | None => Some (st, [Next])
    | Some groupConfig =>
      if negb (GroupRule.enable groupConfig) then Some (st, [Next])
      else
        let lookups :=
          [GetGroupMemberInfo (guildId meta) (selfId meta);
           GetGroupMemberInfo (guildId meta) (userId meta)] in
        match handleMsg meta w with
        | None => Some (st, lookups ++ [LogError HandlingFailed; Next])
        | Some (role, message) =>
          if negb (elevated role) then Some (st, lookups ++ [Next])
          else
            f ← filter_message (GroupRule.blockingWords groupConfig) message;
            let '(st1, effects) := respond groupConfig meta w message f st in
            Some (st1, lookups ++ effects ++ [Next])
        end
    end.

(** ** Notions used in the statements *)

(** The count of a key: 0 when it has no record. *)
Definition count_of (recordKey : jstring) (st : State) : N :=
  match violationRecords st !! recordKey with
  | Some record => count record
  | None => 0
  end.

(** Every pending timeout is the one of the record of its key, and was
    handed out before [nextTimer]. *)
Definition timers_owned (st : State) : Prop :=
  forall h k,
    timers st !! h = Some k ->
    (h < nextTimer st)%nat
    /\ exists record, violationRecords st !! k = Some record /\ timer record = h.

(** The state after [n] registrations of one violation each for a key,
    with nothing cleared and no timeout in between. *)
Fixpoint registered (n : nat) (recordKey : jstring) (threshold : N) (st : State) : State :=
  match n with
  | O => st
  | S n1 => (register recordKey 1 threshold (registered n1 recordKey threshold st)).1.1
  end.

(** The group's rule, the message and the outcome of the loop over the
    blocking words, when the handling of a message gets as far as line 154. *)
Definition moderated (blockingRules : list GroupRule.t) (meta : Session) (w : Outcomes)
    : option (GroupRule.t * jstring * Filtered) :=
  if negb (onebot meta) || negb (jstring_eqb (subtype meta) (utf16 "group")) then None
  else
    groupConfig ← configDict blockingRules !! guildId meta;
    if negb (GroupRule.enable groupConfig) then None
    else
      '(role, message) ← handleMsg meta w;
      if negb (elevated role) then None
      else
        f ← filter_message (GroupRule.blockingWords groupConfig) message;
        Some (groupConfig, message, f).

(** However many rules set it, [muteCount] is 1 when a rule that triggers
    the mute has matched, and 0 otherwise. *)
Definition counts_once (f : Filtered) : Prop :=
  muteCount f = if hasTriggerMuteRule f then 1 else 0.

Definition lookups (meta : Session) : list Effect :=
  [GetGroupMemberInfo (guildId meta) (selfId meta);
   GetGroupMemberInfo (guildId meta) (userId meta)].

Definition is_send (e : Effect) : bool :=
  match e with
  | SendGroupMsg _ _ => true
  | _ => false
  end.

(** The pattern of a text taken character by character. *)
Definition literal (s : jstring) : regex :=
  foldr (fun ch r => Seq (CharSet [ch] false false) r) Epsilon s.

(** The lookbehind of line 140 as it reads: no text [$CQ:], word
    characters, anything, [$CQ] right before the index. *)
Definition lookbehind : regex :=
  Look true true
    (Seq (CharSet [36] false false)
      (Seq (CharSet [67] false false)
        (Seq (CharSet [81] false false)
          (Seq (CharSet [58] false false)
            (Seq (Quant 1 None true (CharSet class_word false false))
              (Seq (Quant 0 None false (CharSet [] true false))
                (literal [36; 67; 81]))))))).

(** What line 140 builds around a pattern that reads as [r] on its own:
    the lookbehind, [\s*], and the pattern as group 1. *)
Definition rule_regex (r : regex) : regex :=
  Seq lookbehind (Seq (Quant 0 None true (CharSet class_space false false))
    (Seq (Group 1 r) Epsilon)).

(** An index that does not come right after a letter Q, and one that does
    not stand before whitespace. *)
Definition not_after_Q (bef : jstring) : Prop :=
  match bef with
  | [] => True
  | ch :: _ => in_CharSet true [81] false false ch = false
  end.

Definition not_space (aft : jstring) : Prop :=
  match aft with
  | [] => True
  | ch :: _ => in_CharSet true class_space false false ch = false
  end.

(** [y] lies the characters [mid] further along the input than [x], in the
    direction of the match. *)
Definition moved (forward : bool) (x y : mstate) : Prop :=
  exists mid,
    if forward
    then after x = mid ++ after y /\ before y = reverse mid ++ before x
    else before x = mid ++ before y /\ after y = reverse mid ++ after x.

(** Whatever a matcher returns was returned by its continuation, called on
    a state further along. *)
Definition hands_over (forward : bool) (m : mstate -> continuation -> option mstate) : Prop :=
  forall x c z, m x c = Some z -> exists w, moved forward x w /\ c w = Some z.

(** A matcher looks at its continuation only on states further along. *)
Definition local (forward : bool) (m : mstate -> continuation -> option mstate) : Prop :=
  forall x c1 c2,
    (forall y, moved forward x y -> c1 y = c2 y) -> m x c1 = m x c2.

(** The number of characters ahead of a state. *)
Definition ahead (forward : bool) (x : mstate) : nat :=
  if forward then length (after x) else length (before x).

(** What may follow a pattern that is read as a part of a longer source:
    nothing, or a closing parenthesis. *)
Definition closing (tl : jstring) : Prop :=
  match tl with
  | [] => True
  | ch :: _ => ch = 41
  end.

(** The text of the lookbehind of line 140. *)
Definition lookbehind_source : jstring := utf16 "(?<!\$CQ:\w+.*?\$CQ)".

(** ** Inputs used in the examples *)

(** A rule with the given flags and replacement. *)
Definition rule (triggerMute recall replace : bool) (replaceWord : string) : BlockingWords.t :=
  BlockingWords.mk true triggerMute recall replace (utf16 replaceWord).

Definition text_element (s : string) : Element :=
  mkElement (utf16 "text") [(utf16 "content", utf16 s)].

(** A message of user 42 in group 12345, where the bot is 10000. *)
Definition session_of (elements : list Element) : Session :=
  mkSession true (utf16 "group") (utf16 "12345") (utf16 "10000") (utf16 "42")
    (utf16 "m1") elements None.

Definition group_12345 (mute : MuteConfig.t) (words : list (jstring * BlockingWords.t))
    : GroupRule.t :=
  GroupRule.mk (utf16 "12345") true mute words
    (utf16 "请遵守群规！") (utf16 "检测到违规内容！") (utf16 "修正内容：").

Definition all_fulfilled : Outcomes :=
  mkOutcomes (Some (utf16 "admin")) true true true true.

(** The two rules of the example "a+" then "X". *)
Definition rules_a_then_X : list (jstring * BlockingWords.t) :=
  [(utf16 "a+", rule false false true "X"); (utf16 "X", rule false true false "")].

(** A mention of user 12345, and a rule for the pattern "12345" that asks
    for the recall and counts toward the mute. *)
Definition mention_12345 : Element :=
  mkElement (utf16 "at") [(utf16 "id", utf16 "12345")].

Definition rules_12345 : list (jstring * BlockingWords.t) :=
  [(utf16 "12345", rule true true false "")].

Definition policy_12345 : list GroupRule.t :=
  [group_12345 (MuteConfig.mk false 3 600) rules_12345].

(** A picture whose file name holds an ampersand. *)
Definition image_a_and_b : Element :=
  mkElement (utf16 "image") [(utf16 "file", utf16 "a&b")].

(** A group where the word "bad" is removed. *)
Definition policy_bad : list GroupRule.t :=
  [group_12345 (MuteConfig.mk false 3 600) [(utf16 "bad", rule false false false "")]].

(** A message of 5004 characters, "spam" and then 5000 times "a", and a
    group where "spam" is replaced by "***" and counts toward the mute. *)
Definition long_spam : Element :=
  mkElement (utf16 "text") [(utf16 "content", utf16 "spam" ++ repeat 97 5000)].

Definition spam_group (threshold : N) : GroupRule.t :=
  group_12345 (MuteConfig.mk true threshold 600)
    [(utf16 "spam", rule true false true "***")].

Definition policy_spam (threshold : N) : list GroupRule.t := [spam_group threshold].

(** The texts of the messages a run of the middleware sends. *)
Definition sent (result : option (State * list Effect)) : list jstring :=
  match result with
  | Some (_, effects) =>
    omap (fun e => match e with SendGroupMsg _ text => Some text | _ => None end) effects
  | None => []
  end.

(** The rule "bar" without replacement, and the pattern built for it. *)
Definition rules_bar : list (jstring * BlockingWords.t) :=
  [(utf16 "bar", rule false false false "")].

Definition regex_bar : RegExp := mkRegExp (rule_regex (literal (utf16 "bar"))) true 1.

(** A message with the word "spam", and what the loop over the blocking
    words of [spam_group] makes of it. *)
Definition spam_session : Session := session_of [text_element "this is spam"].

Definition spam_filtered : Filtered :=
  mkFiltered (utf16 "this is***") false 1 true true.

(** A group with two rules that both count toward the mute, and a message
    that both match. *)
Definition two_rules_group : GroupRule.t :=
  group_12345 (MuteConfig.mk true 3 600)
    [(utf16 "spam", rule true false false ""); (utf16 "ads", rule true false false "")].

Definition two_rules_session : Session := session_of [text_element "spam ads"].

Definition mute_rejected : Outcomes :=
  mkOutcomes (Some (utf16 "admin")) true true false true.

Definition send_rejected : Outcomes :=
  mkOutcomes (Some (utf16 "admin")) true true true false.

Definition key_12345_42 : jstring := record_key (utf16 "12345") (utf16 "42").

(** ** Notions of the further properties *)

Definition is_ban (e : Effect) : bool :=
  match e with
  | SetGroupBan _ _ _ => true
  | _ => false
  end.

Definition is_recall (e : Effect) : bool :=
  match e with
  | DeleteMsg _ => true
  | _ => false
  end.

Definition is_next (e : Effect) : bool :=
  match e with
  | Next => true
  | _ => false
  end.

(** A call that is about the message at hand: its group, its sender or the
    bot, the message itself. *)
Definition concerns (meta : Session) (e : Effect) : Prop :=
  match e with
  | GetGroupMemberInfo group user =>
    group = guildId meta /\ (user = selfId meta \/ user = userId meta)
  | DeleteMsg message => message = messageId meta
  | SetGroupBan group user _ => group = guildId meta /\ user = userId meta
  | SendGroupMsg group _ => group = guildId meta
  | _ => True
  end.

(** Every record has its timeout pending. *)
Definition records_timed (st : State) : Prop :=
  forall k record,
    violationRecords st !! k = Some record -> timers st !! timer record = Some k.

(** The records and the pending timeouts correspond one to one. *)
Definition well_timed (st : State) : Prop := timers_owned st /\ records_timed st.



(** The calls of an answer: at most one recall, one mute and one message,
    all about the message at hand, and no [next()]. *)
Definition one_answer (meta : Session) (effects : list Effect) : Prop :=
  forallb (fun e => negb (is_next e)) effects = true
  /\ (length (List.filter is_recall effects) <= 1)%nat
  /\ (length (List.filter is_ban effects) <= 1)%nat
  /\ (length (List.filter is_send effects) <= 1)%nat
  /\ Forall (concerns meta) effects.

(** A rule that is disabled or does not match leaves everything as it is. *)
Definition passes_rule (message : jstring) (entry : jstring * BlockingWords.t) : Prop :=
  BlockingWords.enable entry.2 = false
  \/ exists regex,
       RegExp_new (rule_source entry.1) true true = Some regex
       /\ RegExp_test regex message = false.

(** ** Inputs of the further examples *)

(** A private message, and a group message in which no rule matches. *)
Definition private_session : Session :=
  mkSession true (utf16 "private") (utf16 "12345") (utf16 "10000") (utf16 "42")
    (utf16 "m1") [text_element "this is spam"] None.

Definition clean_session : Session := session_of [text_element "hello"].

(** Outcomes with the lookup of the bot rejected. *)
Definition lookup_rejected : Outcomes := mkOutcomes None true true true true.

(** The alert for "this is spam" at the first of three violations. *)
Definition alert_1_of_3 : jstring :=
  utf16 "[CQ:at,qq=42] 检测到违规内容！" ++ [10]
    ++ utf16 "修正内容：this is***" ++ [10] ++ utf16 "累计违规 1/3 次后禁言！".

(** The key of another user of the group. *)
Definition key_12345_43 : jstring := record_key (utf16 "12345") (utf16 "43").

(** What a run of the middleware gives, for a run inside the part of the
    pattern syntax that is read. *)
Definition outcome (result : option (State * list Effect)) : State * list Effect :=
  default (initial, []) result.

(** ** The schema of the configuration (lines 43-90) *)

(** [/^\d{5,12}$/], the pattern a group number has to match (line 49). *)
Definition groupId_pattern : RegExp :=
  mkRegExp
    (Seq AssertStart
      (Seq (Quant 5 (Some 12%nat) true (CharSet class_digit false false))
        (Seq AssertEnd Epsilon)))
    false 0.

(** ** More notions *)

(** A character that stands for itself in a pattern and starts no
    quantifier. *)
Definition plain_char (ch : N) : bool :=
  negb ((ch =? 94) || (ch =? 36) || (ch =? 40) || (ch =? 41) || (ch =? 46)
        || (ch =? 92) || (ch =? 42) || (ch =? 43) || (ch =? 63) || (ch =? 124)
        || (ch =? 91) || (ch =? 123)).

(** What the escaping makes of one character. *)
Definition escape_char (ch : N) : jstring :=
  if ch =? 38 then utf16 "&amp;" else [ch].

(** The order of [Object.entries]: a key that is an array index comes
    before one that is not, and of two array indices the smaller or equal
    one comes first. *)
Definition index_order {V : Type} (e1 e2 : jstring * V) : Prop :=
  match array_index e1.1, array_index e2.1 with
  | Some i, Some j => i <= j
  | Some _, None => True
  | None, Some _ => False
  | None, None => True
  end.

(** * Properties *)

(** ** Characters *)

Lemma ascii_upper_below (ch : N) : ch < 128 -> ascii_upper ch < 128.
Proof.
  unfold ascii_upper. intros H.
  destruct ((97 <=? ch) && (ch <=? 122)); lia.
Qed.

(** [same_char] is the comparison of the canonical forms. *)
Lemma same_char_spec (ignoreCase : bool) (a ch : N) :
  same_char ignoreCase a ch = (Canonicalize ignoreCase a =? Canonicalize ignoreCase ch).
Proof.
  unfold same_char, Canonicalize. destruct ignoreCase; cbn [negb]; [| reflexivity].
  destruct (N.ltb_spec a 128) as [Ha | Ha], (N.ltb_spec ch 128) as [Hch | Hch];
    cbn [andb orb]; try reflexivity; symmetry; apply N.eqb_neq.
  - pose proof (ascii_upper_below a Ha).
    destruct (N.ltb_spec (toUpperCase ch) 128); lia.
  - pose proof (ascii_upper_below ch Hch).
    destruct (N.ltb_spec (toUpperCase a) 128); lia.
Qed.

(** ** The duration text *)

Lemma ceil_div_60_spec (r : N) :
  r <= 60 * ceil_div r 60 /\ 60 * ceil_div r 60 < r + 60.
Proof.
  unfold ceil_div. change (60 - 1) with 59.
  pose proof (N.div_mod (r + 59) 60 ltac:(lia)) as Hdm.
  pose proof (N.mod_lt (r + 59) 60 ltac:(lia)) as Hlt.
  remember ((r + 59) / 60) as q eqn:Hq.
  remember ((r + 59) mod 60) as m eqn:Hm.
  clear Hq Hm. lia.
Qed.

Lemma utf16_nonempty_app (a b : jstring) : b <> [] -> a ++ b <> [].
Proof. destruct a; simpl; [tauto | discriminate]. Qed.

(** Below [2^53] the hours are the quotient of the natural numbers. *)
Lemma durationText_below_two53 (totalSeconds : N) :
  totalSeconds < two53 ->
  durationText totalSeconds
  = (if 0 <? totalSeconds / 3600
     then Number_toString (totalSeconds / 3600) ++ utf16 "小时" else [])
    ++ (if 0 <? ceil_div (totalSeconds mod 3600) 60
        then Number_toString (ceil_div (totalSeconds mod 3600) 60) ++ utf16 "分钟"
        else []).
Proof.
  intros Hlt. apply N.ltb_lt in Hlt.
  unfold durationText, to_double. rewrite Hlt. cbv zeta.
  unfold Math_floor_div. by rewrite Hlt.
Qed.

(** From [2^53] on the text follows the doubles: for [10^21] seconds the
    quotient by 3600 is rounded to 277777777777777792, which prints with
    the 16 digits that tell it from its neighbours. *)
Lemma durationText_of_a_large_double :
  durationText (10 ^ 21) = utf16 "277777777777777800小时47分钟".
Proof. vm_compute. reflexivity. Qed.

(** C5: for a duration below [2^53] seconds (where the numbers of lines
    183-188 are exact) the hours are the floor of seconds/3600, the minutes
    the ceiling of the remaining seconds over 60; a unit whose number is
    zero is left out, so the text is empty exactly when both are zero; 3661
    seconds give an hour unit and a minute unit (1 hour, 2 minutes), 60
    seconds only the minute unit. *)
Theorem C5_duration_text (totalSeconds : N) :
  totalSeconds < 2 ^ 53 ->
  let hours := totalSeconds / 3600 in
  let minutes := ceil_div (totalSeconds mod 3600) 60 in
  (3600 * hours <= totalSeconds /\ totalSeconds < 3600 * (hours + 1))
  /\ (totalSeconds mod 3600 <= 60 * minutes
      /\ 60 * minutes < totalSeconds mod 3600 + 60)
  /\ durationText totalSeconds
     = (if hours =? 0 then [] else Number_toString hours ++ utf16 "小时")
       ++ (if minutes =? 0 then [] else Number_toString minutes ++ utf16 "分钟")
  /\ (durationText totalSeconds = [] <-> hours = 0 /\ minutes = 0)
  /\ durationText 3661 = utf16 "1小时2分钟"
  /\ durationText 60 = utf16 "1分钟".
Proof.
  intros Hsafe hours minutes.
  change (2 ^ 53) with two53 in Hsafe.
  assert (Htext : durationText totalSeconds
     = (if hours =? 0 then [] else Number_toString hours ++ utf16 "小时")
       ++ (if minutes =? 0 then [] else Number_toString minutes ++ utf16 "分钟")).
  { rewrite durationText_below_two53 by exact Hsafe. fold hours. fold minutes.
    destruct (N.eqb_spec hours 0) as [-> | Hh];
      destruct (N.eqb_spec minutes 0) as [-> | Hm]; simpl; try reflexivity.
    - destruct (N.ltb_spec 0 minutes); [reflexivity | lia].
    - destruct (N.ltb_spec 0 hours); [reflexivity | lia].
    - destruct (N.ltb_spec 0 hours); [| lia].
      destruct (N.ltb_spec 0 minutes); [reflexivity | lia]. }
  repeat split.
  - subst hours. pose proof (N.Div0.mul_div_le totalSeconds 3600). lia.
  - subst hours. pose proof (N.mul_succ_div_gt totalSeconds 3600 ltac:(lia)). lia.
  - apply ceil_div_60_spec.
  - apply ceil_div_60_spec.
  - exact Htext.
  - rewrite Htext in H.
    destruct (N.eqb_spec hours 0) as [E | _]; [exact E |].
    exfalso. apply app_eq_nil in H as [H _].
    revert H. apply utf16_nonempty_app. discriminate.
  - rewrite Htext in H.
    destruct (N.eqb_spec minutes 0) as [E | _]; [exact E |].
    exfalso. apply app_eq_nil in H as [_ H].
    revert H. apply utf16_nonempty_app. discriminate.
  - intros [-> ->]. rewrite Htext. reflexivity.
Qed.

(** ** The violation records *)

Lemma register_spec (recordKey : jstring) (muteCount threshold : N) (st : State) :
  exists st1 h,
    register recordKey muteCount threshold st
      = (st1, mkRecord (count_of recordKey st + muteCount) h,
         threshold <=? count_of recordKey st + muteCount)
    /\ violationRecords st1 !! recordKey
       = Some (mkRecord (count_of recordKey st + muteCount) h)
    /\ (forall k, k <> recordKey ->
          violationRecords st1 !! k = violationRecords st !! k).
Proof.
  unfold register, count_of.
  destruct (violationRecords st !! recordKey) as [record |] eqn:Hget; simpl.
  - eexists _, _. split; [reflexivity |]. simpl. split.
    + apply lookup_insert_eq.
    + intros k Hk. by rewrite lookup_insert_ne.
  - eexists _, _. split; [reflexivity |]. simpl. split.
    + apply lookup_insert_eq.
    + intros k Hk. by rewrite !lookup_insert_ne.
Qed.

Lemma count_of_register (recordKey : jstring) (muteCount threshold : N) (st : State) :
  count_of recordKey (register recordKey muteCount threshold st).1.1
  = count_of recordKey st + muteCount.
Proof.
  destruct (register_spec recordKey muteCount threshold st)
    as (st1 & h & Heq & Hget & _).
  rewrite Heq. simpl. unfold count_of at 1. by rewrite Hget.
Qed.

Lemma count_of_registered (n : nat) (recordKey : jstring) (threshold : N) (st : State) :
  count_of recordKey (registered n recordKey threshold st)
  = count_of recordKey st + N.of_nat n.
Proof.
  induction n as [| n IH]; simpl registered.
  - simpl. lia.
  - rewrite count_of_register, IH. lia.
Qed.

Lemma count_of_clear (recordKey : jstring) (record : ViolationRecord) (st : State) :
  count_of recordKey (clear recordKey record st) = 0.
Proof. unfold count_of, clear. simpl. by rewrite lookup_delete_eq. Qed.


(** *** The timeouts and the records belong together *)


Lemma register_timers_owned (recordKey : jstring) (muteCount threshold : N) (st : State) :
  timers_owned st -> timers_owned (register recordKey muteCount threshold st).1.1.
Proof.
  intros Hst h k. unfold register.
  destruct (violationRecords st !! recordKey) as [record |] eqn:Hget; simpl.
  - intros H. destruct (Hst h k H) as (Hlt & r & Hr & Htimer). split; [exact Hlt |].
    destruct (decide (k = recordKey)) as [-> | Hne].
    + rewrite lookup_insert_eq. eexists. split; [reflexivity |]. simpl. congruence.
    + rewrite lookup_insert_ne by congruence. eauto.
  - destruct (decide (h = nextTimer st)) as [-> | Hne].
    + rewrite lookup_insert_eq. intros [= <-]. split; [lia |].
      rewrite lookup_insert_eq. eauto.
    + rewrite lookup_insert_ne by congruence. intros H.
      destruct (Hst h k H) as (Hlt & r & Hr & Htimer). split; [lia |].
      rewrite !lookup_insert_ne by congruence. eauto.
Qed.

Lemma clear_timers_owned (recordKey : jstring) (record : ViolationRecord) (st : State) :
  violationRecords st !! recordKey = Some record ->
  timers_owned st -> timers_owned (clear recordKey record st).
Proof.
  intros Hget Hst h k. unfold clear. simpl.
  destruct (decide (h = timer record)) as [-> | Hne];
    [by rewrite lookup_delete_eq | rewrite lookup_delete_ne by congruence].
  intros H. destruct (Hst h k H) as (Hlt & r & Hr & Htimer). split; [exact Hlt |].
  assert (k <> recordKey) by (intros ->; congruence).
  rewrite lookup_delete_ne by congruence. eauto.
Qed.


(** A key without a record has no timeout pending. *)
Lemma no_record_no_timeout (recordKey : jstring) (st : State) :
  timers_owned st ->
  violationRecords st !! recordKey = None ->
  forall h, timers st !! h <> Some recordKey.
Proof.
  intros Hst Hnone h H. destruct (Hst h recordKey H) as (_ & r & Hr & _). congruence.
Qed.

(** C8: for a key without a record and threshold 3, the registration number
    [n + 1] in a row yields count [n + 1] and [shouldMute] exactly when
    [n + 1 >= 3]; once the record is cleared the next registration yields
    count 1. *)
Theorem C8_nth_registration (recordKey : jstring) (st : State) (n : nat) :
  violationRecords st !! recordKey = None ->
  exists st1 record,
    register recordKey 1 3 (registered n recordKey 3 st)
      = (st1, record, 3 <=? N.of_nat (n + 1))
    /\ count record = N.of_nat (n + 1)
    /\ exists st2 record2 shouldMute2,
         register recordKey 1 3 (clear recordKey record st1)
           = (st2, record2, shouldMute2)
         /\ count record2 = 1
         /\ shouldMute2 = false.
Proof.
  intros Hfresh.
  destruct (register_spec recordKey 1 3 (registered n recordKey 3 st))
    as (st1 & h & Heq & _ & _).
  rewrite count_of_registered in Heq.
  assert (Hzero : count_of recordKey st = 0) by (unfold count_of; by rewrite Hfresh).
  rewrite Hzero in Heq.
  replace (0 + N.of_nat n + 1) with (N.of_nat (n + 1)) in Heq by lia.
  exists st1, (mkRecord (N.of_nat (n + 1)) h). split; [exact Heq |].
  split; [reflexivity |].
  destruct (register_spec recordKey 1 3 (clear recordKey (mkRecord (N.of_nat (n + 1)) h) st1))
    as (st2 & h2 & Heq2 & _ & _).
  rewrite count_of_clear in Heq2.
  eexists _, _, _. split; [exact Heq2 |]. split; reflexivity.
Qed.

(** ** The loop over the blocking words *)

Lemma apply_rule_counts_once (acc acc1 : Filtered) (entry : jstring * BlockingWords.t) :
  counts_once acc -> apply_rule acc entry = Some acc1 -> counts_once acc1.
Proof.
  intros Hacc. unfold apply_rule. destruct entry as [pattern r].
  destruct (negb (BlockingWords.enable r)); [by intros [= <-] |].
  destruct (RegExp_new (rule_source pattern) true true) as [re |]; simpl; [| discriminate].
  destruct (RegExp_test re (modifiedMessage acc)); [| by intros [= <-]].
  intros [= <-]. unfold counts_once. simpl.
  destruct (BlockingWords.triggerMute r); [reflexivity | exact Hacc].
Qed.

Lemma apply_rules_counts_once (entries : list (jstring * BlockingWords.t))
    (acc acc1 : Filtered) :
  counts_once acc -> apply_rules acc entries = Some acc1 -> counts_once acc1.
Proof.
  revert acc. induction entries as [| entry entries IH]; intros acc Hacc; simpl.
  - by intros [= <-].
  - destruct (apply_rule acc entry) as [acc2 |] eqn:Hrule; simpl; [| discriminate].
    apply IH. eapply apply_rule_counts_once; eassumption.
Qed.

Lemma filter_message_counts_once (blockingWords : list (jstring * BlockingWords.t))
    (message : jstring) (f : Filtered) :
  filter_message blockingWords message = Some f -> counts_once f.
Proof. apply apply_rules_counts_once. reflexivity. Qed.

(** ** The middleware *)

Lemma middleware_moderated (blockingRules : list GroupRule.t) (meta : Session)
    (w : Outcomes) (st : State) (groupConfig : GroupRule.t) (message : jstring)
    (f : Filtered) :
  moderated blockingRules meta w = Some (groupConfig, message, f) ->
  middleware blockingRules meta w st
  = Some ((respond groupConfig meta w message f st).1,
          lookups meta ++ (respond groupConfig meta w message f st).2 ++ [Next]).
Proof.
  unfold moderated, middleware, lookups.
  destruct (negb (onebot meta) || negb (jstring_eqb (subtype meta) (utf16 "group")));
    [discriminate |].
  destruct (configDict blockingRules !! guildId meta) as [g |]; simpl; [| discriminate].
  destruct (negb (GroupRule.enable g)); [discriminate |].
  destruct (handleMsg meta w) as [[role msg] |]; simpl; [| discriminate].
  destruct (negb (elevated role)); [discriminate |].
  destruct (filter_message (GroupRule.blockingWords g) msg) as [f1 |]; simpl;
    [| discriminate].
  intros [= -> -> ->].
  destruct (respond groupConfig meta w message f st) as [st1 effects]. reflexivity.
Qed.

Lemma moderated_counts_once (blockingRules : list GroupRule.t) (meta : Session)
    (w : Outcomes) (groupConfig : GroupRule.t) (message : jstring) (f : Filtered) :
  moderated blockingRules meta w = Some (groupConfig, message, f) -> counts_once f.
Proof.
  unfold moderated.
  destruct (negb (onebot meta) || negb (jstring_eqb (subtype meta) (utf16 "group")));
    [discriminate |].
  destruct (configDict blockingRules !! guildId meta) as [g |]; simpl; [| discriminate].
  destruct (negb (GroupRule.enable g)); [discriminate |].
  destruct (handleMsg meta w) as [[role msg] |]; simpl; [| discriminate].
  destruct (negb (elevated role)); [discriminate |].
  destruct (filter_message (GroupRule.blockingWords g) msg) as [f1 |] eqn:Hf; simpl;
    [| discriminate].
  intros [= -> -> ->]. eapply filter_message_counts_once. exact Hf.
Qed.

(** What [respond] does once the count reaches the threshold. *)
Lemma respond_should_mute (groupConfig : GroupRule.t) (meta : Session) (w : Outcomes)
    (message : jstring) (f : Filtered) (st : State) :
  let mute := GroupRule.muteConfig groupConfig in
  let recordKey := record_key (guildId meta) (userId meta) in
  MuteConfig.enable mute = true ->
  hasTriggerMuteRule f = true ->
  MuteConfig.threshold mute <= count_of recordKey st + muteCount f ->
  exists st1 record,
    register recordKey (muteCount f) (MuteConfig.threshold mute) st = (st1, record, true)
    /\ count record = count_of recordKey st + muteCount f
    /\ violationRecords st1 !! recordKey = Some record
    /\ respond groupConfig meta w message f st
       = mute_branch groupConfig meta w message f recordKey record st1.
Proof.
  intros mute recordKey Hen Htrig Hth.
  destruct (register_spec recordKey (muteCount f) (MuteConfig.threshold mute) st)
    as (st1 & h & Heq & Hget & _).
  apply N.leb_le in Hth. fold mute in Hth. rewrite Hth in Heq.
  eexists st1, _. split; [exact Heq |]. split; [reflexivity |]. split; [exact Hget |].
  unfold respond. fold mute. fold recordKey. rewrite Hen, Htrig. simpl.
  rewrite Heq.
  destruct (mute_branch groupConfig meta w message f recordKey _ st1) as [st2 effects].
  rewrite andb_false_r. by rewrite app_nil_r.
Qed.

Lemma recall_effects_no_send (meta : Session) (w : Outcomes) (needRecall : bool) :
  forallb (fun e => negb (is_send e)) (recall_effects meta w needRecall) = true.
Proof.
  unfold recall_effects. destruct needRecall, (deleteMsg_ok w); reflexivity.
Qed.

(** C7: when the count reaches the threshold and [setGroupBan] is rejected,
    the handling logs the failure and ends: the calls made are the two
    lookups, the recall if one was asked for, and the rejected mute; no
    message is sent, by the mute branch or by the alert branch. *)
Theorem C7_mute_failure_sends_nothing (blockingRules : list GroupRule.t)
    (meta : Session) (w : Outcomes) (st : State) (groupConfig : GroupRule.t)
    (message : jstring) (f : Filtered) :
  let mute := GroupRule.muteConfig groupConfig in
  let recordKey := record_key (guildId meta) (userId meta) in
  moderated blockingRules meta w = Some (groupConfig, message, f) ->
  MuteConfig.enable mute = true ->
  hasTriggerMuteRule f = true ->
  MuteConfig.threshold mute <= count_of recordKey st + 1 ->
  setGroupBan_ok w = false ->
  exists st1 effects,
    middleware blockingRules meta w st = Some (st1, effects)
    /\ effects
       = lookups meta ++ recall_effects meta w (needRecall f)
         ++ [SetGroupBan (guildId meta) (userId meta) (MuteConfig.duration mute);
             LogError MuteFailed; Next]
    /\ forallb (fun e => negb (is_send e)) effects = true.
Proof.
  intros mute recordKey Hmod Hen Htrig Hth Hban.
  pose proof (moderated_counts_once _ _ _ _ _ _ Hmod) as Hone.
  unfold counts_once in Hone. rewrite Htrig in Hone.
  destruct (respond_should_mute groupConfig meta w message f st Hen Htrig)
    as (st1 & record & _ & _ & _ & Hresp).
  { fold recordKey. rewrite Hone. exact Hth. }
  rewrite (middleware_moderated _ _ _ _ _ _ _ Hmod), Hresp.
  unfold mute_branch. rewrite Hban. simpl.
  eexists _, _. split; [reflexivity |]. split.
  - by rewrite <- !app_assoc.
  - simpl. rewrite !forallb_app, recall_effects_no_send. reflexivity.
Qed.

(** The state [respond] leaves, for a message that is counted. *)
Lemma respond_state (groupConfig : GroupRule.t) (meta : Session) (w : Outcomes)
    (message : jstring) (f : Filtered) (st : State) :
  let mute := GroupRule.muteConfig groupConfig in
  let recordKey := record_key (guildId meta) (userId meta) in
  MuteConfig.enable mute = true ->
  hasTriggerMuteRule f = true ->
  (respond groupConfig meta w message f st).1
  = let '(st1, record, shouldMute) :=
      register recordKey (muteCount f) (MuteConfig.threshold mute) st in
    if shouldMute && setGroupBan_ok w && sendGroupMsg_ok w
    then clear recordKey record st1 else st1.
Proof.
  intros mute recordKey Hen Htrig.
  unfold respond. fold mute. fold recordKey. rewrite Hen, Htrig. simpl.
  destruct (register recordKey (muteCount f) (MuteConfig.threshold mute) st)
    as [[st1 record] shouldMute].
  destruct shouldMute; simpl; [| reflexivity].
  unfold mute_branch.
  destruct (setGroupBan_ok w); simpl; [| reflexivity].
  destruct (sendGroupMsg_ok w); reflexivity.
Qed.

Lemma respond_timers_owned (groupConfig : GroupRule.t) (meta : Session) (w : Outcomes)
    (message : jstring) (f : Filtered) (st : State) :
  timers_owned st -> timers_owned (respond groupConfig meta w message f st).1.
Proof.
  intros Hst. unfold respond.
  destruct (MuteConfig.enable _ && hasTriggerMuteRule f); [| exact Hst].
  set (recordKey := record_key (guildId meta) (userId meta)).
  pose proof (register_timers_owned recordKey (muteCount f)
                (MuteConfig.threshold (GroupRule.muteConfig groupConfig)) st Hst) as Hst1.
  destruct (register_spec recordKey (muteCount f)
              (MuteConfig.threshold (GroupRule.muteConfig groupConfig)) st)
    as (st1 & h & Heq & Hget & _).
  rewrite Heq in Hst1 |- *. simpl in Hst1.
  destruct (_ <=? _); [| exact Hst1].
  unfold mute_branch.
  destruct (setGroupBan_ok w); simpl; [| exact Hst1].
  destruct (sendGroupMsg_ok w); simpl; [| exact Hst1].
  by apply clear_timers_owned.
Qed.

(** The middleware keeps the timeouts and the records together. *)
Lemma middleware_timers_owned (blockingRules : list GroupRule.t) (meta : Session)
    (w : Outcomes) (st st1 : State) (effects : list Effect) :
  middleware blockingRules meta w st = Some (st1, effects) ->
  timers_owned st -> timers_owned st1.
Proof.
  intros H Hst. unfold middleware in H.
  destruct (negb (onebot meta) || negb (jstring_eqb (subtype meta) (utf16 "group")));
    [by injection H as <- _ |].
  destruct (configDict blockingRules !! guildId meta) as [g |];
    [| by injection H as <- _].
  destruct (negb (GroupRule.enable g)); [by injection H as <- _ |].
  destruct (handleMsg meta w) as [[role message] |]; [| by injection H as <- _].
  destruct (negb (elevated role)); [by injection H as <- _ |].
  destruct (filter_message (GroupRule.blockingWords g) message) as [f |];
    [| discriminate].
  cbn [mbind option_bind] in H.
  pose proof (respond_timers_owned g meta w message f st Hst) as Hresp.
  destruct (respond g meta w message f st) as [st2 effects2].
  by injection H as <- _.
Qed.

(** When the count reaches the threshold and both the mute and the message
    that announces it are fulfilled, the handling ends with the record of
    the key removed and its timeout cancelled (no timeout for the key is
    left pending), and the next registration for the key makes a new
    record, with a new timeout, whose count is 1. *)
Lemma fulfilled_mute_clears_the_record (blockingRules : list GroupRule.t)
    (meta : Session) (w : Outcomes) (st : State) (groupConfig : GroupRule.t)
    (message : jstring) (f : Filtered) :
  let mute := GroupRule.muteConfig groupConfig in
  let recordKey := record_key (guildId meta) (userId meta) in
  moderated blockingRules meta w = Some (groupConfig, message, f) ->
  MuteConfig.enable mute = true ->
  hasTriggerMuteRule f = true ->
  MuteConfig.threshold mute <= count_of recordKey st + 1 ->
  setGroupBan_ok w = true ->
  sendGroupMsg_ok w = true ->
  exists st1 effects record,
    middleware blockingRules meta w st = Some (st1, effects)
    /\ (register recordKey (muteCount f) (MuteConfig.threshold mute) st).1.2 = record
    /\ violationRecords st1 !! recordKey = None
    /\ timers st1 !! timer record = None
    /\ (timers_owned st -> forall h, timers st1 !! h <> Some recordKey)
    /\ forall threshold2, exists st2,
         register recordKey 1 threshold2 st1
           = (st2, mkRecord 1 (nextTimer st1), threshold2 <=? 1)
         /\ timers st2 !! nextTimer st1 = Some recordKey.
Proof.
  intros mute recordKey Hmod Hen Htrig Hth Hban Hsend.
  pose proof (moderated_counts_once _ _ _ _ _ _ Hmod) as Hone.
  unfold counts_once in Hone. rewrite Htrig in Hone.
  pose proof (middleware_timers_owned blockingRules meta w st) as Hinv.
  rewrite (middleware_moderated _ _ _ _ _ _ _ Hmod) in Hinv |- *.
  pose proof (respond_state groupConfig meta w message f st Hen Htrig) as Hst.
  fold mute recordKey in Hst.
  destruct (register_spec recordKey (muteCount f) (MuteConfig.threshold mute) st)
    as (st1 & h & Heq & _ & _).
  rewrite Hone in Heq. apply N.leb_le in Hth. rewrite Hth in Heq.
  rewrite Hone, Heq, Hban, Hsend in Hst. simpl in Hst.
  eexists _, _, _. split; [reflexivity |].
  rewrite Hst in Hinv |- *. rewrite Hone, Heq.
  assert (Hnone : forall record,
            violationRecords (clear recordKey record st1) !! recordKey = None)
    by (intros record; apply lookup_delete_eq).
  split; [reflexivity |].
  split; [apply Hnone |].
  split; [apply lookup_delete_eq |].
  split.
  { intros Hown. apply no_record_no_timeout; [| apply Hnone].
    eapply Hinv; [reflexivity | exact Hown]. }
  simpl. intros threshold2. unfold register. simpl.
  rewrite lookup_delete_eq. simpl.
  eexists. split; [reflexivity |]. simpl. apply lookup_insert_eq.
Qed.

(** A registration cancels no timeout of its key, and the record it makes
    for a key that had none has its timeout pending. *)
Lemma register_keeps_timeouts (recordKey : jstring) (muteCount threshold : N) (st : State) :
  let st1 := (register recordKey muteCount threshold st).1.1 in
  let record := (register recordKey muteCount threshold st).1.2 in
  (forall h, timers st !! h = Some recordKey -> timers st1 !! h = Some recordKey)
  /\ (violationRecords st !! recordKey = None -> timers st1 !! timer record = Some recordKey).
Proof.
  unfold register.
  destruct (violationRecords st !! recordKey) as [record0 |] eqn:Hget; simpl.
  - split; [auto | discriminate].
  - split; [| intros _; apply lookup_insert_eq].
    intros h Hh. destruct (decide (h = nextTimer st)) as [-> | Hne];
      [apply lookup_insert_eq | by rewrite lookup_insert_ne].
Qed.

(** C6, on the code: [clearTimeout] and [delete] (lines 200-201) come after
    the awaited [sendGroupMsg] inside the same [try].  When the count
    reaches the threshold and the mute is fulfilled but the message that
    announces it is rejected, the user is muted and yet nothing is cleared:
    the state is the one right after the count, the record stays with that
    count, no timeout of the key is cancelled, and the next violation of
    the key counts on from it and reaches the threshold again.  (With the
    message fulfilled the record is removed, see
    [fulfilled_mute_clears_the_record].) *)
Theorem C6_rejected_send_keeps_the_record (blockingRules : list GroupRule.t)
    (meta : Session) (w : Outcomes) (st : State) (groupConfig : GroupRule.t)
    (message : jstring) (f : Filtered) :
  let mute := GroupRule.muteConfig groupConfig in
  let recordKey := record_key (guildId meta) (userId meta) in
  moderated blockingRules meta w = Some (groupConfig, message, f) ->
  MuteConfig.enable mute = true ->
  hasTriggerMuteRule f = true ->
  MuteConfig.threshold mute <= count_of recordKey st + 1 ->
  setGroupBan_ok w = true ->
  sendGroupMsg_ok w = false ->
  exists st1 effects record,
    middleware blockingRules meta w st = Some (st1, effects)
    /\ In (SetGroupBan (guildId meta) (userId meta) (MuteConfig.duration mute)) effects
    /\ st1 = (register recordKey 1 (MuteConfig.threshold mute) st).1.1
    /\ violationRecords st1 !! recordKey = Some record
    /\ count record = count_of recordKey st + 1
    /\ (forall h, timers st !! h = Some recordKey -> timers st1 !! h = Some recordKey)
    /\ (violationRecords st !! recordKey = None ->
        timers st1 !! timer record = Some recordKey)
    /\ exists st2,
         register recordKey 1 (MuteConfig.threshold mute) st1
         = (st2, mkRecord (count_of recordKey st + 2) (timer record), true).
Proof.
  intros mute recordKey Hmod Hen Htrig Hth Hban Hsend.
  pose proof (moderated_counts_once _ _ _ _ _ _ Hmod) as Hone.
  unfold counts_once in Hone. rewrite Htrig in Hone.
  destruct (respond_should_mute groupConfig meta w message f st Hen Htrig)
    as (st1 & record & Hreg & Hcount & Hget & Hresp).
  { fold recordKey. rewrite Hone. exact Hth. }
  fold mute recordKey in Hreg, Hcount, Hget, Hresp.
  rewrite Hone in Hreg, Hcount.
  rewrite (middleware_moderated _ _ _ _ _ _ _ Hmod), Hresp.
  unfold mute_branch. rewrite Hban, Hsend. simpl.
  destruct (register_keeps_timeouts recordKey 1 (MuteConfig.threshold mute) st)
    as [Hkept Hset].
  rewrite Hreg in Hkept, Hset. simpl in Hkept, Hset.
  eexists st1, _, record. split; [reflexivity |].
  split.
  { simpl. rewrite !in_app_iff. simpl. right. right. left. right. by left. }
  split; [by rewrite Hreg |].
  split; [exact Hget |].
  split; [exact Hcount |].
  split; [exact Hkept |].
  split; [exact Hset |].
  unfold register. rewrite Hget. simpl. eexists. f_equal; [f_equal |].
  - f_equal. rewrite Hcount. lia.
  - apply N.leb_le. rewrite Hcount. lia.
Qed.

(** C9: a message that is counted (the mute policy is enabled and a rule
    that triggers the mute matched) adds exactly 1 to the count of the
    sender's key, however many such rules matched; after the handling the
    key has that count, unless the threshold was reached and the record
    was cleared. *)
Theorem C9_one_violation_per_message (blockingRules : list GroupRule.t)
    (meta : Session) (w : Outcomes) (st : State) (groupConfig : GroupRule.t)
    (message : jstring) (f : Filtered) :
  let mute := GroupRule.muteConfig groupConfig in
  let recordKey := record_key (guildId meta) (userId meta) in
  moderated blockingRules meta w = Some (groupConfig, message, f) ->
  MuteConfig.enable mute = true ->
  hasTriggerMuteRule f = true ->
  exists st1 record shouldMute st2 effects,
    register recordKey (muteCount f) (MuteConfig.threshold mute) st
      = (st1, record, shouldMute)
    /\ count record = count_of recordKey st + 1
    /\ middleware blockingRules meta w st = Some (st2, effects)
    /\ (count_of recordKey st2 = count_of recordKey st + 1
        \/ shouldMute = true /\ violationRecords st2 !! recordKey = None).
Proof.
  intros mute recordKey Hmod Hen Htrig.
  pose proof (moderated_counts_once _ _ _ _ _ _ Hmod) as Hone.
  unfold counts_once in Hone. rewrite Htrig in Hone.
  rewrite (middleware_moderated _ _ _ _ _ _ _ Hmod).
  pose proof (respond_state groupConfig meta w message f st Hen Htrig) as Hst.
  fold mute recordKey in Hst.
  destruct (register_spec recordKey (muteCount f) (MuteConfig.threshold mute) st)
    as (st1 & h & Heq & Hget & _).
  rewrite Heq in Hst. rewrite Hone in Hst, Heq, Hget |- *.
  eexists _, _, _, _, _. split; [exact Heq |].
  split; [reflexivity |]. split; [reflexivity |].
  rewrite Hst.
  destruct (_ && setGroupBan_ok w && sendGroupMsg_ok w) eqn:Hclear.
  - right. split.
    + by destruct (_ <=? _).
    + apply lookup_delete_eq.
  - left. unfold count_of at 1. by rewrite Hget.
Qed.

(** ** The blocking words on given messages *)

Lemma mention_12345_filtered :
  message_of (session_of [mention_12345]) = utf16 "[CQ:at,qq=12345]"
  /\ filter_message rules_12345 (utf16 "[CQ:at,qq=12345]")
     = Some (mkFiltered (utf16 "[CQ:at,qq=]") true 1 true true).
Proof. split; vm_compute; reflexivity. Qed.

(** C1, on the code: the pattern "12345" occurs in the message of a
    mention of user 12345 only as the value of [qq], and the rule matches
    all the same; the number is cut out of the CQ code and the recall and
    mute flags of the rule are set.  The mention is deleted and answered
    with an alert. *)
Theorem C1_pattern_inside_token_is_matched :
  message_of (session_of [mention_12345]) = utf16 "[CQ:at,qq=12345]"
  /\ filter_message rules_12345 (message_of (session_of [mention_12345]))
     = Some (mkFiltered (utf16 "[CQ:at,qq=]") true 1 true true)
  /\ middleware policy_12345 (session_of [mention_12345]) all_fulfilled initial
     = Some (initial,
             lookups (session_of [mention_12345])
             ++ [DeleteMsg (utf16 "m1");
                 SendGroupMsg (utf16 "12345")
                   (utf16 "[CQ:at,qq=42] 检测到违规内容！" ++ [10]
                    ++ utf16 "修正内容：[CQ:at,qq=]" ++ [10]
                    ++ utf16 "请遵守群规！");
                 Next]).
Proof.
  destruct mention_12345_filtered as [Hmsg Hf]. rewrite Hmsg.
  split; [reflexivity |]. split; [exact Hf |]. vm_compute. reflexivity.
Qed.

Lemma a_then_X_filtered :
  filter_message rules_a_then_X (utf16 "aaa") = Some (mkFiltered [] true 0 false true).
Proof. vm_compute. reflexivity. Qed.

(** C2, as the code has it: with the rules "a+" (replace by "X") and then
    "X" (recall, no replacement), the text "aaa" becomes "X" under the first
    rule, the second rule matches that "X" and, having no replacement,
    removes it: the modified text is empty and the recall is requested. *)
Theorem C2_rules_in_order :
  apply_rule (mkFiltered (utf16 "aaa") false 0 false false)
    (utf16 "a+", rule false false true "X")
  = Some (mkFiltered (utf16 "X") false 0 false true)
  /\ exists f,
       filter_message rules_a_then_X (utf16 "aaa") = Some f
       /\ modifiedMessage f = []
       /\ needRecall f = true.
Proof.
  split; [vm_compute; reflexivity |].
  eexists. split; [exact a_then_X_filtered |]. split; reflexivity.
Qed.

(** ** Escaping the corrected text *)

(** [cqPattern] asks for the end of the input and then for the letter C:
    it matches nowhere. *)
Lemma cqPattern_never_matches (x : mstate) : match_here cqPattern x = None.
Proof.
  unfold match_here, cqPattern. simpl.
  destruct (after x); reflexivity.
Qed.

Lemma split_loop_cqPattern (fuel : nat) (str : jstring) (p q : nat) :
  split_loop fuel cqPattern str p q = [Some (drop p str)].
Proof.
  revert q. induction fuel as [| fuel IH]; intros q; simpl; [reflexivity |].
  destruct (negb (q <? length str)%nat); [reflexivity |].
  rewrite cqPattern_never_matches. apply IH.
Qed.

Lemma String_split_cqPattern (str : jstring) :
  String_split str cqPattern = [Some str].
Proof.
  unfold String_split. destruct str as [| ch str].
  - by rewrite cqPattern_never_matches.
  - apply split_loop_cqPattern.
Qed.

(** C3, on the code: [split] finds no CQ code, so the whole corrected text
    is the one part with index 0 and every ampersand in it is replaced, the
    ones inside a CQ code as well: the picture [CQ:image,file=a&b] goes out
    as [CQ:image,file=a&amp;b], also in the alert for the message "bad"
    followed by that picture. *)
Theorem C3_ampersand_escaped_inside_tokens (modifiedMessage : jstring) :
  escapedText modifiedMessage
  = Some (String_replace modifiedMessage ampersand (utf16 "&amp;"))
  /\ message_of (session_of [image_a_and_b]) = utf16 "[CQ:image,file=a&b]"
  /\ escapedText (utf16 "[CQ:image,file=a&b]") = Some (utf16 "[CQ:image,file=a&amp;b]")
  /\ sent (middleware policy_bad (session_of [text_element "bad"; image_a_and_b])
             all_fulfilled initial)
     = [utf16 "[CQ:at,qq=42] 检测到违规内容！" ++ [10]
        ++ utf16 "修正内容：[CQ:image,file=a&amp;b]" ++ [10]
        ++ utf16 "请遵守群规！"].
Proof.
  split; [| split; [| split]; vm_compute; reflexivity].
  unfold escapedText. rewrite String_split_cqPattern. simpl.
  by rewrite app_nil_r.
Qed.

(** ** The length of what is sent *)

Lemma length_slice0 (n : nat) (s : jstring) : (length (slice0 n s) <= n)%nat.
Proof. unfold slice0. rewrite length_take. lia. Qed.

Lemma alert_branch_at_most_4500 (groupConfig : GroupRule.t) (meta : Session)
    (w : Outcomes) (message : jstring) (f : Filtered) (st : State)
    (group text : jstring) :
  In (SendGroupMsg group text) (alert_branch groupConfig meta w message f st) ->
  (length text <= 4500)%nat.
Proof.
  unfold alert_branch.
  assert (Hrecall : ~ In (SendGroupMsg group text)
                        (recall_effects meta w (needRecall f))).
  { unfold recall_effects.
    destruct (needRecall f), (deleteMsg_ok w); simpl; intuition discriminate. }
  destruct (finalMessage groupConfig meta message f st) as [full |];
    rewrite in_app_iff; intros [H | H]; try contradiction.
  - destruct H as [H | H].
    + assert (Ht : slice0 4500 full = text) by congruence.
      rewrite <- Ht. apply length_slice0.
    + destruct (sendGroupMsg_ok w); simpl in H; intuition discriminate.
  - simpl in H. intuition discriminate.
Qed.

(** C4, on the code: in the branch without mute the corrected text is cut
    to 2000 characters and the alert to 4500, but the message of the mute
    branch is sent as composed.  For the message "spam" followed by 5000
    times "a", which the rule turns into "***" and the 5000 "a", a
    threshold of 2 sends an alert of 2043 characters and a threshold of 1
    sends the whole text: 5053 characters, with a corrected text of 5003
    characters in it. *)
Theorem C4_mute_message_is_not_cut :
  map (fun text => N.of_nat (length text))
    (sent (middleware (policy_spam 2) (session_of [long_spam]) all_fulfilled initial))
  = [2043]
  /\ sent (middleware (policy_spam 1) (session_of [long_spam]) all_fulfilled initial)
     = [utf16 "[CQ:at,qq=42] 检测到违规内容！" ++ [10]
        ++ utf16 "修正内容：***" ++ repeat 97 5000 ++ [10]
        ++ utf16 "因累计违规 1/1 次，已被禁言 10分钟"]
  /\ map (fun text => N.of_nat (length text))
       (sent (middleware (policy_spam 1) (session_of [long_spam]) all_fulfilled initial))
     = [5053].
Proof.
  assert (Hsent :
    sent (middleware (policy_spam 1) (session_of [long_spam]) all_fulfilled initial)
    = [utf16 "[CQ:at,qq=42] 检测到违规内容！" ++ [10]
       ++ utf16 "修正内容：***" ++ repeat 97 5000 ++ [10]
       ++ utf16 "因累计违规 1/1 次，已被禁言 10分钟"])
    by (vm_compute; reflexivity).
  split; [vm_compute; reflexivity |]. split; [exact Hsent |].
  rewrite Hsent. vm_compute. reflexivity.
Qed.

(** ** Reading a pattern inside a longer source *)

Lemma parse_disjunction_S (dotAll : bool) (fuel : nat) (s : jstring) (g : nat) :
  parse_disjunction dotAll (S fuel) s g
  = '(r1, s1, g1) ← parse_alternative dotAll fuel s g;
    if next_is 124 s1 then
      '(r2, s2, g2) ← parse_disjunction dotAll fuel (drop 1 s1) g1;
      Some (Disj r1 r2, s2, g2)
    else Some (r1, s1, g1).
Proof. reflexivity. Qed.

Lemma parse_alternative_S (dotAll : bool) (fuel : nat) (s : jstring) (g : nat) :
  parse_alternative dotAll (S fuel) s g
  = match s with
    | [] => Some (Epsilon, s, g)
    | _ =>
      if next_is 124 s || next_is 41 s then Some (Epsilon, s, g)
      else
        '(r1, s1, g1) ← parse_term dotAll fuel s g;
        '(r2, s2, g2) ← parse_alternative dotAll fuel s1 g1;
        Some (Seq r1 r2, s2, g2)
    end.
Proof. reflexivity. Qed.

Lemma parse_term_S (dotAll : bool) (fuel : nat) (s : jstring) (g : nat) :
  parse_term dotAll (S fuel) s g
  = match s with
    | [] => None
    | ch :: s1 =>
      if ch =? 94 then no_quantifier AssertStart s1 g
      else if ch =? 36 then no_quantifier AssertEnd s1 g
      else if ch =? 40 then
        '(kind, s2) ← group_start s1;
        '(r, s3, g1) ← parse_disjunction dotAll fuel s2
                          (match kind with Capturing => g + 1 | _ => g end)%nat;
        s4 ← expect_close s3;
        match kind with
        | Capturing => parse_quantifier (Group g r) s4 g1
        | NonCapturing => parse_quantifier r s4 g1
        | Lookaround behind negative => no_quantifier (Look behind negative r) s4 g1
        end
      else if ch =? 46 then parse_quantifier (dot dotAll) s1 g
      else if ch =? 92 then
        match s1 with
        | [] => None
        | e :: s2 => r ← parse_escape e; parse_quantifier r s2 g
        end
      else if not_an_atom ch then None
      else parse_quantifier (CharSet [ch] false false) s1 g
    end.
Proof. reflexivity. Qed.

Lemma next_is_closing (ch : N) (s tl : jstring) :
  closing tl -> ch <> 41 -> next_is ch (s ++ tl) = next_is ch s.
Proof.
  intros Htl Hch. destruct s as [| a s]; [| reflexivity].
  destruct tl as [| b tl]; [reflexivity |]. simpl in *. subst b.
  apply N.eqb_neq. congruence.
Qed.

Lemma drop_1_closing (ch : N) (s tl : jstring) :
  next_is ch s = true -> drop 1 (s ++ tl) = drop 1 s ++ tl.
Proof. destruct s; [discriminate | reflexivity]. Qed.

Lemma parse_quantifier_closing (r : regex) (s tl : jstring) (g : nat)
    (r1 : regex) (s1 : jstring) (g1 : nat) :
  closing tl ->
  parse_quantifier r s g = Some (r1, s1, g1) ->
  parse_quantifier r (s ++ tl) g = Some (r1, s1 ++ tl, g1).
Proof.
  intros Htl. unfold parse_quantifier.
  rewrite !(next_is_closing _ s tl Htl) by discriminate.
  destruct (next_is 123 s); [discriminate |].
  destruct (next_is 42 s) eqn:H42;
    [rewrite (drop_1_closing 42) by exact H42;
     rewrite (next_is_closing _ (drop 1 s) tl Htl) by discriminate;
     destruct (next_is 63 (drop 1 s)) eqn:H63;
       [rewrite (drop_1_closing 63) by exact H63 |]; by intros [= <- <- <-] |].
  destruct (next_is 43 s) eqn:H43;
    [rewrite (drop_1_closing 43) by exact H43;
     rewrite (next_is_closing _ (drop 1 s) tl Htl) by discriminate;
     destruct (next_is 63 (drop 1 s)) eqn:H63;
       [rewrite (drop_1_closing 63) by exact H63 |]; by intros [= <- <- <-] |].
  destruct (next_is 63 s) eqn:H63a;
    [rewrite (drop_1_closing 63) by exact H63a;
     rewrite (next_is_closing _ (drop 1 s) tl Htl) by discriminate;
     destruct (next_is 63 (drop 1 s)) eqn:H63;
       [rewrite (drop_1_closing 63) by exact H63 |]; by intros [= <- <- <-] |].
  by intros [= <- <- <-].
Qed.

Lemma no_quantifier_closing (r : regex) (s tl : jstring) (g : nat)
    (r1 : regex) (s1 : jstring) (g1 : nat) :
  closing tl ->
  no_quantifier r s g = Some (r1, s1, g1) ->
  no_quantifier r (s ++ tl) g = Some (r1, s1 ++ tl, g1).
Proof.
  intros Htl. unfold no_quantifier.
  rewrite !(next_is_closing _ s tl Htl) by discriminate.
  destruct (_ || _); [discriminate | by intros [= <- <- <-]].
Qed.

Lemma expect_close_closing (s tl s1 : jstring) :
  expect_close s = Some s1 -> expect_close (s ++ tl) = Some (s1 ++ tl).
Proof.
  unfold expect_close. destruct s as [| ch s]; [discriminate |]. simpl.
  destruct (ch =? 41); [by intros [= <-] | discriminate].
Qed.

Lemma strip_prefix_app (pre s tl s1 : jstring) :
  strip_prefix pre s = Some s1 -> strip_prefix pre (s ++ tl) = Some (s1 ++ tl).
Proof.
  revert s. induction pre as [| a pre IH]; intros s; simpl; [by intros [= <-] |].
  destruct s as [| b s]; [discriminate |]. simpl.
  destruct (a =? b); [apply IH | discriminate].
Qed.

Lemma strip_prefix_closing (pre s tl : jstring) :
  closing tl -> ~ In 41 pre -> pre <> [] ->
  strip_prefix pre s = None -> strip_prefix pre (s ++ tl) = None.
Proof.
  intros Htl. revert s. induction pre as [| a pre IH]; intros s Hpre Hne; [done |].
  simpl. destruct s as [| b s]; simpl.
  - intros _. destruct tl as [| c tl]; [reflexivity |]. simpl in Htl. subst c.
    destruct (N.eqb_spec a 41) as [-> | _]; [| reflexivity].
    exfalso. apply Hpre. by left.
  - destruct (a =? b); [| reflexivity].
    destruct pre as [| a1 pre]; [discriminate |].
    apply IH; [| discriminate]. intros Hin. apply Hpre. by right.
Qed.

Lemma group_start_closing (s tl : jstring) (kind : group_kind) (s1 : jstring) :
  closing tl ->
  group_start s = Some (kind, s1) ->
  group_start (s ++ tl) = Some (kind, s1 ++ tl).
Proof.
  intros Htl. unfold group_start.
  rewrite (next_is_closing _ s tl Htl) by discriminate.
  destruct (next_is 63 s); [| by intros [= <- <-]].
  repeat match goal with
  | |- context [strip_prefix ?pre s] =>
    let Hstrip := fresh "Hstrip" in
    destruct (strip_prefix pre s) eqn:Hstrip;
    [rewrite (strip_prefix_app _ _ tl _ Hstrip); by intros [= <- <-]
    | rewrite (strip_prefix_closing pre s tl Htl);
      [clear Hstrip | simpl; intuition discriminate | discriminate | exact Hstrip]]
  end.
  intros H. discriminate H.
Qed.

(** A pattern that is read with some fuel is read the same way with more
    fuel, and when the end of the group it stands in follows. *)
Lemma parse_inside (dotAll : bool) (tl : jstring) :
  closing tl ->
  forall fuel,
    (forall s g r s1 g1 fuel',
       parse_disjunction dotAll fuel s g = Some (r, s1, g1) -> (fuel <= fuel')%nat ->
       parse_disjunction dotAll fuel' (s ++ tl) g = Some (r, s1 ++ tl, g1))
    /\ (forall s g r s1 g1 fuel',
          parse_alternative dotAll fuel s g = Some (r, s1, g1) -> (fuel <= fuel')%nat ->
          parse_alternative dotAll fuel' (s ++ tl) g = Some (r, s1 ++ tl, g1))
    /\ (forall s g r s1 g1 fuel',
          parse_term dotAll fuel s g = Some (r, s1, g1) -> (fuel <= fuel')%nat ->
          parse_term dotAll fuel' (s ++ tl) g = Some (r, s1 ++ tl, g1)).
Proof.
  intros Htl fuel. induction fuel as [| fuel (IHd & IHa & IHt)];
    [repeat split; intros; discriminate |].
  repeat split; intros s g r s1 g1 fuel' H Hle;
    (destruct fuel' as [| fuel']; [lia |]); assert (Hle' : (fuel <= fuel')%nat) by lia.
  - rewrite parse_disjunction_S in H |- *.
    destruct (parse_alternative dotAll fuel s g) as [[[r2 s2] g2] |] eqn:Ha;
      [| discriminate].
    rewrite (IHa _ _ _ _ _ fuel' Ha Hle'). cbn [mbind option_bind] in H |- *.
    rewrite (next_is_closing _ s2 tl Htl) by discriminate.
    destruct (next_is 124 s2) eqn:Hbar; [| by injection H as <- <- <-].
    rewrite (drop_1_closing 124) by exact Hbar.
    destruct (parse_disjunction dotAll fuel (drop 1 s2) g2) as [[[r3 s3] g3] |] eqn:Hd;
      [| discriminate].
    rewrite (IHd _ _ _ _ _ fuel' Hd Hle'). cbn [mbind option_bind] in H |- *.
    by injection H as <- <- <-.
  - rewrite parse_alternative_S in H |- *.
    destruct s as [| a s].
    + injection H as <- <- <-. cbn [app].
      destruct tl as [| b tl]; [reflexivity |]. simpl in Htl. subst b. reflexivity.
    + change ((a :: s) ++ tl) with (a :: s ++ tl).
      change (next_is 124 (a :: s ++ tl)) with (next_is 124 (a :: s)).
      change (next_is 41 (a :: s ++ tl)) with (next_is 41 (a :: s)).
      destruct (next_is 124 (a :: s) || next_is 41 (a :: s));
        [by injection H as <- <- <- |].
      destruct (parse_term dotAll fuel (a :: s) g) as [[[r2 s2] g2] |] eqn:Ht;
        [| discriminate].
      change (a :: s ++ tl) with ((a :: s) ++ tl).
      rewrite (IHt _ _ _ _ _ fuel' Ht Hle'). cbn [mbind option_bind] in H |- *.
      destruct (parse_alternative dotAll fuel s2 g2) as [[[r3 s3] g3] |] eqn:Ha;
        [| discriminate].
      rewrite (IHa _ _ _ _ _ fuel' Ha Hle'). cbn [mbind option_bind] in H |- *.
      by injection H as <- <- <-.
  - rewrite parse_term_S in H |- *.
    destruct s as [| ch s]; [discriminate |].
    change ((ch :: s) ++ tl) with (ch :: s ++ tl). cbv beta iota.
    destruct (ch =? 94); [by apply no_quantifier_closing |].
    destruct (ch =? 36); [by apply no_quantifier_closing |].
    destruct (ch =? 40).
    { destruct (group_start s) as [[kind s2] |] eqn:Hg; [| discriminate].
      rewrite (group_start_closing _ tl _ _ Htl Hg). cbn [mbind option_bind] in H |- *.
      destruct (parse_disjunction dotAll fuel s2 _) as [[[r3 s3] g3] |] eqn:Hd;
        [| discriminate].
      rewrite (IHd _ _ _ _ _ fuel' Hd Hle'). cbn [mbind option_bind] in H |- *.
      destruct (expect_close s3) as [s4 |] eqn:Hc; [| discriminate].
      rewrite (expect_close_closing _ tl _ Hc). cbn [mbind option_bind] in H |- *.
      destruct kind;
        [by apply parse_quantifier_closing | by apply parse_quantifier_closing
         | by apply no_quantifier_closing]. }
    destruct (ch =? 46); [by apply parse_quantifier_closing |].
    destruct (ch =? 92).
    { destruct s as [| e s2]; [discriminate |]. cbn [app].
      destruct (parse_escape e) as [r2 |]; [| discriminate].
      cbn [mbind option_bind] in H |- *. by apply parse_quantifier_closing. }
    destruct (not_an_atom ch); [discriminate |].
    by apply parse_quantifier_closing.
Qed.

Lemma parse_term_more_fuel (dotAll : bool) (fuel fuel' : nat) (s : jstring) (g : nat)
    (r : regex) (s1 : jstring) (g1 : nat) :
  parse_term dotAll fuel s g = Some (r, s1, g1) -> (fuel <= fuel')%nat ->
  parse_term dotAll fuel' s g = Some (r, s1, g1).
Proof.
  intros H Hle.
  destruct (parse_inside dotAll [] I fuel) as (_ & _ & Ht).
  specialize (Ht _ _ _ _ _ fuel' H Hle). by rewrite !app_nil_r in Ht.
Qed.

(** A pattern that is read to its end does not begin with a question mark. *)
Lemma read_to_the_end_no_mark (dotAll : bool) (fuel : nat) (s : jstring) (g : nat)
    (r : regex) (g1 : nat) :
  parse_disjunction dotAll fuel s g = Some (r, [], g1) -> next_is 63 s = false.
Proof.
  destruct s as [| ch s]; [reflexivity |].
  destruct (N.eqb_spec ch 63) as [-> | Hne]; [| intros _; by apply N.eqb_neq].
  destruct fuel as [| [| [| fuel]]]; try discriminate.
Qed.

(** The three terms of the source of line 140. *)
Lemma lookbehind_read (fuel : nat) (rest : jstring) (g : nat) :
  (40 <= fuel)%nat ->
  parse_term true fuel (lookbehind_source ++ 92 :: rest) g
  = Some (lookbehind, 92 :: rest, g).
Proof.
  intros Hle. apply (parse_term_more_fuel true 40); [| exact Hle].
  vm_compute. reflexivity.
Qed.

Lemma whitespace_read (fuel : nat) (rest : jstring) (g : nat) :
  parse_term true (S fuel) (92 :: 115 :: 42 :: 40 :: rest) g
  = Some (Quant 0 None true (CharSet class_space false false), 40 :: rest, g).
Proof. reflexivity. Qed.

Lemma group_read (fuel : nat) (body : jstring) (g0 g : nat) (r : regex) :
  next_is 63 body = false ->
  parse_disjunction true fuel body (g0 + 1) = Some (r, [41], g) ->
  parse_term true (S fuel) (40 :: body) g0 = Some (Group g0 r, [], g).
Proof.
  intros Hmark Hbody. rewrite parse_term_S.
  change (40 =? 94) with false. change (40 =? 36) with false.
  change (40 =? 40) with true. cbv iota.
  unfold group_start. rewrite Hmark. cbn [mbind option_bind].
  rewrite Hbody. reflexivity.
Qed.

Lemma alternative_read (dotAll : bool) (fuel : nat) (s : jstring) (g : nat)
    (r1 r2 : regex) (s1 s2 : jstring) (g1 g2 : nat) :
  next_is 124 s = false -> next_is 41 s = false ->
  parse_term dotAll fuel s g = Some (r1, s1, g1) ->
  parse_alternative dotAll fuel s1 g1 = Some (r2, s2, g2) ->
  parse_alternative dotAll (S fuel) s g = Some (Seq r1 r2, s2, g2).
Proof.
  intros Hbar Hclose Hterm Halt. rewrite parse_alternative_S.
  destruct s as [| ch s]; [destruct fuel; discriminate |].
  rewrite Hbar, Hclose, Hterm. cbn [orb mbind option_bind].
  by rewrite Halt.
Qed.

(** A pattern that reads as [r] when it is taken on its own, as the second
    group of a source, makes the pattern of its rule read as the
    lookbehind, the whitespace and [r] as group 1. *)
Lemma rule_source_read (pattern : jstring) (r : regex) (g : nat) :
  parse_disjunction true (4 * length pattern + 4) pattern 2 = Some (r, [], g) ->
  RegExp_new (rule_source pattern) true true
  = Some (mkRegExp (rule_regex r) true (g - 1)).
Proof.
  intros Halone.
  pose proof (read_to_the_end_no_mark _ _ _ _ _ _ Halone) as Hmark.
  set (n0 := (4 * length pattern + 4)%nat) in *.
  destruct (parse_inside true [41] eq_refl n0) as (Hd & _ & _).
  specialize (Hd _ _ _ _ _ (n0 + 95)%nat Halone ltac:(lia)).
  rewrite <- (next_is_closing 63 pattern [41] eq_refl) in Hmark by discriminate.
  cbn [app] in Hd.
  unfold RegExp_new, rule_source.
  change (utf16 "(?<!\$CQ:\w+.*?\$CQ)\s*(")
    with (lookbehind_source ++ [92; 115; 42; 40]).
  change (utf16 ")") with [41].
  rewrite <- !app_assoc. cbn [app].
  set (body := pattern ++ [41]) in *.
  match goal with
  | |- context [parse_disjunction true ?fuel _ 1%nat] =>
    replace fuel with (S (S (S (S (S (n0 + 95))))))
  end.
  2:{ rewrite length_app. cbn [length]. subst body. rewrite length_app.
      change (length lookbehind_source) with 20%nat. cbn [length]. subst n0. lia. }
  set (K := (n0 + 95)%nat) in *.
  assert (Halt : parse_alternative true (S (S (S (S K))))
                   (lookbehind_source ++ 92 :: 115 :: 42 :: 40 :: body) 1
                 = Some (rule_regex r, [], g)).
  { unfold rule_regex.
    eapply alternative_read; [reflexivity | reflexivity | |].
    { apply lookbehind_read. subst K. lia. }
    eapply alternative_read; [reflexivity | reflexivity | |].
    { apply whitespace_read. }
    eapply alternative_read; [reflexivity | reflexivity | |].
    { apply group_read; [exact Hmark | exact Hd]. }
    reflexivity. }
  rewrite parse_disjunction_S, Halt. reflexivity.
Qed.


(** ** The matcher hands over further along the input *)

Lemma moved_refl (forward : bool) (x : mstate) : moved forward x x.
Proof. exists []. destruct forward; split; reflexivity. Qed.

Lemma moved_trans (forward : bool) (x y z : mstate) :
  moved forward x y -> moved forward y z -> moved forward x z.
Proof.
  intros [m1 H1] [m2 H2]. exists (m1 ++ m2).
  destruct forward; destruct H1 as [H1a H1b], H2 as [H2a H2b]; split.
  - rewrite H1a, H2a. by rewrite app_assoc.
  - rewrite H2b, H1b, reverse_app. by rewrite app_assoc.
  - rewrite H1a, H2a. by rewrite app_assoc.
  - rewrite H2b, H1b, reverse_app. by rewrite app_assoc.
Qed.

Lemma moved_same_position (forward : bool) (x x1 y : mstate) :
  before x1 = before x -> after x1 = after x ->
  moved forward x1 y -> moved forward x y.
Proof.
  intros Hb Ha [mid H]. exists mid. rewrite Hb, Ha in H. exact H.
Qed.

Lemma moved_to_same_position (forward : bool) (x y y1 : mstate) :
  before y1 = before y -> after y1 = after y ->
  moved forward x y -> moved forward x y1.
Proof.
  intros Hb Ha [mid H]. exists mid. rewrite Hb, Ha. exact H.
Qed.

Lemma RepeatMatcher_hands_over (forward : bool)
    (m : mstate -> continuation -> option mstate) (gs : list nat) :
  hands_over forward m ->
  forall fuel min max greedy,
    hands_over forward (fun x c => RepeatMatcher fuel m gs min max greedy x c).
Proof.
  intros Hm fuel. induction fuel as [| fuel IH]; intros min max greedy x c z;
    [discriminate |].
  cbn [RepeatMatcher].
  assert (Hiter : forall d,
    (forall y, d y = if Nat.eqb min 0 && Nat.eqb (endIndex y) (endIndex x) then None
                     else RepeatMatcher fuel m gs (Nat.pred min) (Nat.pred <$> max)
                            greedy y c) ->
    m (reset_captures gs x) d = Some z ->
    exists w, moved forward x w /\ c w = Some z).
  { intros d Hd Hz. apply Hm in Hz as (y & Hxy & Hy). rewrite Hd in Hy.
    destruct (Nat.eqb min 0 && Nat.eqb (endIndex y) (endIndex x)); [discriminate |].
    apply IH in Hy as (w & Hyw & Hw). exists w. split; [| exact Hw].
    eapply moved_trans; [| exact Hyw].
    eapply moved_same_position; [| | exact Hxy]; reflexivity. }
  assert (Hstop : c x = Some z -> exists w, moved forward x w /\ c w = Some z).
  { intros Hz. exists x. split; [apply moved_refl | exact Hz]. }
  destruct max as [[| k] |]; [exact Hstop | |].
  - destruct (negb (Nat.eqb min 0)); [by apply Hiter |].
    destruct (negb greedy).
    + destruct (c x) eqn:Hcx; [intros [= ->]; by apply Hstop | by apply Hiter].
    + destruct (m (reset_captures gs x) _) eqn:Hmx;
        [intros [= ->]; eapply Hiter; [| exact Hmx]; reflexivity | exact Hstop].
  - destruct (negb (Nat.eqb min 0)); [by apply Hiter |].
    destruct (negb greedy).
    + destruct (c x) eqn:Hcx; [intros [= ->]; by apply Hstop | by apply Hiter].
    + destruct (m (reset_captures gs x) _) eqn:Hmx;
        [intros [= ->]; eapply Hiter; [| exact Hmx]; reflexivity | exact Hstop].
Qed.

Lemma matcher_hands_over (ignoreCase : bool) (r : regex) (forward : bool) :
  hands_over forward (matcher ignoreCase r forward).
Proof.
  revert forward. induction r as
    [| A complement invert | r1 IH1 r2 IH2 | r1 IH1 r2 IH2 | min max greedy r1 IH1
     | n r1 IH1 | behind negative r1 IH1 | |];
    intros forward x c z; cbn [matcher].
  - intros Hz. exists x. split; [apply moved_refl | exact Hz].
  - destruct forward.
    + destruct (after x) as [| ch rest] eqn:Haft; [discriminate |].
      destruct (in_CharSet ignoreCase A complement invert ch); [| discriminate].
      intros Hz. eexists. split; [| exact Hz].
      exists [ch]. cbn [after before]. rewrite Haft. split; reflexivity.
    + destruct (before x) as [| ch rest] eqn:Hbef; [discriminate |].
      destruct (in_CharSet ignoreCase A complement invert ch); [| discriminate].
      intros Hz. eexists. split; [| exact Hz].
      exists [ch]. cbn [after before]. rewrite Hbef. split; reflexivity.
  - destruct forward; intros Hz.
    + apply IH1 in Hz as (y & Hxy & Hz). apply IH2 in Hz as (w & Hyw & Hz).
      exists w. split; [eapply moved_trans; eassumption | exact Hz].
    + apply IH2 in Hz as (y & Hxy & Hz). apply IH1 in Hz as (w & Hyw & Hz).
      exists w. split; [eapply moved_trans; eassumption | exact Hz].
  - destruct (matcher ignoreCase r1 forward x c) eqn:H1.
    + intros [= ->]. by apply IH1.
    + apply IH2.
  - apply (RepeatMatcher_hands_over forward _ _ (IH1 forward)).
  - intros Hz. apply IH1 in Hz as (y & Hxy & Hz).
    eexists. split; [| exact Hz].
    eapply moved_to_same_position; [| | exact Hxy]; reflexivity.
  - destruct (matcher ignoreCase r1 (negb behind) x Some) as [y |];
      destruct negative; try discriminate; intros Hz.
    + eexists. split; [| exact Hz]. exists []. destruct forward; split; reflexivity.
    + exists x. split; [apply moved_refl | exact Hz].
  - destruct (before x); [| discriminate].
    intros Hz. exists x. split; [apply moved_refl | exact Hz].
  - destruct (after x); [| discriminate].
    intros Hz. exists x. split; [apply moved_refl | exact Hz].
Qed.

(** ** The fuel of a quantifier is never used up *)

Lemma moved_ahead (forward : bool) (x y : mstate) :
  moved forward x y ->
  (ahead forward y <= ahead forward x)%nat
  /\ (endIndex y <> endIndex x -> (ahead forward y < ahead forward x)%nat).
Proof.
  intros [mid H]. unfold ahead, endIndex.
  destruct forward; destruct H as [Ha Hb]; rewrite Ha, ?Hb;
    rewrite !length_app, ?length_reverse; destruct mid; simpl; lia.
Qed.

Lemma RepeatMatcher_local (forward : bool)
    (m : mstate -> continuation -> option mstate) (gs : list nat) :
  local forward m ->
  forall fuel min max greedy,
    local forward (fun x c => RepeatMatcher fuel m gs min max greedy x c).
Proof.
  intros Hm fuel. induction fuel as [| fuel IH]; intros min max greedy x c1 c2 Hc;
    [reflexivity |].
  cbn [RepeatMatcher].
  assert (Hx : c1 x = c2 x) by (apply Hc, moved_refl).
  assert (Hiter : forall min1 max1,
    m (reset_captures gs x) (fun y =>
      if Nat.eqb min 0 && Nat.eqb (endIndex y) (endIndex x) then None
      else RepeatMatcher fuel m gs min1 max1 greedy y c1)
    = m (reset_captures gs x) (fun y =>
      if Nat.eqb min 0 && Nat.eqb (endIndex y) (endIndex x) then None
      else RepeatMatcher fuel m gs min1 max1 greedy y c2)).
  { intros min1 max1. apply Hm. intros y Hy.
    destruct (Nat.eqb min 0 && Nat.eqb (endIndex y) (endIndex x)); [reflexivity |].
    apply IH. intros z Hz. apply Hc. eapply moved_trans; [| exact Hz].
    eapply moved_same_position; [| | exact Hy]; reflexivity. }
  destruct max as [[| k] |]; [exact Hx | |];
    rewrite Hiter, Hx; reflexivity.
Qed.

Lemma matcher_local (ignoreCase : bool) (r : regex) (forward : bool) :
  local forward (matcher ignoreCase r forward).
Proof.
  revert forward. induction r as
    [| A complement invert | r1 IH1 r2 IH2 | r1 IH1 r2 IH2 | min max greedy r1 IH1
     | n r1 IH1 | behind negative r1 IH1 | |];
    intros forward x c1 c2 Hc; cbn [matcher].
  - apply Hc, moved_refl.
  - destruct forward.
    + destruct (after x) as [| ch rest] eqn:Haft; [reflexivity |].
      destruct (in_CharSet ignoreCase A complement invert ch); [| reflexivity].
      apply Hc. exists [ch]. cbn [after before]. rewrite Haft. split; reflexivity.
    + destruct (before x) as [| ch rest] eqn:Hbef; [reflexivity |].
      destruct (in_CharSet ignoreCase A complement invert ch); [| reflexivity].
      apply Hc. exists [ch]. cbn [after before]. rewrite Hbef. split; reflexivity.
  - destruct forward.
    + apply IH1. intros y Hy. apply IH2. intros z Hz. apply Hc.
      eapply moved_trans; eassumption.
    + apply IH2. intros y Hy. apply IH1. intros z Hz. apply Hc.
      eapply moved_trans; eassumption.
  - rewrite (IH1 forward x c1 c2 Hc), (IH2 forward x c1 c2 Hc). reflexivity.
  - apply (RepeatMatcher_local forward _ _ (IH1 forward)). exact Hc.
  - apply IH1. intros y Hy. apply Hc.
    eapply moved_to_same_position; [| | exact Hy]; reflexivity.
  - destruct (matcher ignoreCase r1 (negb behind) x Some) as [y |];
      destruct negative; try reflexivity.
    + apply Hc. exists []. destruct forward; split; reflexivity.
    + apply Hc, moved_refl.
  - destruct (before x); [apply Hc, moved_refl | reflexivity].
  - destruct (after x); [apply Hc, moved_refl | reflexivity].
Qed.

(** With more fuel than the iterations that are required and the
    characters ahead, RepeatMatcher does not depend on the fuel. *)
Lemma RepeatMatcher_fuel (forward : bool)
    (m : mstate -> continuation -> option mstate) (gs : list nat) (greedy : bool)
    (c : continuation) :
  local forward m -> hands_over forward m ->
  forall fuel1 fuel2 min max x,
    (min + ahead forward x < fuel1)%nat ->
    (min + ahead forward x < fuel2)%nat ->
    RepeatMatcher fuel1 m gs min max greedy x c
    = RepeatMatcher fuel2 m gs min max greedy x c.
Proof.
  intros Hlocal Hover fuel1.
  induction fuel1 as [| fuel1 IH]; intros fuel2 min max x H1 H2; [lia |].
  destruct fuel2 as [| fuel2]; [lia |].
  cbn [RepeatMatcher].
  assert (Hiter :
    m (reset_captures gs x) (fun y =>
      if Nat.eqb min 0 && Nat.eqb (endIndex y) (endIndex x) then None
      else RepeatMatcher fuel1 m gs (Nat.pred min) (Nat.pred <$> max) greedy y c)
    = m (reset_captures gs x) (fun y =>
      if Nat.eqb min 0 && Nat.eqb (endIndex y) (endIndex x) then None
      else RepeatMatcher fuel2 m gs (Nat.pred min) (Nat.pred <$> max) greedy y c)).
  { apply Hlocal. intros y Hy.
    assert (Hxy : moved forward x y)
      by (eapply moved_same_position; [| | exact Hy]; reflexivity).
    apply moved_ahead in Hxy as [Hle Hlt].
    destruct (Nat.eqb_spec min 0) as [-> | Hmin]; cbn [andb].
    - destruct (Nat.eqb_spec (endIndex y) (endIndex x)) as [| Hne]; [reflexivity |].
      specialize (Hlt Hne). apply IH; simpl; lia.
    - apply IH; lia. }
  destruct max as [[| k] |]; [reflexivity | |]; by rewrite Hiter.
Qed.

(** The fuel a quantifier is given in [matcher] is enough: any larger
    amount yields the same result. *)
Lemma quantifier_fuel_is_enough (ignoreCase : bool) (min : nat) (max : option nat)
    (greedy : bool) (r : regex) (forward : bool) (x : mstate) (c : continuation)
    (fuel : nat) :
  (min + input_length x < fuel)%nat ->
  matcher ignoreCase (Quant min max greedy r) forward x c
  = RepeatMatcher fuel (fun y d => matcher ignoreCase r forward y d)
      (groups_of r) min max greedy x c.
Proof.
  intros Hfuel. cbn [matcher].
  assert (Hahead : (ahead forward x <= input_length x)%nat)
    by (unfold ahead, input_length; destruct forward; lia).
  apply (RepeatMatcher_fuel forward);
    [apply matcher_local | apply matcher_hands_over | lia | lia].
Qed.

(** ** Whitespace before a match *)

Lemma same_char_refl (ignoreCase : bool) (ch : N) : same_char ignoreCase ch ch = true.
Proof.
  unfold same_char. destruct ignoreCase; simpl; [| apply N.eqb_refl].
  destruct (ch <? 128); simpl; apply N.eqb_refl.
Qed.

Lemma in_CharSet_member (ignoreCase : bool) (A : list N) (ch : N) :
  In ch A -> in_CharSet ignoreCase A false false ch = true.
Proof.
  intros Hin. unfold in_CharSet, char_found. rewrite xorb_false_r.
  apply existsb_exists. exists ch. split; [exact Hin | apply same_char_refl].
Qed.

Lemma reset_captures_nil (x : mstate) : reset_captures [] x = x.
Proof.
  destruct x as [bef aft caps]. unfold reset_captures. simpl. f_equal.
  induction caps as [| p caps IH]; [reflexivity |].
  rewrite filter_cons_True; [by rewrite IH | done].
Qed.

Lemma RepeatMatcher_star_greedy (fuel : nat) (m : mstate -> continuation -> option mstate)
    (gs : list nat) (x : mstate) (c : continuation) :
  RepeatMatcher (S fuel) m gs 0 None true x c
  = match m (reset_captures gs x) (fun y =>
            if Nat.eqb (endIndex y) (endIndex x) then None
            else RepeatMatcher fuel m gs 0 None true y c) with
    | Some z => Some z
    | None => c x
    end.
Proof. reflexivity. Qed.

(** A greedy star over a class runs through the characters of the class
    and hands over where they end, when the rest can be matched there. *)
Lemma star_runs_through (ignoreCase : bool) (A : list N)
    (m : mstate -> continuation -> option mstate) (ws rest : jstring) :
  (forall y d, m y d = matcher ignoreCase (CharSet A false false) true y d) ->
  Forall (fun ch => in_CharSet ignoreCase A false false ch = true) ws ->
  match rest with
  | [] => True
  | ch :: _ => in_CharSet ignoreCase A false false ch = false
  end ->
  forall (fuel : nat) (bef : jstring) (caps : list (nat * jstring))
         (c : continuation) (z : mstate),
    (length ws < fuel)%nat ->
    c (MState (reverse ws ++ bef) rest caps) = Some z ->
    RepeatMatcher fuel m [] 0 None true (MState bef (ws ++ rest) caps) c = Some z.
Proof.
  intros Hm Hws Hrest. induction Hws as [| w ws Hw Hws IH];
    intros fuel bef caps c z Hfuel Hc.
  - destruct fuel as [| fuel]; [simpl in Hfuel; lia |].
    rewrite RepeatMatcher_star_greedy, reset_captures_nil, Hm.
    cbn [matcher after app].
    destruct rest as [| ch rest]; [exact Hc |].
    rewrite Hrest. exact Hc.
  - destruct fuel as [| fuel]; [simpl in Hfuel; lia |].
    rewrite RepeatMatcher_star_greedy, reset_captures_nil, Hm.
    cbn [matcher after before captures app]. rewrite Hw.
    unfold endIndex. cbn [before length].
    assert (Hne : Nat.eqb (S (length bef)) (length bef) = false)
      by (apply Nat.eqb_neq; lia).
    rewrite Hne.
    rewrite (IH fuel (w :: bef) caps c z); [reflexivity | simpl in Hfuel; lia |].
    rewrite reverse_cons, <- app_assoc in Hc. exact Hc.
Qed.

Lemma star_stops (ignoreCase : bool) (A : list N)
    (m : mstate -> continuation -> option mstate) (fuel : nat) (x : mstate)
    (c : continuation) :
  (forall y d, m y d = matcher ignoreCase (CharSet A false false) true y d) ->
  match after x with
  | [] => True
  | ch :: _ => in_CharSet ignoreCase A false false ch = false
  end ->
  RepeatMatcher (S fuel) m [] 0 None true x c = c x.
Proof.
  intros Hm Hrest.
  rewrite RepeatMatcher_star_greedy, reset_captures_nil, Hm.
  cbn [matcher]. destruct (after x) as [| ch rest]; [reflexivity |].
  by rewrite Hrest.
Qed.

(** The lookbehind lets every index pass that does not come right after a
    letter Q. *)
Lemma lookbehind_passes (x : mstate) (c : continuation) :
  not_after_Q (before x) -> matcher true lookbehind true x c = c x.
Proof.
  unfold not_after_Q. intros Hbef. unfold lookbehind, literal. simpl.
  destruct (before x) as [| ch bef]; [reflexivity |].
  by rewrite Hbef.
Qed.

(** The pattern of a rule at an index the lookbehind lets pass: the
    whitespace there is run through and group 1 is matched behind it. *)
Lemma rule_regex_after_whitespace (r : regex) (bef ws rest : jstring) (z : mstate) :
  not_after_Q bef ->
  Forall (fun ch => In ch class_space) ws ->
  not_space rest ->
  matcher true (Group 1 r) true (MState (reverse ws ++ bef) rest []) Some = Some z ->
  matcher true (rule_regex r) true (MState bef (ws ++ rest) []) Some = Some z.
Proof.
  intros Hbef Hws Hrest Hz. unfold rule_regex.
  cbn [matcher]. rewrite lookbehind_passes by exact Hbef.
  cbn [matcher].
  apply (star_runs_through true class_space).
  - reflexivity.
  - eapply Forall_impl; [exact Hws |]. intros ch. apply in_CharSet_member.
  - exact Hrest.
  - unfold input_length. simpl. rewrite length_app. lia.
  - exact Hz.
Qed.

Lemma rule_regex_no_match (r : regex) (bef aft : jstring) :
  not_after_Q bef ->
  not_space aft ->
  matcher true (Group 1 r) true (MState bef aft []) Some = None ->
  matcher true (rule_regex r) true (MState bef aft []) Some = None.
Proof.
  intros Hbef Haft Hnone. unfold rule_regex.
  cbn [matcher]. rewrite lookbehind_passes by exact Hbef.
  cbn [matcher].
  replace (0 + input_length (MState bef aft []) + 1)%nat
    with (S (input_length (MState bef aft []))) by lia.
  rewrite (star_stops true class_space); [exact Hnone | reflexivity | exact Haft].
Qed.

(** A star over a class hands over behind a run of characters of the
    class, with the captures as they were. *)
Lemma star_consumed (ignoreCase : bool) (A : list N)
    (m : mstate -> continuation -> option mstate) (greedy : bool) :
  (forall y d, m y d = matcher ignoreCase (CharSet A false false) true y d) ->
  forall (fuel : nat) (x : mstate) (c : continuation) (z : mstate),
    RepeatMatcher fuel m [] 0 None greedy x c = Some z ->
    exists ws w,
      Forall (fun ch => in_CharSet ignoreCase A false false ch = true) ws
      /\ after x = ws ++ after w
      /\ before w = reverse ws ++ before x
      /\ captures w = captures x
      /\ c w = Some z.
Proof.
  intros Hm fuel. induction fuel as [| fuel IH]; intros x c z; [discriminate |].
  cbn [RepeatMatcher negb Nat.eqb andb fmap option_fmap option_map Nat.pred].
  rewrite reset_captures_nil, Hm.
  assert (Hstop : c x = Some z ->
    exists ws w,
      Forall (fun ch => in_CharSet ignoreCase A false false ch = true) ws
      /\ after x = ws ++ after w /\ before w = reverse ws ++ before x
      /\ captures w = captures x /\ c w = Some z).
  { intros Hz. exists [], x. repeat split; [constructor | exact Hz]. }
  assert (Hiter :
    matcher ignoreCase (CharSet A false false) true x (fun y =>
      if Nat.eqb (endIndex y) (endIndex x) then None
      else RepeatMatcher fuel m [] 0 None greedy y c) = Some z ->
    exists ws w,
      Forall (fun ch => in_CharSet ignoreCase A false false ch = true) ws
      /\ after x = ws ++ after w /\ before w = reverse ws ++ before x
      /\ captures w = captures x /\ c w = Some z).
  { cbn [matcher]. destruct (after x) as [| ch rest] eqn:Haft; [discriminate |].
    destruct (in_CharSet ignoreCase A false false ch) eqn:Hch; [| discriminate].
    destruct (Nat.eqb _ _); [discriminate |].
    intros Hz. apply IH in Hz as (ws & w & Hws & Ha & Hb & Hc & Hz).
    cbn [after before captures] in Ha, Hb, Hc.
    exists (ch :: ws), w. split; [by constructor |].
    split; [by rewrite Ha |].
    split; [by rewrite Hb, reverse_cons, <- app_assoc |].
    split; [exact Hc | exact Hz]. }
  destruct greedy; cbn [negb].
  - destruct (matcher ignoreCase (CharSet A false false) true x _) eqn:Hmx;
      [intros [= ->]; by apply Hiter | exact Hstop].
  - destruct (c x) eqn:Hcx; [intros [= ->]; by apply Hstop | exact Hiter].
Qed.

Lemma negative_look_passed (ignoreCase : bool) (behind : bool) (r : regex)
    (forward : bool) (x : mstate) (c : continuation) (z : mstate) :
  matcher ignoreCase (Look behind true r) forward x c = Some z -> c x = Some z.
Proof.
  cbn [matcher]. destruct (matcher ignoreCase r (negb behind) x Some);
    [discriminate | auto].
Qed.

Lemma matcher_Seq_forward (ignoreCase : bool) (r1 r2 : regex) (x : mstate)
    (c : continuation) :
  matcher ignoreCase (Seq r1 r2) true x c
  = matcher ignoreCase r1 true x (fun y => matcher ignoreCase r2 true y c).
Proof. reflexivity. Qed.

Lemma matcher_Quant (ignoreCase : bool) (min : nat) (max : option nat)
    (greedy : bool) (r : regex) (forward : bool) (x : mstate) (c : continuation) :
  matcher ignoreCase (Quant min max greedy r) forward x c
  = RepeatMatcher (min + input_length x + 1)
      (fun y d => matcher ignoreCase r forward y d) (groups_of r) min max greedy x c.
Proof. reflexivity. Qed.

Lemma matcher_Group_forward (ignoreCase : bool) (n : nat) (r : regex) (x : mstate)
    (c : continuation) :
  matcher ignoreCase (Group n r) true x c
  = matcher ignoreCase r true x (fun y =>
      c (set_capture n (take (endIndex y - endIndex x) (after x)) y)).
Proof. reflexivity. Qed.

(** Every match of the pattern of a rule is a run of whitespace followed by
    the text that group 1, the blocking word, has matched. *)
Lemma rule_regex_match_shape (r : regex) (x y : mstate) :
  matcher true (rule_regex r) true x Some = Some y ->
  exists ws word,
    after x = ws ++ word ++ after y
    /\ before y = reverse word ++ reverse ws ++ before x
    /\ Forall (fun ch => in_CharSet true class_space false false ch = true) ws
    /\ capture 1 (captures y) = Some word.
Proof.
  unfold rule_regex. rewrite matcher_Seq_forward. intros Hy.
  unfold lookbehind in Hy. apply negative_look_passed in Hy.
  rewrite matcher_Seq_forward, matcher_Quant in Hy. cbn [groups_of] in Hy.
  apply (star_consumed true class_space) in Hy as (ws & w & Hws & Ha & Hb & _ & Hy);
    [| reflexivity].
  rewrite matcher_Seq_forward, matcher_Group_forward in Hy.
  apply matcher_hands_over in Hy as (y1 & [word [Ha1 Hb1]] & Hy).
  cbn [matcher] in Hy.
  injection Hy as <-. cbn [after before captures set_capture capture Nat.eqb].
  exists ws, word. split; [by rewrite Ha, Ha1 |].
  split; [by rewrite Hb1, Hb |].
  split; [exact Hws |].
  f_equal. unfold endIndex. rewrite Hb1, Ha1, length_app, length_reverse.
  replace (length word + length (before w) - length (before w))%nat
    with (length word) by lia.
  by rewrite take_app_length.
Qed.

(** What [exec_loop] finds is a match at the index it reports. *)
Lemma exec_loop_sound (re : RegExp) (aft bef : jstring) (p : nat) (y : mstate) :
  exec_loop re bef aft = Some (p, y) ->
  exists mid rest,
    aft = mid ++ rest
    /\ p = (length bef + length mid)%nat
    /\ match_here re (MState (reverse mid ++ bef) rest []) = Some y.
Proof.
  revert bef. induction aft as [| ch aft IH]; intros bef; simpl.
  - destruct (match_here re (MState bef [] [])) as [y1 |] eqn:Hm; [| discriminate].
    intros [= <- <-]. exists [], []. repeat split; [simpl; lia | exact Hm].
  - destruct (match_here re (MState bef (ch :: aft) [])) as [y1 |] eqn:Hm.
    + intros [= <- <-]. exists [], (ch :: aft). repeat split; [simpl; lia | exact Hm].
    + intros H. apply IH in H as (mid & rest & -> & -> & H).
      exists (ch :: mid), rest. repeat split; [simpl; lia |].
      by rewrite reverse_cons, <- app_assoc.
Qed.

Lemma match_here_moved (re : RegExp) (x y : mstate) :
  match_here re x = Some y -> moved true x y.
Proof.
  unfold match_here. intros H.
  apply matcher_hands_over in H as (w & Hw & [= ->]). exact Hw.
Qed.

(** A match found from [lastIndex] on starts there or later and ends
    inside the string, not before its start. *)
Lemma RegExpBuiltinExec_bounds (re : RegExp) (str : jstring) (lastIndex p : nat)
    (y : mstate) :
  RegExpBuiltinExec re str lastIndex = Some (p, y) ->
  (lastIndex <= p)%nat /\ (p <= endIndex y)%nat /\ (endIndex y <= length str)%nat.
Proof.
  unfold RegExpBuiltinExec.
  destruct (Nat.ltb_spec (length str) lastIndex) as [| Hle]; [discriminate |].
  intros H. apply exec_loop_sound in H as (mid & rest & Hdrop & -> & Hm).
  apply match_here_moved in Hm as [word [Ha Hb]]. cbn [after before] in Ha, Hb.
  assert (Hlen : length str = (lastIndex + length (drop lastIndex str))%nat)
    by (rewrite length_drop; lia).
  rewrite Hdrop, Ha, !length_app in Hlen.
  unfold endIndex. rewrite Hb, !length_app, !length_reverse, length_take. lia.
Qed.

(** The fuel of [collect_matches] is never used up either. *)
Lemma collect_matches_fuel (re : RegExp) (str : jstring) (fuel1 fuel2 lastIndex : nat) :
  (length str + 1 - lastIndex < fuel1)%nat ->
  (length str + 1 - lastIndex < fuel2)%nat ->
  collect_matches fuel1 re str lastIndex = collect_matches fuel2 re str lastIndex.
Proof.
  revert fuel2 lastIndex. induction fuel1 as [| fuel1 IH]; intros fuel2 lastIndex H1 H2;
    [lia |].
  destruct fuel2 as [| fuel2]; [lia |].
  cbn [collect_matches].
  destruct (RegExpBuiltinExec re str lastIndex) as [[p y] |] eqn:Hexec; [| reflexivity].
  apply RegExpBuiltinExec_bounds in Hexec as (Hp & Hy & Hlen).
  f_equal. destruct (Nat.eqb_spec (endIndex y) p); apply IH; lia.
Qed.

(** Every match that a global [replace] with the pattern of a rule
    collects, and so replaces, is a run of whitespace followed by the text
    matched by the blocking word. *)
Lemma replaced_spans (r : regex) (n : nat) (str : jstring) (fuel lastIndex : nat)
    (p : nat) (y : mstate) :
  In (p, y) (collect_matches fuel (mkRegExp (rule_regex r) true n) str lastIndex) ->
  exists ws word,
    substring p (endIndex y) str = ws ++ word
    /\ Forall (fun ch => in_CharSet true class_space false false ch = true) ws
    /\ capture 1 (captures y) = Some word.
Proof.
  revert lastIndex. induction fuel as [| fuel IH]; intros lastIndex; [contradiction |].
  cbn [collect_matches].
  destruct (RegExpBuiltinExec _ str lastIndex) as [[p1 y1] |] eqn:Hexec;
    [| contradiction].
  intros [[= -> ->] | Hin]; [| by apply IH in Hin].
  unfold RegExpBuiltinExec in Hexec.
  destruct (Nat.ltb_spec (length str) lastIndex) as [| Hle]; [discriminate |].
  apply exec_loop_sound in Hexec as (mid & rest & Hdrop & -> & Hm).
  unfold match_here in Hm. cbn [pattern_of ignoreCase] in Hm.
  apply rule_regex_match_shape in Hm as (ws & word & Ha & Hb & Hws & Hcap).
  cbn [after before] in Ha, Hb.
  exists ws, word. split; [| split; [exact Hws | exact Hcap]].
  unfold substring, endIndex. rewrite Hb, !length_app, !length_reverse, length_take.
  replace (length word + (length ws + (length mid + lastIndex `min` length str))
           - (lastIndex `min` length str + length mid))%nat
    with (length (ws ++ word)) by (rewrite length_app; lia).
  assert (Hstr : drop (lastIndex `min` length str + length mid) str
                 = (ws ++ word) ++ after y).
  { replace (lastIndex `min` length str)%nat with lastIndex by lia.
    rewrite <- drop_drop, Hdrop, drop_app_length, Ha.
    by rewrite app_assoc. }
  by rewrite Hstr, take_app_length.
Qed.

Lemma bar_matched_here (bef rest : jstring) :
  matcher true (Group 1 (literal (utf16 "bar"))) true
    (MState bef (utf16 "bar" ++ rest) []) Some
  = Some (MState (reverse (utf16 "bar") ++ bef) rest [(1%nat, utf16 "bar")]).
Proof.
  change (utf16 "bar") with [98; 97; 114]. cbn.
  replace (S (S (S (length bef))) - length bef)%nat with 3%nat by lia.
  reflexivity.
Qed.

Lemma exec_loop_skip (re : RegExp) (bef aft : jstring) (ch : N) :
  match_here re (MState bef (ch :: aft) []) = None ->
  exec_loop re bef (ch :: aft) = exec_loop re (ch :: bef) aft.
Proof. intros H. simpl. by rewrite H. Qed.

Lemma exec_loop_found (re : RegExp) (bef aft : jstring) (y : mstate) :
  match_here re (MState bef aft []) = Some y ->
  exec_loop re bef aft = Some (length bef, y).
Proof. intros H. destruct aft; simpl; by rewrite H. Qed.

Lemma exec_loop_end (re : RegExp) (bef : jstring) :
  match_here re (MState bef [] []) = None -> exec_loop re bef [] = None.
Proof. intros H. simpl. by rewrite H. Qed.

Lemma bar_not_here (bef aft : jstring) :
  match aft with
  | [] => True
  | ch :: _ => in_CharSet true [98] false false ch = false
  end ->
  matcher true (Group 1 (literal (utf16 "bar"))) true (MState bef aft []) Some = None.
Proof.
  intros H. change (utf16 "bar") with [98; 97; 114]. cbn.
  destruct aft as [| ch aft]; [reflexivity |]. by rewrite H.
Qed.

Lemma exec_foo_ws_bar (ws : jstring) :
  Forall (fun ch => In ch class_space) ws ->
  exec_loop regex_bar [] (utf16 "foo" ++ ws ++ utf16 "bar")
  = Some (3%nat, MState (reverse (utf16 "foo" ++ ws ++ utf16 "bar")) []
                   [(1%nat, utf16 "bar")]).
Proof.
  intros Hws. change (utf16 "foo") with [102; 111; 111]. cbn [app].
  rewrite exec_loop_skip
    by (apply rule_regex_no_match; [exact I | reflexivity | by apply bar_not_here]).
  rewrite exec_loop_skip
    by (apply rule_regex_no_match; [reflexivity | reflexivity | by apply bar_not_here]).
  rewrite exec_loop_skip
    by (apply rule_regex_no_match; [reflexivity | reflexivity | by apply bar_not_here]).
  erewrite exec_loop_found; [reflexivity |].
  unfold match_here, regex_bar. cbn [pattern_of ignoreCase].
  rewrite <- (app_nil_r (utf16 "bar")) at 2.
  apply rule_regex_after_whitespace; [reflexivity | exact Hws | reflexivity |].
  rewrite bar_matched_here. do 2 f_equal.
  change (102 :: 111 :: 111 :: ws ++ utf16 "bar")
    with ([102; 111; 111] ++ ws ++ utf16 "bar").
  rewrite !reverse_app. rewrite <- !app_assoc. reflexivity.
Qed.

Lemma RegExpBuiltinExec_start (re : RegExp) (str : jstring) :
  RegExpBuiltinExec re str 0 = exec_loop re [] str.
Proof. reflexivity. Qed.

Lemma RegExpBuiltinExec_end (re : RegExp) (str : jstring) :
  RegExpBuiltinExec re str (length str) = exec_loop re (reverse str) [].
Proof.
  unfold RegExpBuiltinExec. rewrite Nat.ltb_irrefl.
  by rewrite take_ge, drop_all by lia.
Qed.

(** [replace] when the only match starts at [p] and takes the rest of the
    string. *)
Lemma String_replace_to_the_end (re : RegExp) (str replaceValue : jstring)
    (p : nat) (y : mstate) :
  exec_loop re [] str = Some (p, y) ->
  endIndex y = length str ->
  (p < length str)%nat ->
  exec_loop re (reverse str) [] = None ->
  String_replace str re replaceValue
  = take p str
    ++ GetSubstitution (drop p str) str p (captures_array re y) replaceValue.
Proof.
  intros Hfirst Hend Hp Hlast. unfold String_replace.
  replace (length str + 2)%nat with (S (S (length str))) by lia.
  cbn [collect_matches]. rewrite RegExpBuiltinExec_start, Hfirst, Hend.
  assert (Hne : Nat.eqb (length str) p = false) by (apply Nat.eqb_neq; lia).
  rewrite Hne, RegExpBuiltinExec_end, Hlast.
  cbn [build_replaced]. rewrite Hend.
  unfold substring. rewrite Nat.sub_0_r. cbn [Nat.leb drop].
  assert (Hmatched : take (length str - p) (drop p str) = drop p str)
    by (apply take_ge; rewrite length_drop; lia).
  rewrite Hmatched, length_drop.
  replace (p + (length str - p))%nat with (length str) by lia.
  by rewrite drop_all, app_nil_r.
Qed.

Lemma replace_foo_ws_bar (ws : jstring) :
  Forall (fun ch => In ch class_space) ws ->
  RegExp_test regex_bar (utf16 "foo" ++ ws ++ utf16 "bar") = true
  /\ String_replace (utf16 "foo" ++ ws ++ utf16 "bar") regex_bar [] = utf16 "foo".
Proof.
  intros Hws. pose proof (exec_foo_ws_bar ws Hws) as Hexec. split.
  - unfold RegExp_test. rewrite RegExpBuiltinExec_start, Hexec.
    apply bool_decide_eq_true_2. eauto.
  - erewrite String_replace_to_the_end; [| exact Hexec | | |].
    + by rewrite app_nil_r.
    + unfold endIndex. cbn [before]. apply length_reverse.
    + rewrite !length_app. change (length (utf16 "foo")) with 3%nat.
      change (length (utf16 "bar")) with 3%nat. lia.
    + apply exec_loop_end. apply rule_regex_no_match.
      * rewrite !reverse_app. reflexivity.
      * exact I.
      * by apply bar_not_here.
Qed.

Lemma regex_bar_built :
  RegExp_new (rule_source (utf16 "bar")) true true = Some regex_bar.
Proof. vm_compute. reflexivity. Qed.

(** On "foo", any run of whitespace and "bar", the rule "bar" with no
    replacement set leaves "foo". *)
Lemma rule_bar_removes_whitespace (ws : jstring) :
  Forall (fun ch => In ch class_space) ws ->
  filter_message rules_bar (utf16 "foo" ++ ws ++ utf16 "bar")
  = Some (mkFiltered (utf16 "foo") false 0 false true).
Proof.
  intros Hws.
  destruct (replace_foo_ws_bar ws Hws) as [Htest Hreplace].
  unfold filter_message.
  change (Object_entries rules_bar) with [(utf16 "bar", rule false false false "")].
  cbn [apply_rules]. unfold apply_rule, rule.
  cbn [BlockingWords.enable BlockingWords.replace BlockingWords.recall
       BlockingWords.triggerMute negb modifiedMessage].
  rewrite regex_bar_built. cbn [mbind option_bind].
  rewrite Htest, Hreplace. reflexivity.
Qed.

(** *** A match takes the whitespace before it, where the lookbehind lets it *)

Lemma moved_endIndex (x y : mstate) : moved true x y -> (endIndex x <= endIndex y)%nat.
Proof. intros [mid [_ Hb]]. unfold endIndex. rewrite Hb, length_app. lia. Qed.

(** A negative lookaround that lets an index pass hands over there,
    whatever follows. *)
Lemma negative_look_lets_pass (ignoreCase : bool) (behind : bool) (r : regex)
    (forward : bool) (x : mstate) (c : continuation) :
  matcher ignoreCase (Look behind true r) forward x Some <> None ->
  matcher ignoreCase (Look behind true r) forward x c = c x.
Proof.
  cbn [matcher]. destruct (matcher ignoreCase r (negb behind) x Some);
    [congruence | reflexivity].
Qed.

(** A greedy star over a class finds a match whenever the rest can be
    matched behind some run of characters of the class, and when that run
    is not empty the match it finds ends further along. *)
Lemma star_takes_the_run (ignoreCase : bool) (A : list N)
    (m : mstate -> continuation -> option mstate) (c : continuation) (ws : jstring) :
  (forall y d, m y d = matcher ignoreCase (CharSet A false false) true y d) ->
  (forall w z, c w = Some z -> (endIndex w <= endIndex z)%nat) ->
  Forall (fun ch => in_CharSet ignoreCase A false false ch = true) ws ->
  forall (fuel : nat) (bef rest : jstring) (caps : list (nat * jstring)) (z : mstate),
    (length ws < fuel)%nat ->
    c (MState (reverse ws ++ bef) rest caps) = Some z ->
    exists z1,
      RepeatMatcher fuel m [] 0 None true (MState bef (ws ++ rest) caps) c = Some z1
      /\ (ws <> [] -> (length bef < endIndex z1)%nat).
Proof.
  intros Hm Hc Hws. induction Hws as [| w ws Hw Hws IH];
    intros fuel bef rest caps z Hfuel Hz.
  - destruct fuel as [| fuel]; [simpl in Hfuel; lia |].
    rewrite RepeatMatcher_star_greedy. simpl in Hz |- *.
    destruct (m _ _) as [z1 |]; [by exists z1 | by exists z].
  - destruct fuel as [| fuel]; [simpl in Hfuel; lia |].
    rewrite RepeatMatcher_star_greedy, reset_captures_nil, Hm.
    cbn [matcher after before captures app]. rewrite Hw.
    unfold endIndex at 1 2. cbn [before length].
    assert (Hne : Nat.eqb (S (length bef)) (length bef) = false)
      by (apply Nat.eqb_neq; lia).
    rewrite Hne.
    destruct (IH fuel (w :: bef) rest caps z) as (z1 & Hz1 & _);
      [simpl in Hfuel; lia | by rewrite reverse_cons, <- app_assoc in Hz |].
    rewrite Hz1. exists z1. split; [reflexivity |]. intros _.
    assert (Hover : hands_over true
              (fun x c => RepeatMatcher fuel m [] 0 None true x c)).
    { apply RepeatMatcher_hands_over. intros x c1 z2. rewrite Hm.
      apply matcher_hands_over. }
    apply Hover in Hz1 as (w1 & Hmoved & Hw1).
    apply moved_endIndex in Hmoved. apply Hc in Hw1.
    unfold endIndex in Hmoved at 1. cbn [before length] in Hmoved. lia.
Qed.

(** Where the pattern of a rule matches right behind a whitespace
    character, it also matches at that character, taking it in, when the
    lookbehind lets its index pass. *)
Lemma whitespace_joins_the_match (r : regex) (n : nat) (bef aft : jstring) (ch : N)
    (y : mstate) :
  In ch class_space ->
  matcher true lookbehind true (MState bef (ch :: aft) []) Some <> None ->
  match_here (mkRegExp (rule_regex r) true n) (MState (ch :: bef) aft []) = Some y ->
  exists z,
    match_here (mkRegExp (rule_regex r) true n) (MState bef (ch :: aft) []) = Some z
    /\ (length bef < endIndex z)%nat.
Proof.
  intros Hch Hpass Hy. unfold match_here in *. cbn [pattern_of ignoreCase] in *.
  unfold rule_regex in *. rewrite matcher_Seq_forward in Hy |- *.
  unfold lookbehind in Hy. apply negative_look_passed in Hy.
  unfold lookbehind in Hpass |- *. rewrite (negative_look_lets_pass _ _ _ _ _ _ Hpass).
  rewrite matcher_Seq_forward, matcher_Quant in Hy |- *. cbn [groups_of] in Hy |- *.
  apply (star_consumed true class_space) in Hy as (ws & w & Hws & Ha & Hb & Hc & Hy);
    [| reflexivity].
  destruct w as [wbef waft wcaps]. cbn [after before captures] in Ha, Hb, Hc.
  subst aft wbef wcaps.
  destruct (star_takes_the_run true class_space
              (fun y d => matcher true (CharSet class_space false false) true y d)
              (fun y => matcher true (Seq (Group 1 r) Epsilon) true y Some)
              (ch :: ws)) with (fuel := (0 + input_length (MState bef (ch :: ws ++ waft) []) + 1)%nat)
              (bef := bef) (rest := waft) (caps := @nil (nat * jstring)) (z := y)
    as (z1 & Hz1 & Hlen).
  - reflexivity.
  - intros w z Hz. apply matcher_hands_over in Hz as (w1 & Hmoved & [= ->]).
    by apply moved_endIndex.
  - constructor; [by apply in_CharSet_member | exact Hws].
  - unfold input_length. cbn [before after length]. rewrite length_app. lia.
  - by rewrite reverse_cons, <- app_assoc.
  - exists z1. split; [exact Hz1 | by apply Hlen].
Qed.

(** What [exec_loop] finds is the first match: the pattern matches at no
    index before it. *)
Lemma exec_loop_first (re : RegExp) (aft bef : jstring) (p : nat) (y : mstate) :
  exec_loop re bef aft = Some (p, y) ->
  exists mid rest,
    aft = mid ++ rest
    /\ p = (length bef + length mid)%nat
    /\ match_here re (MState (reverse mid ++ bef) rest []) = Some y
    /\ forall mid1 ch mid2,
         mid = mid1 ++ ch :: mid2 ->
         match_here re (MState (reverse mid1 ++ bef) (ch :: mid2 ++ rest) []) = None.
Proof.
  revert bef. induction aft as [| ch aft IH]; intros bef; simpl.
  - destruct (match_here re (MState bef [] [])) as [y1 |] eqn:Hm; [| discriminate].
    intros [= <- <-]. exists [], []. repeat split; [simpl; lia | exact Hm |].
    intros mid1 c mid2 H. by destruct mid1.
  - destruct (match_here re (MState bef (ch :: aft) [])) as [y1 |] eqn:Hm.
    + intros [= <- <-]. exists [], (ch :: aft).
      repeat split; [simpl; lia | exact Hm |].
      intros mid1 c mid2 H. by destruct mid1.
    + intros H. apply IH in H as (mid & rest & -> & -> & H & Hfirst).
      exists (ch :: mid), rest. repeat split; [simpl; lia | |].
      * by rewrite reverse_cons, <- app_assoc.
      * intros mid1 c mid2 Hmid. destruct mid1 as [| c1 mid1].
        -- simpl in Hmid. injection Hmid as <- <-. exact Hm.
        -- simpl in Hmid. injection Hmid as <- ->.
           rewrite reverse_cons, <- app_assoc. by apply Hfirst.
Qed.

Lemma state_at_next (str : jstring) (i : nat) (ch : N) :
  str !! i = Some ch ->
  state_at str i = MState (reverse (take i str)) (ch :: drop (S i) str) []
  /\ state_at str (S i) = MState (ch :: reverse (take i str)) (drop (S i) str) [].
Proof.
  intros Hch. unfold state_at. split.
  - by rewrite (drop_S _ _ _ Hch).
  - by rewrite (take_S_r _ _ _ Hch), reverse_snoc.
Qed.

(** [RegExpBuiltinExec] finds the match at the first index, from
    [lastIndex] on, at which the pattern matches. *)
Lemma RegExpBuiltinExec_first (re : RegExp) (str : jstring) (lastIndex p : nat)
    (y : mstate) :
  RegExpBuiltinExec re str lastIndex = Some (p, y) ->
  (lastIndex <= p)%nat /\ (p <= length str)%nat
  /\ match_here re (state_at str p) = Some y
  /\ forall i, (lastIndex <= i < p)%nat -> match_here re (state_at str i) = None.
Proof.
  unfold RegExpBuiltinExec.
  destruct (Nat.ltb_spec (length str) lastIndex) as [| Hle]; [discriminate |].
  intros H. apply exec_loop_first in H as (mid & rest & Hdrop & -> & Hm & Hfirst).
  rewrite length_reverse, length_take, Nat.min_l by exact Hle.
  assert (Hstr : str = take lastIndex str ++ mid ++ rest)
    by (by rewrite <- Hdrop, take_drop).
  assert (Hlen : length (take lastIndex str) = lastIndex)
    by (rewrite length_take; lia).
  assert (Hat : forall mid1 rest1,
            mid ++ rest = mid1 ++ rest1 ->
            state_at str (lastIndex + length mid1)
            = MState (reverse mid1 ++ reverse (take lastIndex str)) rest1 []).
  { intros mid1 rest1 Heq. unfold state_at. rewrite Hstr at 1 2. rewrite Heq.
    rewrite app_assoc.
    replace (lastIndex + length mid1)%nat with (length (take lastIndex str ++ mid1))
      by (rewrite length_app; lia).
    by rewrite take_app_length, drop_app_length, reverse_app. }
  split; [lia |]. split.
  { rewrite Hstr, !length_app. lia. }
  split; [by rewrite (Hat mid rest) |].
  intros i Hi.
  assert (Hsplit : exists mid1 ch mid2,
            mid = mid1 ++ ch :: mid2 /\ i = (lastIndex + length mid1)%nat).
  { assert (Hlt : (i - lastIndex < length mid)%nat) by lia.
    apply lookup_lt_is_Some in Hlt as [ch Hch].
    exists (take (i - lastIndex) mid), ch, (drop (S (i - lastIndex)) mid). split.
    - by rewrite <- (drop_S _ _ _ Hch), take_drop.
    - rewrite length_take. apply lookup_lt_Some in Hch. lia. }
  destruct Hsplit as (mid1 & ch & mid2 & Hmid & ->).
  rewrite (Hat mid1 (ch :: mid2 ++ rest)) by (by rewrite Hmid, <- app_assoc).
  by apply Hfirst.
Qed.

Lemma negative_look_here (ignoreCase : bool) (behind : bool) (r : regex)
    (forward : bool) (x : mstate) (c : continuation) (z : mstate) :
  matcher ignoreCase (Look behind true r) forward x c = Some z ->
  matcher ignoreCase (Look behind true r) forward x Some = Some x.
Proof.
  cbn [matcher]. destruct (matcher ignoreCase r (negb behind) x Some);
    [discriminate | reflexivity].
Qed.

(** A match of the pattern of a rule passed the lookbehind at its start. *)
Lemma match_passed_the_lookbehind (r : regex) (n : nat) (x y : mstate) :
  match_here (mkRegExp (rule_regex r) true n) x = Some y ->
  matcher true lookbehind true x Some <> None.
Proof.
  unfold match_here, rule_regex, lookbehind. cbn [pattern_of ignoreCase].
  rewrite matcher_Seq_forward. intros Hy. erewrite negative_look_here; [discriminate |].
  exact Hy.
Qed.

(** The match found from [lastIndex] on does not start right behind a
    whitespace character it could have taken in: where it does, the
    lookbehind rejects the index of that character. *)
Lemma exec_takes_the_whitespace (r : regex) (n : nat) (str : jstring)
    (lastIndex p : nat) (y : mstate) (ch : N) :
  RegExpBuiltinExec (mkRegExp (rule_regex r) true n) str lastIndex = Some (S p, y) ->
  (lastIndex <= p)%nat ->
  str !! p = Some ch ->
  In ch class_space ->
  matcher true lookbehind true (state_at str p) Some = None.
Proof.
  intros Hexec Hp Hch Hspace.
  apply RegExpBuiltinExec_first in Hexec as (_ & _ & Hm & Hfirst).
  destruct (state_at_next str p ch Hch) as [Hhere Hnext].
  rewrite Hnext in Hm. rewrite Hhere.
  destruct (matcher true lookbehind true _ Some) as [z |] eqn:Hlook; [| reflexivity].
  exfalso.
  destruct (whitespace_joins_the_match r n (reverse (take p str)) (drop (S p) str)
              ch y Hspace) as (z1 & Hz1 & _);
    [by rewrite Hlook | exact Hm |].
  rewrite <- Hhere, Hfirst in Hz1 by lia. discriminate.
Qed.

Lemma collect_matches_from (re : RegExp) (str : jstring) (fuel lastIndex p : nat)
    (y : mstate) :
  In (p, y) (collect_matches fuel re str lastIndex) ->
  exists lastIndex1,
    (lastIndex <= lastIndex1)%nat
    /\ RegExpBuiltinExec re str lastIndex1 = Some (p, y).
Proof.
  revert lastIndex. induction fuel as [| fuel IH]; intros lastIndex; [contradiction |].
  cbn [collect_matches].
  destruct (RegExpBuiltinExec re str lastIndex) as [[p1 y1] |] eqn:Hexec;
    [| contradiction].
  intros [[= -> ->] | Hin]; [by exists lastIndex |].
  apply RegExpBuiltinExec_bounds in Hexec as (H1 & H2 & _).
  apply IH in Hin as (lastIndex1 & Hle & Hexec1). exists lastIndex1.
  split; [| exact Hexec1].
  destruct (Nat.eqb (endIndex y1) p1); lia.
Qed.

(** Of the matches a global [replace] with the pattern of a rule collects,
    none starts right behind a whitespace character that is left in the
    text, unless the lookbehind rejects the index of that character: the
    character is inside an earlier match, or the lookbehind rejects. *)
Lemma replace_takes_the_whitespace (r : regex) (n : nat) (str : jstring)
    (fuel lastIndex p : nat) (y : mstate) (ch : N) :
  In (S p, y) (collect_matches fuel (mkRegExp (rule_regex r) true n) str lastIndex) ->
  (lastIndex <= p)%nat ->
  str !! p = Some ch ->
  In ch class_space ->
  matcher true lookbehind true (state_at str p) Some = None
  \/ exists p1 y1,
       In (p1, y1) (collect_matches fuel (mkRegExp (rule_regex r) true n) str lastIndex)
       /\ (p1 <= p < endIndex y1)%nat.
Proof.
  revert lastIndex. induction fuel as [| fuel IH]; intros lastIndex; [contradiction |].
  cbn [collect_matches].
  destruct (RegExpBuiltinExec _ str lastIndex) as [[p1 y1] |] eqn:Hexec;
    [| contradiction].
  intros [[= -> ->] | Hin] Hp Hch Hspace.
  { left. eapply exec_takes_the_whitespace; eassumption. }
  pose proof (RegExpBuiltinExec_bounds _ _ _ _ _ Hexec) as (Hb1 & Hb2 & Hb3).
  pose proof (collect_matches_from _ _ _ _ _ _ Hin) as (lastIndex1 & Hle & Hexec1).
  pose proof (RegExpBuiltinExec_first _ _ _ _ _ Hexec1) as (Hle1 & _ & Hm1 & _).
  destruct (Nat.eqb_spec (endIndex y1) p1) as [Hempty | Hne].
  - destruct (Nat.le_gt_cases (p1 + 1) p) as [Hfar | Hnear].
    + destruct (IH (endIndex y1 + 1)%nat Hin) as [Hlook | (p2 & y2 & Hin2 & Hp2)];
        [lia | exact Hch | exact Hspace | by left |].
      right. exists p2, y2. split; [by right | exact Hp2].
    + exfalso. assert (p = p1) as -> by lia.
      pose proof (RegExpBuiltinExec_first _ _ _ _ _ Hexec) as (_ & _ & Hm & _).
      destruct (state_at_next str p1 ch Hch) as [Hhere Hnext].
      rewrite Hnext in Hm1. rewrite Hhere in Hm.
      destruct (whitespace_joins_the_match r n (reverse (take p1 str))
                  (drop (S p1) str) ch y Hspace) as (z & Hz & Hlen);
        [exact (match_passed_the_lookbehind r n _ _ Hm) | exact Hm1 |].
      rewrite Hm in Hz. injection Hz as <-.
      rewrite length_reverse, length_take in Hlen.
      apply lookup_lt_Some in Hch. lia.
  - destruct (Nat.le_gt_cases (endIndex y1) p) as [Hfar | Hnear].
    + destruct (IH (endIndex y1) Hin) as [Hlook | (p2 & y2 & Hin2 & Hp2)];
        [lia | exact Hch | exact Hspace | by left |].
      right. exists p2, y2. split; [by right | exact Hp2].
    + right. exists p1, y1. split; [by left | lia].
Qed.

(** *** Where the lookbehind rejects *)

Lemma in_CharSet_ascii (a ch : N) :
  a < 128 ->
  in_CharSet true [a] false false ch = true ->
  ch < 128 /\ ascii_upper ch = ascii_upper a.
Proof.
  intros Ha. unfold in_CharSet, char_found, same_char. simpl.
  rewrite xorb_false_r, orb_false_r.
  apply N.ltb_lt in Ha. rewrite Ha. simpl.
  destruct (N.ltb_spec ch 128) as [Hch | Hch]; [| discriminate].
  intros H. apply N.eqb_eq in H. by split.
Qed.

(** The lookbehind rejects an index only right behind the text [$CQ], in
    either case of its letters. *)
Lemma lookbehind_rejects_behind_dollar_CQ (x : mstate) :
  matcher true lookbehind true x Some = None ->
  exists q c rest,
    before x = q :: c :: 36 :: rest /\ (q = 81 \/ q = 113) /\ (c = 67 \/ c = 99).
Proof.
  unfold lookbehind, literal. simpl.
  destruct (before x) as [| q [| c [| d rest]]]; try discriminate.
  - destruct (in_CharSet true [81] false false q); discriminate.
  - destruct (in_CharSet true [81] false false q); [| discriminate].
    destruct (in_CharSet true [67] false false c); discriminate.
  - destruct (in_CharSet true [81] false false q) eqn:Hq; [| discriminate].
    destruct (in_CharSet true [67] false false c) eqn:Hc; [| discriminate].
    destruct (in_CharSet true [36] false false d) eqn:Hd; [| discriminate].
    intros _.
    apply in_CharSet_ascii in Hq as [Hq1 Hq2]; [| lia].
    apply in_CharSet_ascii in Hc as [Hc1 Hc2]; [| lia].
    apply in_CharSet_ascii in Hd as [Hd1 Hd2]; [| lia].
    unfold ascii_upper in Hq2, Hc2, Hd2. simpl in Hq2, Hc2, Hd2.
    exists q, c, rest.
    destruct (N.leb_spec 97 q), (N.leb_spec q 122); simpl in Hq2;
      destruct (N.leb_spec 97 c), (N.leb_spec c 122); simpl in Hc2;
      destruct (N.leb_spec 97 d), (N.leb_spec d 122); simpl in Hd2;
      (split; [f_equal; f_equal; f_equal; lia | split; lia]).
Qed.

(** C10, on the code: the pattern built at line 140 is the lookbehind,
    [\s*] and the blocking word as group 1, and the lookbehind stands
    before [\s*].  On "$CQ:at x$CQ bar", a text without any CQ code, the
    rule "bar" removes "bar" and leaves the space before it: the lookbehind,
    written with [$] where the bracket of a CQ code was meant, rejects the
    index of the space, so the match starts behind it.  That is the only
    way for whitespace right before a match to stay: for every rule and
    every text, a whitespace character right before a match that [replace]
    collects is inside an earlier match, or stands at an index the
    lookbehind rejects, which is right behind the text [$CQ]; in a text
    without [$] all the whitespace right before a match goes with it, as
    in "foo bar", which becomes "foo". *)
Theorem C10_whitespace_stays_where_the_lookbehind_rejects :
  filter_message rules_bar (utf16 "$CQ:at x$CQ bar")
  = Some (mkFiltered (utf16 "$CQ:at x$CQ ") false 0 false true)
  /\ filter_message rules_bar (utf16 "foo bar")
     = Some (mkFiltered (utf16 "foo") false 0 false true)
  /\ (forall ws,
        Forall (fun ch => In ch class_space) ws ->
        filter_message rules_bar (utf16 "foo" ++ ws ++ utf16 "bar")
        = Some (mkFiltered (utf16 "foo") false 0 false true))
  /\ (forall pattern r g,
        parse_disjunction true (4 * length pattern + 4) pattern 2 = Some (r, [], g) ->
        RegExp_new (rule_source pattern) true true
        = Some (mkRegExp
                  (Seq lookbehind
                     (Seq (Quant 0 None true (CharSet class_space false false))
                        (Seq (Group 1 r) Epsilon)))
                  true (g - 1)))
  /\ (forall r n str p y ch,
        In (S p, y) (collect_matches (length str + 2)
                       (mkRegExp (rule_regex r) true n) str 0) ->
        str !! p = Some ch ->
        In ch class_space ->
        matcher true lookbehind true (state_at str p) Some = None
        \/ exists p1 y1,
             In (p1, y1) (collect_matches (length str + 2)
                            (mkRegExp (rule_regex r) true n) str 0)
             /\ (p1 <= p < endIndex y1)%nat)
  /\ (forall x,
        matcher true lookbehind true x Some = None ->
        exists q c rest,
          before x = q :: c :: 36 :: rest /\ (q = 81 \/ q = 113) /\ (c = 67 \/ c = 99))
  /\ (forall r n str p y ch,
        ~ In 36 str ->
        In (S p, y) (collect_matches (length str + 2)
                       (mkRegExp (rule_regex r) true n) str 0) ->
        str !! p = Some ch ->
        In ch class_space ->
        exists p1 y1,
          In (p1, y1) (collect_matches (length str + 2)
                         (mkRegExp (rule_regex r) true n) str 0)
          /\ (p1 <= p < endIndex y1)%nat).
Proof.
  split; [vm_compute; reflexivity |].
  split; [vm_compute; reflexivity |].
  split; [exact rule_bar_removes_whitespace |].
  split; [exact rule_source_read |].
  split.
  { intros r n str p y ch Hin Hch Hspace.
    eapply replace_takes_the_whitespace; [exact Hin | lia | exact Hch | exact Hspace]. }
  split; [exact lookbehind_rejects_behind_dollar_CQ |].
  intros r n str p y ch Hdollar Hin Hch Hspace.
  destruct (replace_takes_the_whitespace r n str _ 0 p y ch Hin) as [Hlook | Hearlier];
    [lia | exact Hch | exact Hspace | | exact Hearlier].
  exfalso. apply Hdollar.
  apply lookbehind_rejects_behind_dollar_CQ in Hlook as (q & c & rest & Hbef & _).
  unfold state_at in Hbef. cbn [before] in Hbef.
  assert (Hin36 : In 36 (reverse (take p str))).
  { rewrite Hbef. simpl. tauto. }
  apply list_elem_of_In in Hin36. rewrite elem_of_reverse in Hin36.
  apply list_elem_of_In. rewrite <- (take_drop p str). apply elem_of_app. by left.
Qed.

(** * Further properties *)

(** ** Which rule of a group applies *)

Lemma configDict_lookup_other (rules : list GroupRule.t) (m : gmap jstring GroupRule.t)
    (g : jstring) :
  Forall (fun r => GroupRule.groupId r <> g) rules ->
  foldl (fun m rule => <[GroupRule.groupId rule := rule]> m) m rules !! g = m !! g.
Proof.
  revert m. induction rules as [| r rules IH]; intros m Hall; simpl; [reflexivity |].
  inversion Hall as [| ? ? Hr Hrules]; subst.
  rewrite IH by exact Hrules. by rewrite lookup_insert_ne.
Qed.

Lemma configDict_lookup_last (rules1 rules2 : list GroupRule.t) (r : GroupRule.t) :
  Forall (fun r2 => GroupRule.groupId r2 <> GroupRule.groupId r) rules2 ->
  configDict (rules1 ++ r :: rules2) !! GroupRule.groupId r = Some r.
Proof.
  intros Hall. unfold configDict. rewrite foldl_app. simpl.
  rewrite configDict_lookup_other by exact Hall. apply lookup_insert_eq.
Qed.

(** X1: of the rules of the configuration that name the same group, the
    last one is the group's rule: the middleware handles a message of the
    group as if that rule were the only one. *)
Theorem X1_last_rule_of_a_group_applies (rules1 rules2 : list GroupRule.t)
    (r : GroupRule.t) (meta : Session) (w : Outcomes) (st : State) :
  guildId meta = GroupRule.groupId r ->
  Forall (fun r2 => GroupRule.groupId r2 <> GroupRule.groupId r) rules2 ->
  configDict (rules1 ++ r :: rules2) !! guildId meta = Some r
  /\ middleware (rules1 ++ r :: rules2) meta w st = middleware [r] meta w st.
Proof.
  intros Hg Hall.
  assert (H1 : configDict (rules1 ++ r :: rules2) !! guildId meta = Some r)
    by (rewrite Hg; by apply configDict_lookup_last).
  assert (H2 : configDict [r] !! guildId meta = Some r)
    by (rewrite Hg; apply (configDict_lookup_last [] [] r); constructor).
  split; [exact H1 |]. unfold middleware. by rewrite H1, H2.
Qed.

(** ** Where nothing is moderated *)

Lemma configDict_lookup_none (rules : list GroupRule.t) (g : jstring) :
  Forall (fun r => GroupRule.groupId r <> g) rules -> configDict rules !! g = None.
Proof.
  intros Hall. unfold configDict. rewrite configDict_lookup_other by exact Hall.
  apply lookup_empty.
Qed.

(** X2: a message that is not a group message of OneBot, a message of a
    group that no rule of the configuration names, and a message of a group
    whose rule (the last one that names it) is disabled are passed on with
    [next()]: no call is made and the records stay as they are. *)
Theorem X2_unmoderated_groups_pass (rules : list GroupRule.t) (meta : Session)
    (w : Outcomes) (st : State) :
  onebot meta = false
  \/ subtype meta <> utf16 "group"
  \/ Forall (fun r => GroupRule.groupId r <> guildId meta) rules
  \/ (exists rules1 r rules2,
        rules = rules1 ++ r :: rules2
        /\ GroupRule.groupId r = guildId meta
        /\ Forall (fun r2 => GroupRule.groupId r2 <> guildId meta) rules2
        /\ GroupRule.enable r = false) ->
  middleware rules meta w st = Some (st, [Next]).
Proof.
  unfold middleware. intros [H | [H | [H | (rules1 & r & rules2 & -> & Hg & Hall & Hoff)]]].
  - by rewrite H.
  - unfold jstring_eqb. rewrite bool_decide_eq_false_2 by exact H.
    by rewrite orb_true_r.
  - rewrite configDict_lookup_none by exact H.
    by destruct (negb (onebot meta) || _).
  - rewrite <- Hg in *. rewrite configDict_lookup_last by exact Hall. rewrite Hoff.
    by destruct (negb (onebot meta) || _).
Qed.

(** X3: in a group with an enabled rule the bot moderates only as admin or
    owner.  When one of the two member lookups is rejected the failure is
    logged, and when the bot has another role nothing is logged; in both
    cases the blocking words are not even looked at, nothing is sent and
    the records stay as they are. *)
Theorem X3_no_moderation_without_rights (rules : list GroupRule.t) (meta : Session)
    (w : Outcomes) (st : State) (groupConfig : GroupRule.t) :
  onebot meta = true ->
  subtype meta = utf16 "group" ->
  configDict rules !! guildId meta = Some groupConfig ->
  GroupRule.enable groupConfig = true ->
  (bot_role w = None \/ user_info w = false ->
   middleware rules meta w st
   = Some (st, lookups meta ++ [LogError HandlingFailed; Next]))
  /\ (forall role,
        bot_role w = Some role -> user_info w = true ->
        role <> utf16 "admin" -> role <> utf16 "owner" ->
        middleware rules meta w st = Some (st, lookups meta ++ [Next])).
Proof.
  intros Hbot Hsub Hget Hen. unfold middleware, handleMsg, elevated, jstring_eqb, lookups.
  rewrite Hbot, Hsub, Hget, Hen. rewrite bool_decide_eq_true_2 by reflexivity. simpl.
  split.
  - intros [H | H]; rewrite H; [reflexivity |]. by destruct (bot_role w).
  - intros role Hrole Huser Hadmin Howner. rewrite Hrole, Huser.
    by rewrite !bool_decide_eq_false_2.
Qed.

(** ** The answer to one message *)

Lemma respond_cases (groupConfig : GroupRule.t) (meta : Session) (w : Outcomes)
    (message : jstring) (f : Filtered) (st : State) :
  let mute := GroupRule.muteConfig groupConfig in
  let recordKey := record_key (guildId meta) (userId meta) in
  let alert (st1 : State) :=
    if negb (jstring_eqb (modifiedMessage f) message) || needRecall f
    then alert_branch groupConfig meta w message f st1 else [] in
  respond groupConfig meta w message f st
  = if MuteConfig.enable mute && hasTriggerMuteRule f then
      let '(st1, record, shouldMute) :=
        register recordKey (muteCount f) (MuteConfig.threshold mute) st in
      if shouldMute
      then mute_branch groupConfig meta w message f recordKey record st1
      else (st1, alert st1)
    else (st, alert st).
Proof.
  intros mute recordKey alert. unfold respond. fold mute recordKey.
  destruct (MuteConfig.enable mute && hasTriggerMuteRule f).
  - destruct (register recordKey (muteCount f) (MuteConfig.threshold mute) st)
      as [[st1 record] shouldMute].
    destruct shouldMute.
    + destruct (mute_branch groupConfig meta w message f recordKey record st1)
        as [st2 effects].
      rewrite andb_false_r. by rewrite app_nil_r.
    + by rewrite andb_true_r.
  - by rewrite andb_true_r.
Qed.

Lemma mute_branch_one_answer (groupConfig : GroupRule.t) (meta : Session) (w : Outcomes)
    (message : jstring) (f : Filtered) (recordKey : jstring) (record : ViolationRecord)
    (st : State) :
  one_answer meta (mute_branch groupConfig meta w message f recordKey record st).2.
Proof.
  unfold one_answer, mute_branch, recall_effects.
  destruct (needRecall f), (deleteMsg_ok w), (setGroupBan_ok w), (sendGroupMsg_ok w);
    simpl; repeat split; try lia; repeat constructor.
Qed.

Lemma alert_branch_one_answer (groupConfig : GroupRule.t) (meta : Session) (w : Outcomes)
    (message : jstring) (f : Filtered) (st : State) :
  one_answer meta (alert_branch groupConfig meta w message f st).
Proof.
  unfold one_answer, alert_branch, recall_effects.
  destruct (finalMessage groupConfig meta message f st) as [text |];
    [generalize (slice0 4500 text); intros cut |];
    destruct (needRecall f), (deleteMsg_ok w), (sendGroupMsg_ok w);
    simpl; repeat split; try lia; repeat constructor.
Qed.

Lemma respond_one_answer (groupConfig : GroupRule.t) (meta : Session) (w : Outcomes)
    (message : jstring) (f : Filtered) (st : State) :
  one_answer meta (respond groupConfig meta w message f st).2.
Proof.
  assert (Hnil : one_answer meta []) by (repeat split; simpl; try lia; constructor).
  rewrite respond_cases.
  destruct (MuteConfig.enable _ && hasTriggerMuteRule f).
  - destruct (register _ _ _ st) as [[st1 record] shouldMute].
    destruct shouldMute; [apply mute_branch_one_answer |]. simpl.
    destruct (negb _ || needRecall f); [apply alert_branch_one_answer | exact Hnil].
  - simpl. destruct (negb _ || needRecall f); [apply alert_branch_one_answer | exact Hnil].
Qed.

Lemma one_answer_app (meta : Session) (effects1 effects2 : list Effect) :
  one_answer meta effects1 ->
  Forall (fun e => is_next e || is_recall e || is_ban e || is_send e = false) effects2 ->
  Forall (concerns meta) effects2 ->
  one_answer meta (effects2 ++ effects1).
Proof.
  intros (Hnext & Hrecall & Hban & Hsend & Habout) Hquiet Hmeta.
  unfold one_answer.
  induction Hquiet as [| e effects2 He Hquiet IH]; [by repeat split |].
  inversion Hmeta as [| ? ? Hmeta1 Hmeta2]; subst.
  destruct (IH Hmeta2) as (IH1 & IH2 & IH3 & IH4 & IH5).
  apply orb_false_elim in He as [He Hs]. apply orb_false_elim in He as [He Hb].
  apply orb_false_elim in He as [Hn Hr].
  simpl. rewrite Hn, Hr, Hb, Hs. simpl. repeat split; try assumption.
  by constructor.
Qed.

(** X4: whenever a message is handled, the calls end with the one [next()];
    before it there is at most one recall, at most one mute and at most one
    message sent (the mute branch and the alert branch never both answer),
    and every call is about the message at hand: its group, its sender or
    the bot, the message itself. *)
Theorem X4_one_answer_per_message (rules : list GroupRule.t) (meta : Session)
    (w : Outcomes) (st st1 : State) (effects : list Effect) :
  middleware rules meta w st = Some (st1, effects) ->
  exists calls, effects = calls ++ [Next] /\ one_answer meta calls.
Proof.
  assert (Hnil : one_answer meta []) by (repeat split; simpl; try lia; constructor).
  assert (Hlookups : forall effects1,
            one_answer meta effects1 -> one_answer meta (lookups meta ++ effects1)).
  { intros effects1 H. apply one_answer_app; [exact H | |]; unfold lookups.
    - constructor; [reflexivity |]. constructor; [reflexivity | constructor].
    - constructor; [simpl; auto |]. constructor; [simpl; auto | constructor]. }
  unfold middleware. fold (lookups meta).
  destruct (negb (onebot meta) || _); [intros [= <- <-]; by exists [] |].
  destruct (configDict rules !! guildId meta) as [g |]; [| intros [= <- <-]; by exists []].
  destruct (negb (GroupRule.enable g)); [intros [= <- <-]; by exists [] |].
  destruct (handleMsg meta w) as [[role message] |].
  - destruct (negb (elevated role)).
    + intros [= <- <-]. exists (lookups meta). split; [reflexivity |].
      rewrite <- (app_nil_r (lookups meta)). by apply Hlookups.
    + destruct (filter_message (GroupRule.blockingWords g) message) as [f |];
        [| discriminate].
      cbn [mbind option_bind].
      pose proof (respond_one_answer g meta w message f st) as Hanswer.
      destruct (respond g meta w message f st) as [st2 effects2].
      intros [= <- <-]. exists (lookups meta ++ effects2).
      split; [by rewrite <- app_assoc | by apply Hlookups].
  - intros [= <- <-]. exists (lookups meta ++ [LogError HandlingFailed]).
    split; [by rewrite <- app_assoc |].
    apply Hlookups. repeat split; simpl; try lia; repeat constructor.
Qed.

(** ** The order of the blocking words *)

Lemma insert_by_index_Permutation {V : Type} (e : N * (jstring * V))
    (l : list (N * (jstring * V))) :
  insert_by_index e l ≡ₚ e :: l.
Proof.
  induction l as [| e1 l IH]; simpl; [reflexivity |].
  destruct (e.1 <? e1.1); [reflexivity |].
  rewrite IH. apply Permutation_swap.
Qed.

Lemma Object_entries_cons {V : Type} (e : jstring * V) (props : list (jstring * V)) :
  Object_entries (e :: props)
  = match array_index e.1 with
    | Some i =>
      map snd (insert_by_index (i, e)
                 (foldr insert_by_index []
                    (omap (fun e => i ← array_index e.1; Some (i, e)) props)))
        ++ filter (fun e => array_index e.1 = None) props
    | None =>
      map snd (foldr insert_by_index []
                 (omap (fun e => i ← array_index e.1; Some (i, e)) props))
        ++ e :: filter (fun e => array_index e.1 = None) props
    end.
Proof.
  unfold Object_entries. rewrite filter_cons. cbn [omap list_omap].
  destruct (array_index e.1) as [i |] eqn:Hi; cbn [mbind option_bind foldr].
  - by rewrite decide_False by discriminate.
  - by rewrite decide_True by reflexivity.
Qed.

Lemma Object_entries_Permutation {V : Type} (props : list (jstring * V)) :
  Object_entries props ≡ₚ props.
Proof.
  induction props as [| e props IH]; [reflexivity |].
  rewrite Object_entries_cons. unfold Object_entries in IH.
  destruct (array_index e.1) as [i |].
  - etransitivity;
      [apply Permutation_app_tail, Permutation_map, insert_by_index_Permutation |].
    simpl. by constructor.
  - etransitivity; [symmetry; apply Permutation_middle |]. by constructor.
Qed.

(** ** What the flags of the loop come from *)

Lemma apply_rule_flags (acc acc1 : Filtered) (entry : jstring * BlockingWords.t) :
  apply_rule acc entry = Some acc1 ->
  (needRecall acc1 = true ->
   needRecall acc = true
   \/ BlockingWords.enable entry.2 = true /\ BlockingWords.recall entry.2 = true)
  /\ (hasTriggerMuteRule acc1 = true ->
      hasTriggerMuteRule acc = true
      \/ BlockingWords.enable entry.2 = true /\ BlockingWords.triggerMute entry.2 = true)
  /\ (hasValidReplace acc1 = false -> acc1 = acc).
Proof.
  unfold apply_rule. destruct entry as [pattern r]. simpl.
  destruct (BlockingWords.enable r); simpl; [| intros [= <-]; auto].
  destruct (RegExp_new (rule_source pattern) true true) as [re |]; simpl; [| discriminate].
  destruct (RegExp_test re (modifiedMessage acc)); [| intros [= <-]; auto].
  intros [= <-]. simpl. repeat split.
  - intros H. apply orb_true_iff in H as [H | H]; auto.
  - destruct (BlockingWords.triggerMute r); auto.
  - discriminate.
Qed.

Lemma apply_rules_flags (entries : list (jstring * BlockingWords.t)) (acc acc1 : Filtered) :
  apply_rules acc entries = Some acc1 ->
  (needRecall acc1 = true ->
   needRecall acc = true
   \/ Exists (fun e => BlockingWords.enable e.2 = true /\ BlockingWords.recall e.2 = true)
        entries)
  /\ (hasTriggerMuteRule acc1 = true ->
      hasTriggerMuteRule acc = true
      \/ Exists (fun e => BlockingWords.enable e.2 = true
                          /\ BlockingWords.triggerMute e.2 = true) entries)
  /\ (hasValidReplace acc1 = false -> acc1 = acc).
Proof.
  revert acc. induction entries as [| entry entries IH]; intros acc; simpl.
  - intros [= <-]. auto.
  - destruct (apply_rule acc entry) as [acc2 |] eqn:Hrule; simpl; [| discriminate].
    intros Hrest. destruct (IH acc2 Hrest) as (IH1 & IH2 & IH3).
    destruct (apply_rule_flags acc acc2 entry Hrule) as (H1 & H2 & H3).
    repeat split.
    + intros H. destruct (IH1 H) as [Hacc | Hex]; [| by right; right].
      destruct (H1 Hacc); [by left | by right; left].
    + intros H. destruct (IH2 H) as [Hacc | Hex]; [| by right; right].
      destruct (H2 Hacc); [by left | by right; left].
    + intros H. rewrite (IH3 H) in H |- *. exact (H3 H).
Qed.

Lemma filter_message_flags (words : list (jstring * BlockingWords.t))
    (message : jstring) (f : Filtered) :
  filter_message words message = Some f ->
  (needRecall f = true ->
   Exists (fun e => BlockingWords.enable e.2 = true /\ BlockingWords.recall e.2 = true)
     words)
  /\ (hasTriggerMuteRule f = true ->
      Exists (fun e => BlockingWords.enable e.2 = true
                       /\ BlockingWords.triggerMute e.2 = true) words)
  /\ (hasValidReplace f = false -> f = mkFiltered message false 0 false false).
Proof.
  unfold filter_message. intros H.
  destruct (apply_rules_flags _ _ _ H) as (H1 & H2 & H3). simpl in H1, H2.
  assert (Hperm : forall P : jstring * BlockingWords.t -> Prop,
            Exists P (Object_entries words) -> Exists P words).
  { intros P Hex. apply Exists_exists in Hex as (e & Hin & He).
    apply Exists_exists. exists e. split; [| exact He].
    by rewrite <- (Object_entries_Permutation words). }
  repeat split.
  - intros Hf. destruct (H1 Hf) as [? | Hex]; [discriminate | by apply Hperm].
  - intros Hf. destruct (H2 Hf) as [? | Hex]; [discriminate | by apply Hperm].
  - exact H3.
Qed.

(** X5: the flags the loop over the blocking words ends with come from
    enabled rules of the group: a recall is asked for only when an enabled
    rule has [recall], a violation is counted only when an enabled rule has
    [triggerMute], and as long as no rule has matched ([hasValidReplace] is
    false) the text is the message as it came and no flag is set. *)
Theorem X5_flags_come_from_enabled_rules (words : list (jstring * BlockingWords.t))
    (message : jstring) (f : Filtered) :
  filter_message words message = Some f ->
  (needRecall f = true ->
   Exists (fun e => BlockingWords.enable e.2 = true /\ BlockingWords.recall e.2 = true)
     words)
  /\ (hasTriggerMuteRule f = true ->
      Exists (fun e => BlockingWords.enable e.2 = true
                       /\ BlockingWords.triggerMute e.2 = true) words)
  /\ (hasValidReplace f = false -> f = mkFiltered message false 0 false false)
  /\ (modifiedMessage f <> message -> hasValidReplace f = true).
Proof.
  intros H. destruct (filter_message_flags words message f H) as (H1 & H2 & H3).
  repeat split; try assumption.
  intros Hne. destruct (hasValidReplace f) eqn:Hvalid; [reflexivity |].
  rewrite (H3 eq_refl) in Hne. by destruct Hne.
Qed.

(** ** What the bot does not do *)

Lemma alert_branch_quiet (groupConfig : GroupRule.t) (meta : Session) (w : Outcomes)
    (message : jstring) (f : Filtered) (st : State) :
  forallb (fun e => negb (is_ban e)) (alert_branch groupConfig meta w message f st) = true
  /\ (needRecall f = false ->
      forallb (fun e => negb (is_recall e))
        (alert_branch groupConfig meta w message f st) = true).
Proof.
  unfold alert_branch, recall_effects.
  destruct (finalMessage groupConfig meta message f st) as [text |];
    [generalize (slice0 4500 text); intros cut |];
    destruct (needRecall f), (deleteMsg_ok w), (sendGroupMsg_ok w); simpl; auto.
Qed.

Lemma respond_quiet (groupConfig : GroupRule.t) (meta : Session) (w : Outcomes)
    (message : jstring) (f : Filtered) (st : State) :
  (needRecall f = false ->
   forallb (fun e => negb (is_recall e)) (respond groupConfig meta w message f st).2 = true)
  /\ (MuteConfig.enable (GroupRule.muteConfig groupConfig) && hasTriggerMuteRule f = false ->
      respond groupConfig meta w message f st
      = (st, if negb (jstring_eqb (modifiedMessage f) message) || needRecall f
             then alert_branch groupConfig meta w message f st else [])
        /\ forallb (fun e => negb (is_ban e))
             (respond groupConfig meta w message f st).2 = true).
Proof.
  rewrite respond_cases. split.
  - intros Hrecall.
    destruct (MuteConfig.enable _ && hasTriggerMuteRule f).
    + destruct (register _ _ _ st) as [[st1 record] shouldMute].
      destruct shouldMute.
      * unfold mute_branch, recall_effects. rewrite Hrecall.
        by destruct (setGroupBan_ok w), (sendGroupMsg_ok w).
      * simpl. destruct (negb _ || needRecall f); [| reflexivity].
        by apply alert_branch_quiet.
    + simpl. destruct (negb _ || needRecall f); [| reflexivity].
      by apply alert_branch_quiet.
  - intros ->. split; [reflexivity |]. simpl.
    destruct (negb _ || needRecall f); [| reflexivity].
    apply alert_branch_quiet.
Qed.

(** X6: in a group none of whose enabled rules asks for the recall, no
    message is ever deleted; and where the mute policy is disabled or no
    enabled rule counts toward the mute, nobody is muted and no record is
    made or changed. *)
Theorem X6_no_rule_asks_no_action (rules : list GroupRule.t) (meta : Session)
    (w : Outcomes) (st st1 : State) (effects : list Effect) (groupConfig : GroupRule.t) :
  configDict rules !! guildId meta = Some groupConfig ->
  middleware rules meta w st = Some (st1, effects) ->
  (Forall (fun e => BlockingWords.enable e.2 = true -> BlockingWords.recall e.2 = false)
     (GroupRule.blockingWords groupConfig) ->
   forallb (fun e => negb (is_recall e)) effects = true)
  /\ (MuteConfig.enable (GroupRule.muteConfig groupConfig) = false
      \/ Forall (fun e => BlockingWords.enable e.2 = true
                          -> BlockingWords.triggerMute e.2 = false)
           (GroupRule.blockingWords groupConfig) ->
      st1 = st /\ forallb (fun e => negb (is_ban e)) effects = true).
Proof.
  intros Hget. unfold middleware. rewrite Hget.
  destruct (negb (onebot meta) || _); [intros [= <- <-]; auto |].
  destruct (negb (GroupRule.enable groupConfig)); [intros [= <- <-]; auto |].
  destruct (handleMsg meta w) as [[role message] |]; [| intros [= <- <-]; auto].
  destruct (negb (elevated role)); [intros [= <- <-]; auto |].
  destruct (filter_message (GroupRule.blockingWords groupConfig) message) as [f |] eqn:Hf;
    [| discriminate].
  cbn [mbind option_bind].
  destruct (filter_message_flags _ _ _ Hf) as (Hrecall & Htrigger & _).
  destruct (respond_quiet groupConfig meta w message f st) as (Hquiet1 & Hquiet2).
  destruct (respond groupConfig meta w message f st) as [st2 effects2].
  intros [= <- <-]. split.
  - intros Hall. simpl. rewrite forallb_app. simpl. rewrite andb_true_r.
    apply Hquiet1. destruct (needRecall f); [| reflexivity].
    apply Exists_exists in Hrecall as (e & Hin & Hen & Hrec); [| reflexivity].
    rewrite Forall_forall in Hall. pose proof (Hall e Hin Hen). congruence.
  - intros Hoff.
    assert (Hno : MuteConfig.enable (GroupRule.muteConfig groupConfig)
                  && hasTriggerMuteRule f = false).
    { destruct Hoff as [-> | Hall]; [reflexivity |].
      destruct (hasTriggerMuteRule f); [| apply andb_false_r].
      apply Exists_exists in Htrigger as (e & Hin & Hen & Htrig); [| reflexivity].
      rewrite Forall_forall in Hall. pose proof (Hall e Hin Hen). congruence. }
    destruct (Hquiet2 Hno) as [Heq Hban]. injection Heq as -> _.
    split; [reflexivity |]. simpl. rewrite forallb_app. simpl. by rewrite andb_true_r.
Qed.

Lemma apply_rules_pass (entries : list (jstring * BlockingWords.t)) (acc : Filtered) :
  Forall (passes_rule (modifiedMessage acc)) entries ->
  apply_rules acc entries = Some acc.
Proof.
  induction 1 as [| [pattern r] entries Hpass Hall IH]; simpl; [reflexivity |].
  destruct Hpass as [Hoff | (regex & Hnew & Htest)]; simpl in *.
  - by rewrite Hoff.
  - rewrite Hnew. simpl. rewrite Htest.
    by destruct (negb (BlockingWords.enable r)).
Qed.

(** X7: a message that no enabled rule of its group matches gets no answer:
    after the two member lookups the middleware calls [next()], and the
    records stay as they are. *)
Theorem X7_clean_message_is_passed_on (rules : list GroupRule.t) (meta : Session)
    (w : Outcomes) (st : State) (groupConfig : GroupRule.t) (role : jstring) :
  onebot meta = true ->
  subtype meta = utf16 "group" ->
  configDict rules !! guildId meta = Some groupConfig ->
  GroupRule.enable groupConfig = true ->
  bot_role w = Some role ->
  user_info w = true ->
  elevated role = true ->
  Forall (passes_rule (message_of meta)) (GroupRule.blockingWords groupConfig) ->
  filter_message (GroupRule.blockingWords groupConfig) (message_of meta)
  = Some (mkFiltered (message_of meta) false 0 false false)
  /\ middleware rules meta w st = Some (st, lookups meta ++ [Next]).
Proof.
  intros Hbot Hsub Hget Hen Hrole Huser Hadmin Hpass.
  assert (Hf : filter_message (GroupRule.blockingWords groupConfig) (message_of meta)
               = Some (mkFiltered (message_of meta) false 0 false false)).
  { unfold filter_message. apply apply_rules_pass. simpl.
    by rewrite Object_entries_Permutation. }
  split; [exact Hf |].
  unfold middleware, handleMsg. fold (lookups meta).
  rewrite Hbot, Hsub, Hget, Hen, Hrole, Huser, Hadmin, Hf.
  unfold jstring_eqb at 1. rewrite bool_decide_eq_true_2 by reflexivity.
  cbn [negb orb mbind option_bind].
  rewrite respond_cases. cbn [hasTriggerMuteRule modifiedMessage needRecall].
  rewrite andb_false_r. unfold jstring_eqb.
  by rewrite bool_decide_eq_true_2 by reflexivity.
Qed.

(** ** The records and their timeouts over time *)

Lemma respond_state_cases (groupConfig : GroupRule.t) (meta : Session) (w : Outcomes)
    (message : jstring) (f : Filtered) (st : State) :
  let recordKey := record_key (guildId meta) (userId meta) in
  let st1 := (respond groupConfig meta w message f st).1 in
  st1 = st
  \/ exists muteCount threshold,
       let registered := register recordKey muteCount threshold st in
       st1 = registered.1.1 \/ st1 = clear recordKey registered.1.2 registered.1.1.
Proof.
  intros recordKey st1. subst st1. rewrite respond_cases.
  destruct (MuteConfig.enable _ && hasTriggerMuteRule f); [| by left].
  right. exists (muteCount f), (MuteConfig.threshold (GroupRule.muteConfig groupConfig)).
  fold recordKey.
  destruct (register recordKey _ _ st) as [[st1 record] shouldMute]. simpl.
  destruct shouldMute; [| by left].
  unfold mute_branch.
  destruct (setGroupBan_ok w); simpl; [| by left].
  destruct (sendGroupMsg_ok w); simpl; [by right | by left].
Qed.

Lemma middleware_state_cases (rules : list GroupRule.t) (meta : Session) (w : Outcomes)
    (st st1 : State) (effects : list Effect) :
  let recordKey := record_key (guildId meta) (userId meta) in
  middleware rules meta w st = Some (st1, effects) ->
  st1 = st
  \/ exists muteCount threshold,
       let registered := register recordKey muteCount threshold st in
       st1 = registered.1.1 \/ st1 = clear recordKey registered.1.2 registered.1.1.
Proof.
  intros recordKey. unfold middleware.
  destruct (negb (onebot meta) || _); [intros [= <- _]; by left |].
  destruct (configDict rules !! guildId meta) as [g |]; [| intros [= <- _]; by left].
  destruct (negb (GroupRule.enable g)); [intros [= <- _]; by left |].
  destruct (handleMsg meta w) as [[role message] |]; [| intros [= <- _]; by left].
  destruct (negb (elevated role)); [intros [= <- _]; by left |].
  destruct (filter_message (GroupRule.blockingWords g) message) as [f |]; [| discriminate].
  cbn [mbind option_bind].
  pose proof (respond_state_cases g meta w message f st) as Hcases.
  destruct (respond g meta w message f st) as [st2 effects2].
  intros [= <- _]. exact Hcases.
Qed.

Lemma register_records_timed (recordKey : jstring) (muteCount threshold : N) (st : State) :
  well_timed st -> records_timed (register recordKey muteCount threshold st).1.1.
Proof.
  intros [Hown Htimed] k record. unfold register.
  destruct (violationRecords st !! recordKey) as [record0 |] eqn:Hget; simpl.
  - destruct (decide (k = recordKey)) as [-> | Hne].
    + rewrite lookup_insert_eq. intros [= <-]. simpl. by apply Htimed.
    + rewrite lookup_insert_ne by congruence. apply Htimed.
  - destruct (decide (k = recordKey)) as [-> | Hne].
    + rewrite lookup_insert_eq. intros [= <-]. simpl. apply lookup_insert_eq.
    + rewrite !lookup_insert_ne by congruence. intros Hk.
      pose proof (Htimed k record Hk) as Hh.
      destruct (Hown _ _ Hh) as [Hlt _].
      rewrite lookup_insert_ne by lia. exact Hh.
Qed.




Lemma register_record (recordKey : jstring) (muteCount threshold : N) (st : State) :
  violationRecords (register recordKey muteCount threshold st).1.1 !! recordKey
  = Some (register recordKey muteCount threshold st).1.2.
Proof.
  destruct (register_spec recordKey muteCount threshold st) as (st1 & h & Heq & Hget & _).
  rewrite Heq. exact Hget.
Qed.





Lemma register_frame (recordKey : jstring) (muteCount threshold : N) (st : State)
    (k : jstring) :
  k <> recordKey ->
  let st1 := (register recordKey muteCount threshold st).1.1 in
  violationRecords st1 !! k = violationRecords st !! k
  /\ (timers_owned st -> forall h, timers st1 !! h = Some k <-> timers st !! h = Some k).
Proof.
  intros Hne. unfold register.
  destruct (violationRecords st !! recordKey) as [record0 |] eqn:Hget; simpl.
  - rewrite lookup_insert_ne by congruence. split; [reflexivity | by intros _ h].
  - rewrite !lookup_insert_ne by congruence. split; [reflexivity |].
    intros Hown h. destruct (decide (h = nextTimer st)) as [-> | Hh].
    + rewrite lookup_insert_eq. split; [congruence |].
      intros H. destruct (Hown _ _ H) as [Hlt _]. lia.
    + by rewrite lookup_insert_ne by congruence.
Qed.

Lemma clear_frame (recordKey : jstring) (record : ViolationRecord) (st : State)
    (k : jstring) :
  k <> recordKey ->
  violationRecords st !! recordKey = Some record ->
  violationRecords (clear recordKey record st) !! k = violationRecords st !! k
  /\ (records_timed st ->
      forall h, timers (clear recordKey record st) !! h = Some k <-> timers st !! h = Some k).
Proof.
  intros Hne Hget. unfold clear. simpl.
  rewrite lookup_delete_ne by congruence. split; [reflexivity |].
  intros Htimed h. pose proof (Htimed _ _ Hget) as Hh0.
  destruct (decide (h = timer record)) as [-> | Hh].
  - rewrite lookup_delete_eq, Hh0. split; [discriminate | congruence].
  - by rewrite lookup_delete_ne by congruence.
Qed.

(** X9: the handling of a message leaves the record of every other key as
    it is: the count of another user, or of the same user in another group,
    does not change, and (from a state in which records and timeouts
    correspond) neither do the timeouts pending for it. *)
Theorem X9_other_keys_are_untouched (rules : list GroupRule.t) (meta : Session)
    (w : Outcomes) (st st1 : State) (effects : list Effect) (k : jstring) :
  middleware rules meta w st = Some (st1, effects) ->
  k <> record_key (guildId meta) (userId meta) ->
  violationRecords st1 !! k = violationRecords st !! k
  /\ (well_timed st -> forall h, timers st1 !! h = Some k <-> timers st !! h = Some k).
Proof.
  intros H Hne.
  destruct (middleware_state_cases rules meta w st st1 effects H)
    as [-> | (muteCount & threshold & [-> | ->])].
  - split; [reflexivity | by intros _ h].
  - destruct (register_frame _ muteCount threshold st k Hne) as [H1 H2].
    split; [exact H1 |]. intros [Hown _]. by apply H2.
  - destruct (register_frame _ muteCount threshold st k Hne) as [H1 H2].
    destruct (clear_frame _ _ _ k Hne (register_record _ muteCount threshold st))
      as [H3 H4].
    split; [by rewrite H3 |].
    intros Hst h. rewrite H4 by (by apply register_records_timed).
    apply H2, Hst.
Qed.


(** ** The length of what is sent without a mute *)

Lemma mute_branch_mutes (groupConfig : GroupRule.t) (meta : Session) (w : Outcomes)
    (message : jstring) (f : Filtered) (recordKey : jstring) (record : ViolationRecord)
    (st : State) :
  existsb is_ban (mute_branch groupConfig meta w message f recordKey record st).2 = true.
Proof.
  unfold mute_branch.
  destruct (setGroupBan_ok w), (sendGroupMsg_ok w); simpl;
    rewrite existsb_app; simpl; apply orb_true_r.
Qed.

Lemma forallb_not_existsb {A : Type} (p : A -> bool) (l : list A) :
  forallb (fun x => negb (p x)) l = true -> existsb p l = false.
Proof.
  induction l as [| x l IH]; simpl; [reflexivity |].
  intros H. apply andb_true_iff in H as [Hx Hl].
  rewrite (IH Hl). by destruct (p x).
Qed.

(** X10: whatever is sent in a handling that mutes nobody is at most 4500
    code units long, and goes to the group of the message. *)
Theorem X10_alert_is_at_most_4500 (rules : list GroupRule.t) (meta : Session)
    (w : Outcomes) (st st1 : State) (effects : list Effect) (group text : jstring) :
  middleware rules meta w st = Some (st1, effects) ->
  forallb (fun e => negb (is_ban e)) effects = true ->
  In (SendGroupMsg group text) effects ->
  (length text <= 4500)%nat /\ group = guildId meta.
Proof.
  unfold middleware.
  destruct (negb (onebot meta) || _);
    [intros [= <- <-] _ [H | []]; discriminate |].
  destruct (configDict rules !! guildId meta) as [g |];
    [| intros [= <- <-] _ [H | []]; discriminate].
  destruct (negb (GroupRule.enable g)); [intros [= <- <-] _ [H | []]; discriminate |].
  destruct (handleMsg meta w) as [[role message] |];
    [| intros [= <- <-] _ [H | [H | [H | [H | []]]]]; discriminate].
  destruct (negb (elevated role));
    [intros [= <- <-] _ [H | [H | [H | []]]]; discriminate |].
  destruct (filter_message (GroupRule.blockingWords g) message) as [f |]; [| discriminate].
  cbn [mbind option_bind]. rewrite respond_cases.
  set (alert := fun st2 : State =>
         if negb (jstring_eqb (modifiedMessage f) message) || needRecall f
         then alert_branch g meta w message f st2 else []).
  assert (Halert : forall st2,
            In (SendGroupMsg group text) (alert st2) ->
            (length text <= 4500)%nat /\ group = guildId meta).
  { intros st2 Hin. subst alert. cbv beta in Hin.
    destruct (negb _ || needRecall f); [| contradiction]. split.
    - eapply alert_branch_at_most_4500. exact Hin.
    - destruct (alert_branch_one_answer g meta w message f st2) as (_ & _ & _ & _ & Habout).
      rewrite Forall_forall in Habout. apply (Habout (SendGroupMsg group text)).
      by apply list_elem_of_In. }
  assert (Hin : forall (st2 : State) (effects2 : list Effect),
            In (SendGroupMsg group text)
              ([GetGroupMemberInfo (guildId meta) (selfId meta);
                GetGroupMemberInfo (guildId meta) (userId meta)] ++ effects2 ++ [Next]) ->
            In (SendGroupMsg group text) effects2).
  { intros st2 effects2 H. simpl in H. destruct H as [H | [H | H]]; try discriminate.
    apply in_app_or in H as [H | [H | []]]; [exact H | discriminate]. }
  destruct (MuteConfig.enable _ && hasTriggerMuteRule f).
  - destruct (register _ _ _ st) as [[st2 record] shouldMute].
    destruct shouldMute.
    + pose proof (mute_branch_mutes g meta w message f
                    (record_key (guildId meta) (userId meta)) record st2) as Hban.
      destruct (mute_branch g meta w message f _ record st2) as [st3 effects3].
      intros [= <- <-] Hquiet _. exfalso.
      apply forallb_not_existsb in Hquiet. simpl in Hquiet, Hban.
      rewrite existsb_app in Hquiet. rewrite Hban in Hquiet. discriminate.
    + intros [= <- <-] _ H. apply (Halert st2). by apply (Hin st2).
  - intros [= <- <-] _ H. apply (Halert st). by apply (Hin st).
Qed.

(** ** The keys of the records *)

(** X11: the key of a record tells its group and its user: for group
    numbers without a colon (the schema asks for digits) two keys are
    equal only when group and user are, so no two users and no two groups
    share a count. *)
Theorem X11_record_keys_do_not_collide (groupId1 userId1 groupId2 userId2 : jstring) :
  ~ In 58 groupId1 ->
  ~ In 58 groupId2 ->
  record_key groupId1 userId1 = record_key groupId2 userId2 ->
  groupId1 = groupId2 /\ userId1 = userId2.
Proof.
  unfold record_key. change (utf16 ":") with [58]. simpl.
  revert groupId2. induction groupId1 as [| a g1 IH]; intros [| b g2] H1 H2; simpl.
  - by intros [= ->].
  - intros [= <-]. exfalso. apply H2. by left.
  - intros [= ->]. exfalso. apply H1. by left.
  - intros [= -> H]. destruct (IH g2) as [-> ->]; [| | exact H | done].
    + intros Hin. apply H1. by right.
    + intros Hin. apply H2. by right.
Qed.

(** ** The day of a record *)



(** ** Sixty minutes *)

(** X13: the minutes are rounded up without a carry into the hours: a
    duration (below [2^53] seconds) whose last hour has more than 59
    minutes reads as 60 minutes, as in "1小时60分钟" for 7199 seconds. *)
Theorem X13_sixty_minutes_are_not_carried (totalSeconds : N) :
  totalSeconds < 2 ^ 53 ->
  3540 < totalSeconds mod 3600 ->
  durationText totalSeconds
  = (if totalSeconds / 3600 =? 0 then []
     else Number_toString (totalSeconds / 3600) ++ utf16 "小时")
    ++ utf16 "60分钟".
Proof.
  intros Hsafe Hlast. change (2 ^ 53) with two53 in Hsafe.
  rewrite durationText_below_two53 by exact Hsafe.
  assert (Hminutes : ceil_div (totalSeconds mod 3600) 60 = 60).
  { pose proof (ceil_div_60_spec (totalSeconds mod 3600)) as [H1 H2].
    pose proof (N.mod_lt totalSeconds 3600 ltac:(lia)) as H3.
    remember (totalSeconds mod 3600) as r eqn:Hr.
    remember (ceil_div r 60) as c eqn:Hc. clear Hr Hc. lia. }
  rewrite Hminutes. f_equal.
  destruct (N.eqb_spec (totalSeconds / 3600) 0) as [-> | Hne]; [reflexivity |].
  destruct (N.ltb_spec 0 (totalSeconds / 3600)) as [| Hle]; [reflexivity |].
  apply N.le_0_r in Hle. contradiction.
Qed.


(** ** A blocking word without special characters *)

Lemma plain_char_tests (ch : N) :
  plain_char ch = true ->
  (ch =? 94) = false /\ (ch =? 36) = false /\ (ch =? 40) = false /\ (ch =? 41) = false
  /\ (ch =? 46) = false /\ (ch =? 92) = false /\ (ch =? 42) = false
  /\ (ch =? 43) = false /\ (ch =? 63) = false /\ (ch =? 124) = false
  /\ (ch =? 91) = false /\ (ch =? 123) = false.
Proof.
  unfold plain_char. intros H. apply negb_true_iff in H.
  repeat (apply orb_false_elim in H as [H ?]). by repeat split.
Qed.

Lemma next_is_plain (ch : N) (word : jstring) :
  Forall (fun c => plain_char c = true) word ->
  plain_char ch = false ->
  next_is ch word = false.
Proof.
  intros Hword Hch. destruct Hword as [| c word Hc _]; [reflexivity |]. simpl.
  destruct (N.eqb_spec c ch) as [-> |]; [congruence | reflexivity].
Qed.

Lemma parse_alternative_plain (dotAll : bool) (word : jstring) :
  Forall (fun ch => plain_char ch = true) word ->
  forall fuel g,
    (2 * length word + 1 <= fuel)%nat ->
    parse_alternative dotAll fuel word g = Some (literal word, [], g).
Proof.
  induction 1 as [| ch word Hch Hword IH]; intros fuel g Hfuel.
  - destruct fuel as [| fuel]; [simpl in Hfuel; lia | reflexivity].
  - destruct fuel as [| [| fuel]]; [simpl in Hfuel; lia | simpl in Hfuel; lia |].
    rewrite parse_alternative_S.
    pose proof (plain_char_tests ch Hch)
      as (H94 & H36 & H40 & H41 & H46 & H92 & H42 & H43 & H63 & H124 & H91 & H123).
    cbn [next_is]. rewrite H124, H41. cbn [orb].
    rewrite parse_term_S, H94, H36, H40, H46, H92.
    unfold not_an_atom. rewrite H42, H43, H63, H41, H124, H91, H123. cbn [orb].
    unfold parse_quantifier.
    rewrite !(next_is_plain _ word Hword) by reflexivity.
    cbn [mbind option_bind].
    rewrite (IH (S fuel) g) by (simpl in Hfuel; lia).
    reflexivity.
Qed.

(** X14: a blocking word that has none of the characters
    [^ $ ( ) . \ * + ? | [ {] is read as itself, character by character:
    the pattern built for it at line 140 is the lookbehind, [\s*] and the
    word as group 1, matched without regard to case. *)
Theorem X14_plain_word_is_read_as_itself (word : jstring) :
  Forall (fun ch => plain_char ch = true) word ->
  RegExp_new (rule_source word) true true
  = Some (mkRegExp (rule_regex (literal word)) true 1).
Proof.
  intros Hword. apply (rule_source_read word (literal word) 2).
  replace (4 * length word + 4)%nat with (S (4 * length word + 3)) by lia.
  rewrite parse_disjunction_S.
  rewrite (parse_alternative_plain true word Hword) by lia.
  reflexivity.
Qed.


(** ** The pattern of a group number *)

Lemma in_class_digit (ch : N) :
  in_CharSet false class_digit false false ch = is_digit ch.
Proof.
  unfold in_CharSet, char_found, same_char, class_digit, is_digit.
  cbn [negb existsb]. rewrite xorb_false_r, orb_false_r.
  destruct (N.leb_spec 48 ch) as [Hlo | Hlo]; destruct (N.leb_spec ch 57) as [Hhi | Hhi];
    cbn [andb].
  - assert (H : ch = 48 \/ ch = 49 \/ ch = 50 \/ ch = 51 \/ ch = 52 \/ ch = 53
                \/ ch = 54 \/ ch = 55 \/ ch = 56 \/ ch = 57) by lia.
    repeat (destruct H as [-> | H]; [reflexivity |]). by subst.
  - repeat (rewrite (proj2 (N.eqb_neq _ ch)) by lia). reflexivity.
  - repeat (rewrite (proj2 (N.eqb_neq _ ch)) by lia). reflexivity.
  - repeat (rewrite (proj2 (N.eqb_neq _ ch)) by lia). reflexivity.
Qed.

(** A counted run of digits up to the end of the input. *)
Lemma digits_to_the_end (m : mstate -> continuation -> option mstate) (c : continuation) :
  (forall y d, m y d = matcher false (CharSet class_digit false false) true y d) ->
  (forall y, c y = match after y with [] => Some y | _ :: _ => None end) ->
  forall (aft : jstring) (min max fuel : nat) (bef : jstring) (caps : list (nat * jstring)),
    (min + length aft < fuel)%nat ->
    (min <= max)%nat ->
    is_Some (RepeatMatcher fuel m [] min (Some max) true (MState bef aft caps) c)
    <-> (min <= length aft <= max)%nat /\ Forall (fun ch => is_digit ch = true) aft.
Proof.
  intros Hm Hc. induction aft as [| ch rest IH]; intros min max fuel bef caps Hfuel Hmax.
  - destruct fuel as [| fuel]; [lia |]. cbn [RepeatMatcher].
    destruct max as [| max].
    + rewrite Hc. cbn [after length]. split; [intros _; split; [lia | constructor] |].
      intros _. eauto.
    + rewrite reset_captures_nil, Hm. cbn [matcher after].
      destruct min as [| min]; cbn [Nat.eqb negb].
      * rewrite Hc. cbn [after length]. split; [intros _; split; [lia | constructor] |].
        intros _. eauto.
      * split; [intros [z Hz]; discriminate | cbn [length]; lia].
  - destruct fuel as [| fuel]; [lia |]. cbn [RepeatMatcher].
    destruct max as [| max].
    + rewrite Hc. cbn [after length]. split; [intros [z Hz]; discriminate | lia].
    + rewrite reset_captures_nil, Hm. cbn [matcher after before captures].
      rewrite in_class_digit. cbn [fmap option_fmap option_map Nat.pred].
      assert (Hstep : forall min1,
                (min1 + length rest < fuel)%nat -> (min1 <= max)%nat ->
                is_Some (RepeatMatcher fuel m [] min1 (Some max) true
                           (MState (ch :: bef) rest caps) c)
                <-> (min1 <= length rest <= max)%nat
                    /\ Forall (fun ch => is_digit ch = true) rest)
        by (intros min1 H1 H2; by apply IH).
      destruct (is_digit ch) eqn:Hch.
      * unfold endIndex. cbn [before length].
        assert (Hne : Nat.eqb (S (length bef)) (length bef) = false)
          by (apply Nat.eqb_neq; lia).
        rewrite Hne, andb_false_r.
        destruct min as [| min]; cbn [Nat.eqb negb Nat.pred].
        -- destruct (RepeatMatcher fuel m [] 0 (Some max) true _ c) as [z |] eqn:Hrun.
           ++ assert (Hsome : is_Some (RepeatMatcher fuel m [] 0 (Some max) true
                                         (MState (ch :: bef) rest caps) c))
                by (rewrite Hrun; eauto).
              apply Hstep in Hsome as [Hlen Hrest]; [| cbn [length] in Hfuel; lia | lia].
              split; [intros _ | eauto].
              split; [cbn [length]; lia | by constructor].
           ++ rewrite Hc. cbn [after]. split; [intros [z Hz]; discriminate |].
              intros [Hlen Hall]. inversion Hall as [| ? ? _ Hrest]; subst.
              assert (Hsome : is_Some (RepeatMatcher fuel m [] 0 (Some max) true
                                         (MState (ch :: bef) rest caps) c)).
              { apply Hstep; [cbn [length] in Hfuel; lia | lia |].
                split; [cbn [length] in Hlen; lia | exact Hrest]. }
              rewrite Hrun in Hsome. by destruct Hsome.
        -- rewrite Hstep by (cbn [length] in Hfuel; lia).
           cbn [length]. split.
           ++ intros [Hlen Hrest]. split; [lia | by constructor].
           ++ intros [Hlen Hall]. inversion Hall; subst. split; [lia | assumption].
      * assert (Hno : ~ Forall (fun ch => is_digit ch = true) (ch :: rest)).
        { intros Hall. inversion Hall; subst. congruence. }
        destruct min as [| min]; cbn [Nat.eqb negb].
        -- rewrite Hc. cbn [after]. split; [intros [z Hz]; discriminate | tauto].
        -- split; [intros [z Hz]; discriminate | tauto].
Qed.

Lemma groupId_pattern_not_later (bef aft : jstring) :
  bef <> [] -> exec_loop groupId_pattern bef aft = None.
Proof.
  revert bef. induction aft as [| ch aft IH]; intros bef Hbef.
  - destruct bef; [done | reflexivity].
  - destruct bef as [| b bef]; [done |].
    cbn [exec_loop]. unfold match_here, groupId_pattern at 1.
    cbn [pattern_of ignoreCase matcher before]. by apply IH.
Qed.

(** X15: the pattern of the schema for a group number, [/^\d{5,12}$/],
    accepts the texts of 5 to 12 digits 0 to 9 from start to end, and no
    other text. *)
Theorem X15_group_numbers_are_5_to_12_digits (text : jstring) :
  RegExp_test groupId_pattern text = true
  <-> (5 <= length text <= 12)%nat /\ Forall (fun ch => is_digit ch = true) text.
Proof.
  unfold RegExp_test. rewrite bool_decide_eq_true, RegExpBuiltinExec_start.
  assert (Hhere : is_Some (exec_loop groupId_pattern [] text)
                  <-> is_Some (match_here groupId_pattern (MState [] text []))).
  { destruct text as [| ch text]; cbn [exec_loop].
    - destruct (match_here groupId_pattern (MState [] [] [])); [| done].
      split; eauto.
    - destruct (match_here groupId_pattern (MState [] (ch :: text) [])); [split; eauto |].
      by rewrite groupId_pattern_not_later. }
  rewrite Hhere. unfold match_here, groupId_pattern.
  cbn [pattern_of ignoreCase]. rewrite matcher_Seq_forward. cbn [matcher before].
  change (matcher false (Seq (Quant 5 (Some 12%nat) true (CharSet class_digit false false))
                           (Seq AssertEnd Epsilon)) true (MState [] text []) Some)
    with (RepeatMatcher (5 + input_length (MState [] text []) + 1)
            (fun y d => matcher false (CharSet class_digit false false) true y d)
            [] 5 (Some 12%nat) true (MState [] text [])
            (fun y => matcher false (Seq AssertEnd Epsilon) true y Some)).
  apply digits_to_the_end.
  - reflexivity.
  - intros y. cbn [matcher]. by destruct (after y).
  - unfold input_length. cbn [before after length]. lia.
  - lia.
Qed.


(** ** The escaping, character by character *)

Lemma ampersand_here (bef aft : jstring) :
  match_here ampersand (MState bef aft [])
  = match aft with
    | ch :: rest => if ch =? 38 then Some (MState (ch :: bef) rest []) else None
    | [] => None
    end.
Proof.
  unfold match_here, ampersand. cbn [pattern_of ignoreCase matcher after before captures].
  destruct aft as [| ch rest]; [reflexivity |].
  unfold in_CharSet, char_found, same_char. cbn [negb existsb].
  by rewrite xorb_false_r, orb_false_r, N.eqb_sym.
Qed.

Lemma RegExpBuiltinExec_behind (re : RegExp) (a b : jstring) :
  RegExpBuiltinExec re (a ++ b) (length a) = exec_loop re (reverse a) b.
Proof.
  unfold RegExpBuiltinExec.
  destruct (Nat.ltb_spec (length (a ++ b)) (length a)) as [Hlt |];
    [rewrite length_app in Hlt; lia |].
  by rewrite take_app_length, drop_app_length.
Qed.

Lemma escape_from (rest : jstring) :
  forall (fuel : nat) (pre mid : jstring),
    (length rest + 1 < fuel)%nat ->
    build_replaced ampersand (pre ++ mid ++ rest) (utf16 "&amp;")
      (collect_matches fuel ampersand (pre ++ mid ++ rest) (length (pre ++ mid)))
      (length pre)
    = mid ++ flat_map escape_char rest.
Proof.
  induction rest as [| ch rest IH]; intros fuel pre mid Hfuel;
    (destruct fuel as [| fuel]; [lia |]); cbn [collect_matches].
  - rewrite (app_assoc pre mid []), RegExpBuiltinExec_behind.
    cbn [exec_loop]. rewrite ampersand_here. cbn [build_replaced].
    by rewrite <- app_assoc, drop_app_length.
  - rewrite (app_assoc pre mid (ch :: rest)), RegExpBuiltinExec_behind.
    cbn [exec_loop]. rewrite ampersand_here.
    destruct (N.eqb_spec ch 38) as [-> | Hch].
    + unfold endIndex at 1 2. cbn [before length]. rewrite length_reverse.
      assert (Hne : Nat.eqb (S (length (pre ++ mid))) (length (pre ++ mid)) = false)
        by (apply Nat.eqb_neq; lia).
      rewrite Hne. cbn [build_replaced].
      unfold endIndex. cbn [before length]. rewrite length_reverse.
      assert (Hle : Nat.leb (length pre) (length (pre ++ mid)) = true)
        by (apply Nat.leb_le; rewrite length_app; lia).
      rewrite Hle.
      assert (Hgap : substring (length pre) (length (pre ++ mid))
                       ((pre ++ mid) ++ 38 :: rest) = mid).
      { unfold substring. rewrite <- app_assoc, drop_app_length, length_app.
        replace (length pre + length mid - length pre)%nat with (length mid) by lia.
        by rewrite take_app_length. }
      assert (Hmatched : substring (length (pre ++ mid)) (S (length (pre ++ mid)))
                           ((pre ++ mid) ++ 38 :: rest) = [38]).
      { unfold substring. rewrite drop_app_length.
        replace (S (length (pre ++ mid)) - length (pre ++ mid))%nat with 1%nat by lia.
        reflexivity. }
      rewrite Hgap, Hmatched. cbn [length].
      pose proof (IH fuel (pre ++ mid ++ [38]) [] ltac:(cbn [length] in Hfuel; lia)) as Hrest.
      rewrite app_nil_r in Hrest. cbn [app] in Hrest.
      replace ((pre ++ mid ++ [38]) ++ rest) with ((pre ++ mid) ++ 38 :: rest) in Hrest
        by (by rewrite <- !app_assoc).
      replace (length (pre ++ mid ++ [38])) with (S (length (pre ++ mid))) in Hrest
        by (rewrite !length_app; simpl; lia).
      replace (length (pre ++ mid) + 1)%nat with (S (length (pre ++ mid))) by lia.
      rewrite Hrest. reflexivity.
    + pose proof (IH (S fuel) pre (mid ++ [ch]) ltac:(cbn [length] in Hfuel; lia)) as Hrest.
      cbn [collect_matches] in Hrest.
      rewrite (app_assoc pre (mid ++ [ch]) rest), RegExpBuiltinExec_behind in Hrest.
      rewrite app_assoc, reverse_snoc in Hrest.
      replace (((pre ++ mid) ++ [ch]) ++ rest) with ((pre ++ mid) ++ ch :: rest) in Hrest
        by (by rewrite <- !app_assoc).
      rewrite Hrest. cbn [flat_map]. unfold escape_char at 2.
      rewrite (proj2 (N.eqb_neq ch 38) Hch). by rewrite <- !app_assoc.
Qed.

Lemma escape_char_keeps (text : jstring) :
  ~ In 38 text -> flat_map escape_char text = text.
Proof.
  induction text as [| ch text IH]; [reflexivity |]. intros Hno. cbn [flat_map].
  unfold escape_char at 1. rewrite (proj2 (N.eqb_neq ch 38)) by (intros ->; apply Hno; by left).
  cbn [app]. f_equal. apply IH. intros Hin. apply Hno. by right.
Qed.

(** X16: the escaping of lines 221-228 goes through the corrected text
    character by character: every [&] becomes [&amp;] and every other
    character, a bracket of a CQ code too, stays as it is; a text without
    [&] is sent unchanged. *)
Theorem X16_escaping_is_character_wise (text : jstring) :
  escapedText text = Some (flat_map escape_char text)
  /\ (~ In 38 text -> escapedText text = Some text).
Proof.
  assert (H : escapedText text = Some (flat_map escape_char text)).
  { unfold escapedText. rewrite String_split_cqPattern.
    cbn [escape_parts Nat.even mbind option_bind]. rewrite app_nil_r. f_equal.
    unfold String_replace.
    exact (escape_from text (length text + 2) [] [] ltac:(lia)). }
  split; [exact H |]. intros Hno. by rewrite H, escape_char_keeps.
Qed.


(** ** The order in which the blocking words are tried *)

Lemma insert_by_index_sorted {V : Type} (e : N * (jstring * V))
    (l : list (N * (jstring * V))) :
  StronglySorted (fun a b => a.1 <= b.1) l ->
  StronglySorted (fun a b => a.1 <= b.1) (insert_by_index e l).
Proof.
  induction 1 as [| e1 l Hl IH Hall]; simpl; [repeat constructor |].
  destruct (N.ltb_spec e.1 e1.1) as [Hlt | Hge].
  - constructor; [by constructor |].
    constructor; [lia |]. eapply Forall_impl; [exact Hall |]. simpl. intros. lia.
  - constructor; [exact IH |].
    rewrite insert_by_index_Permutation. by constructor.
Qed.

Lemma indexed_entries {V : Type} (props : list (jstring * V)) :
  let indexed :=
    foldr insert_by_index []
      (omap (fun e : jstring * V => i ← array_index e.1; Some (i, e)) props) in
  StronglySorted (fun a b => a.1 <= b.1) indexed
  /\ Forall (fun a => array_index a.2.1 = Some a.1) indexed.
Proof.
  induction props as [| e props [IH1 IH2]]; [split; constructor |].
  cbn [omap list_omap]. destruct (array_index e.1) as [i |] eqn:Hi;
    cbn [mbind option_bind foldr]; [| by split].
  split; [by apply insert_by_index_sorted |].
  rewrite insert_by_index_Permutation. by constructor.
Qed.

Lemma StronglySorted_app_cross {A : Type} (R : A -> A -> Prop) (l1 l2 : list A) :
  StronglySorted R l1 -> StronglySorted R l2 ->
  Forall (fun x => Forall (R x) l2) l1 ->
  StronglySorted R (l1 ++ l2).
Proof.
  induction 1 as [| x l1 Hl1 IH Hx]; intros Hl2 Hcross; [exact Hl2 |].
  inversion Hcross as [| ? ? Hx2 Hcross1]; subst. simpl.
  constructor; [by apply IH |]. apply Forall_app. by split.
Qed.

Lemma filter_none_of {A : Type} (P : A -> Prop) `{forall x, Decision (P x)} (l : list A) :
  Forall (fun x => ~ P x) l -> filter P l = [].
Proof.
  induction 1 as [| x l Hx Hl IH]; [reflexivity |].
  by rewrite filter_cons_False.
Qed.

Lemma filter_all_of {A : Type} (P : A -> Prop) `{forall x, Decision (P x)} (l : list A) :
  Forall P l -> filter P l = l.
Proof.
  induction 1 as [| x l Hx Hl IH]; [reflexivity |].
  rewrite filter_cons_True by exact Hx. by rewrite IH.
Qed.

Lemma Forall_filter_self {A : Type} (P : A -> Prop) `{forall x, Decision (P x)}
    (l : list A) :
  Forall P (filter P l).
Proof.
  induction l as [| x l IH]; [constructor |].
  rewrite filter_cons. destruct (decide (P x)); [by constructor | exact IH].
Qed.

(** X17: [Object.entries] hands the rules to the loop of line 137 each
    once, those whose pattern is an array index (canonical digits below
    [2^32 - 1], such as "12345") first and in ascending order of the
    number, whatever their place in the configuration, and then the others
    in the order of the configuration; without such a pattern the order is
    that of the configuration. *)
Theorem X17_numeric_patterns_are_tried_first {V : Type} (props : list (jstring * V)) :
  Object_entries props ≡ₚ props
  /\ StronglySorted index_order (Object_entries props)
  /\ filter (fun e => array_index e.1 = None) (Object_entries props)
     = filter (fun e => array_index e.1 = None) props
  /\ (Forall (fun e => array_index e.1 = None) props -> Object_entries props = props).
Proof.
  split; [apply Object_entries_Permutation |].
  destruct (indexed_entries props) as [Hsorted Hindexed]. cbv zeta in Hsorted, Hindexed.
  pose proof (Forall_filter_self (fun e : jstring * V => array_index e.1 = None) props)
    as Hothers.
  unfold Object_entries.
  set (indexed := foldr insert_by_index []
                    (omap (fun e : jstring * V => i ← array_index e.1; Some (i, e)) props))
    in *.
  set (others := filter (fun e : jstring * V => array_index e.1 = None) props) in *.
  assert (Hfirst : Forall (fun e : jstring * V => is_Some (array_index e.1))
                     (map snd indexed)).
  { clear Hsorted. induction Hindexed as [| a l Ha Hl IH]; [constructor |].
    simpl. constructor; [rewrite Ha; eauto | exact IH]. }
  split; [| split].
  - apply StronglySorted_app_cross.
    + clear Hfirst. induction Hsorted as [| a l Hl IH Ha]; [constructor |].
      inversion Hindexed as [| ? ? Hia Hil]; subst.
      simpl. constructor; [by apply IH |].
      clear IH Hl Hindexed. induction Ha as [| b l Hb Hl2 IH2]; [constructor |].
      inversion Hil as [| ? ? Hib Hil2]; subst.
      simpl. constructor; [| by apply IH2].
      unfold index_order. by rewrite Hia, Hib.
    + clear Hfirst Hsorted Hindexed.
      induction Hothers as [| b l Hb Hl IH]; [constructor |].
      constructor; [exact IH |].
      eapply Forall_impl; [exact Hl |]. intros c Hc. unfold index_order.
      by rewrite Hb, Hc.
    + eapply Forall_impl; [exact Hfirst |]. intros a [i Hi].
      eapply Forall_impl; [exact Hothers |]. intros b Hb. unfold index_order.
      by rewrite Hi, Hb.
  - rewrite filter_app. rewrite (filter_none_of _ (map snd indexed)).
    + simpl. by apply filter_all_of.
    + eapply Forall_impl; [exact Hfirst |]. intros a [i Hi] Hnone. congruence.
  - intros Hall. subst indexed others.
    rewrite (filter_all_of _ props Hall).
    assert (Hnone : omap (fun e : jstring * V => i ← array_index e.1; Some (i, e)) props
                    = []).
    { clear Hsorted Hindexed Hothers Hfirst.
      induction Hall as [| e l He Hl IH]; [reflexivity |].
      cbn [omap list_omap]. rewrite He. cbn [mbind option_bind]. exact IH. }
    by rewrite Hnone.
Qed.


(** ** The elements of a message as the rules see them *)

Lemma jstring_eqb_refl (s : jstring) : jstring_eqb s s = true.
Proof. unfold jstring_eqb. by apply bool_decide_eq_true_2. Qed.

Lemma jstring_eqb_ne (s t : jstring) : s <> t -> jstring_eqb s t = false.
Proof. unfold jstring_eqb. apply bool_decide_eq_false_2. Qed.

(** X18: [handleMsg] makes one text of the elements, and a rule cannot
    tell an element from a text that spells it: a mention of [id] reads
    as the text "[CQ:at,qq=id]" does; a mention without the attribute [id]
    (as for all members) reads as "[CQ:at,qq=undefined]"; and an element
    that is no mention, picture or face and has no [content] adds nothing
    to the message. *)
Theorem X18_elements_as_the_rules_see_them (id kind : jstring)
    (given : list (jstring * jstring)) :
  element_text (mkElement (utf16 "at") [(utf16 "id", id)])
  = element_text
      (mkElement (utf16 "text")
         [(utf16 "content", utf16 "[CQ:at,qq=" ++ id ++ utf16 "]")])
  /\ (property (utf16 "id") given = None ->
      element_text (mkElement (utf16 "at") given) = utf16 "[CQ:at,qq=undefined]")
  /\ (kind <> utf16 "at" -> kind <> utf16 "image" -> kind <> utf16 "face" ->
      kind <> utf16 "mface" -> property (utf16 "content") given = None ->
      element_text (mkElement kind given) = []).
Proof.
  unfold element_text, attr, content_or_empty.
  split; [| split].
  - cbn [type attrs property]. rewrite !jstring_eqb_refl.
    rewrite !jstring_eqb_ne by (vm_compute; discriminate). reflexivity.
  - intros Hid. cbn [type attrs]. rewrite jstring_eqb_refl, Hid. reflexivity.
  - intros H1 H2 H3 H4 Hcontent. cbn [type attrs].
    rewrite !jstring_eqb_ne by assumption. by rewrite Hcontent.
Qed.

End CaseMapping.

(** * The properties at given inputs *)

Lemma C2_counterexample :
  ~ exists f,
      filter_message ascii_only rules_a_then_X (utf16 "aaa") = Some f
      /\ modifiedMessage f = utf16 "X"
      /\ needRecall f = true.
Proof.
  intros (f & Hf & Htext & _).
  rewrite a_then_X_filtered in Hf. injection Hf as <-. discriminate Htext.
Qed.

Lemma C5_witness :
  3661 < 2 ^ 53
  /\ let hours := 3661 / 3600 in
     let minutes := ceil_div (3661 mod 3600) 60 in
     (3600 * hours <= 3661 /\ 3661 < 3600 * (hours + 1))
     /\ (3661 mod 3600 <= 60 * minutes /\ 60 * minutes < 3661 mod 3600 + 60)
     /\ durationText 3661
        = (if hours =? 0 then [] else Number_toString hours ++ utf16 "小时")
          ++ (if minutes =? 0 then [] else Number_toString minutes ++ utf16 "分钟")
     /\ (durationText 3661 = [] <-> hours = 0 /\ minutes = 0)
     /\ durationText 3661 = utf16 "1小时2分钟"
     /\ durationText 60 = utf16 "1分钟".
Proof.
  split; [reflexivity | apply (C5_duration_text 3661); reflexivity].
Defined.

(** Two violations of user 42 are on record, the threshold is 3, and the
    third one is handled with the mute fulfilled and the message that
    announces it rejected. *)
Lemma C6_witness :
  exists st1 effects record,
    middleware ascii_only (policy_spam 3) spam_session send_rejected
      (registered 2 key_12345_42 3 initial)
    = Some (st1, effects)
    /\ In (SetGroupBan (utf16 "12345") (utf16 "42") 600) effects
    /\ st1 = (register key_12345_42 1 3 (registered 2 key_12345_42 3 initial)).1.1
    /\ violationRecords st1 !! key_12345_42 = Some record
    /\ count record = count_of key_12345_42 (registered 2 key_12345_42 3 initial) + 1
    /\ (forall h,
          timers (registered 2 key_12345_42 3 initial) !! h = Some key_12345_42 ->
          timers st1 !! h = Some key_12345_42)
    /\ (violationRecords (registered 2 key_12345_42 3 initial) !! key_12345_42 = None ->
        timers st1 !! timer record = Some key_12345_42)
    /\ exists st2,
         register key_12345_42 1 3 st1
         = (st2,
            mkRecord (count_of key_12345_42 (registered 2 key_12345_42 3 initial) + 2)
              (timer record),
            true).
Proof.
  apply (C6_rejected_send_keeps_the_record ascii_only (policy_spam 3) spam_session
           send_rejected (registered 2 key_12345_42 3 initial) (spam_group 3)
           (utf16 "this is spam") spam_filtered);
    [vm_compute; reflexivity | reflexivity | reflexivity
     | vm_compute; discriminate | reflexivity | reflexivity].
Defined.

(** After that handling the record has the count 3 of 3 and its timeout is
    pending; the next violation is answered with a second mute, at 4 of 3.
    With the threshold at 1 the same happens at the first violation, and
    also when it is the mute that is rejected. *)
Lemma rejected_send_then_muted_again :
  (exists st1 effects,
     middleware ascii_only (policy_spam 3) spam_session send_rejected
       (registered 2 key_12345_42 3 initial)
     = Some (st1, effects)
     /\ violationRecords st1 !! key_12345_42 = Some (mkRecord 3 0)
     /\ timers st1 !! 0%nat = Some key_12345_42
     /\ sent (middleware ascii_only (policy_spam 3) spam_session all_fulfilled st1)
        = [utf16 "[CQ:at,qq=42] 检测到违规内容！" ++ [10]
           ++ utf16 "修正内容：this is***" ++ [10]
           ++ utf16 "因累计违规 4/3 次，已被禁言 10分钟"])
  /\ (exists st1 effects,
        middleware ascii_only (policy_spam 1) spam_session send_rejected initial
          = Some (st1, effects)
        /\ violationRecords st1 !! key_12345_42 = Some (mkRecord 1 0)
        /\ timers st1 !! 0%nat = Some key_12345_42
        /\ (register key_12345_42 1 1 st1).1.2 = mkRecord 2 0)
  /\ (exists st1 effects,
        middleware ascii_only (policy_spam 1) spam_session mute_rejected initial
          = Some (st1, effects)
        /\ violationRecords st1 !! key_12345_42 = Some (mkRecord 1 0)
        /\ timers st1 !! 0%nat = Some key_12345_42
        /\ (register key_12345_42 1 1 st1).1.2 = mkRecord 2 0).
Proof.
  split; [| split]; eexists _, _; (split; [vm_compute; reflexivity |]);
    (split; [vm_compute; reflexivity |]); split; vm_compute; reflexivity.
Qed.

(** With both calls fulfilled the record is cleared. *)
Lemma fulfilled_mute_clears_the_record_at_threshold_1 :
  exists st1 effects record,
    middleware ascii_only (policy_spam 1) spam_session all_fulfilled initial
      = Some (st1, effects)
    /\ (register key_12345_42 1 1 initial).1.2 = record
    /\ violationRecords st1 !! key_12345_42 = None
    /\ timers st1 !! timer record = None
    /\ (timers_owned initial -> forall h, timers st1 !! h <> Some key_12345_42)
    /\ forall threshold2, exists st2,
         register key_12345_42 1 threshold2 st1
           = (st2, mkRecord 1 (nextTimer st1), threshold2 <=? 1)
         /\ timers st2 !! nextTimer st1 = Some key_12345_42.
Proof.
  apply (fulfilled_mute_clears_the_record ascii_only (policy_spam 1) spam_session
           all_fulfilled initial (spam_group 1) (utf16 "this is spam") spam_filtered);
    [vm_compute; reflexivity | reflexivity | reflexivity
     | vm_compute; discriminate | reflexivity | reflexivity].
Qed.

Lemma C7_witness :
  exists st1 effects,
    middleware ascii_only (policy_spam 1) spam_session mute_rejected initial
      = Some (st1, effects)
    /\ effects
       = lookups spam_session ++ recall_effects spam_session mute_rejected false
         ++ [SetGroupBan (utf16 "12345") (utf16 "42") 600; LogError MuteFailed; Next]
    /\ forallb (fun e => negb (is_send e)) effects = true.
Proof.
  apply (C7_mute_failure_sends_nothing ascii_only (policy_spam 1) spam_session
           mute_rejected initial (spam_group 1) (utf16 "this is spam") spam_filtered);
    [vm_compute; reflexivity | reflexivity | reflexivity
     | vm_compute; discriminate | reflexivity].
Defined.

Lemma C8_witness :
  exists st1 record,
    register key_12345_42 1 3 (registered 2 key_12345_42 3 initial)
      = (st1, record, 3 <=? N.of_nat (2 + 1))
    /\ count record = N.of_nat (2 + 1)
    /\ exists st2 record2 shouldMute2,
         register key_12345_42 1 3 (clear key_12345_42 record st1)
           = (st2, record2, shouldMute2)
         /\ count record2 = 1
         /\ shouldMute2 = false.
Proof. apply (C8_nth_registration key_12345_42 initial 2). reflexivity. Defined.

Lemma C9_witness :
  exists st1 record shouldMute st2 effects,
    register key_12345_42 1 3 initial = (st1, record, shouldMute)
    /\ count record = count_of key_12345_42 initial + 1
    /\ middleware ascii_only [two_rules_group] two_rules_session all_fulfilled initial
       = Some (st2, effects)
    /\ (count_of key_12345_42 st2 = count_of key_12345_42 initial + 1
        \/ shouldMute = true /\ violationRecords st2 !! key_12345_42 = None).
Proof.
  apply (C9_one_violation_per_message ascii_only [two_rules_group] two_rules_session
           all_fulfilled initial two_rules_group (utf16 "spam ads")
           (mkFiltered [] false 1 true true));
    [vm_compute; reflexivity | reflexivity | reflexivity].
Defined.

(** ** The further properties at given inputs *)

Lemma X1_witness :
  configDict (policy_12345 ++ spam_group 3 :: []) !! guildId spam_session
  = Some (spam_group 3)
  /\ middleware ascii_only (policy_12345 ++ spam_group 3 :: []) spam_session
       all_fulfilled initial
     = middleware ascii_only [spam_group 3] spam_session all_fulfilled initial.
Proof.
  apply (X1_last_rule_of_a_group_applies ascii_only policy_12345 [] (spam_group 3)
           spam_session all_fulfilled initial);
    [reflexivity | constructor].
Defined.

Lemma X2_witness :
  middleware ascii_only (policy_spam 3) private_session all_fulfilled initial
  = Some (initial, [Next]).
Proof.
  apply (X2_unmoderated_groups_pass ascii_only (policy_spam 3) private_session
           all_fulfilled initial).
  right. left. vm_compute. discriminate.
Defined.

Lemma X3_witness :
  (bot_role lookup_rejected = None \/ user_info lookup_rejected = false ->
   middleware ascii_only (policy_spam 3) spam_session lookup_rejected initial
   = Some (initial, lookups spam_session ++ [LogError HandlingFailed; Next]))
  /\ (forall role,
        bot_role lookup_rejected = Some role -> user_info lookup_rejected = true ->
        role <> utf16 "admin" -> role <> utf16 "owner" ->
        middleware ascii_only (policy_spam 3) spam_session lookup_rejected initial
        = Some (initial, lookups spam_session ++ [Next])).
Proof.
  apply (X3_no_moderation_without_rights ascii_only (policy_spam 3) spam_session
           lookup_rejected initial (spam_group 3));
    [reflexivity | reflexivity | vm_compute; reflexivity | reflexivity].
Defined.

Lemma X4_witness :
  exists calls,
    (outcome (middleware ascii_only (policy_spam 3) spam_session all_fulfilled initial)).2
    = calls ++ [Next]
    /\ one_answer spam_session calls.
Proof.
  apply (X4_one_answer_per_message ascii_only (policy_spam 3) spam_session all_fulfilled
           initial
           (outcome (middleware ascii_only (policy_spam 3) spam_session all_fulfilled
                       initial)).1).
  vm_compute. reflexivity.
Defined.

Lemma X5_witness :
  (needRecall (mkFiltered [] false 1 true true) = true ->
   Exists (fun e => BlockingWords.enable e.2 = true /\ BlockingWords.recall e.2 = true)
     (GroupRule.blockingWords two_rules_group))
  /\ (hasTriggerMuteRule (mkFiltered [] false 1 true true) = true ->
      Exists (fun e => BlockingWords.enable e.2 = true
                       /\ BlockingWords.triggerMute e.2 = true)
        (GroupRule.blockingWords two_rules_group))
  /\ (hasValidReplace (mkFiltered [] false 1 true true) = false ->
      mkFiltered [] false 1 true true = mkFiltered (utf16 "spam ads") false 0 false false)
  /\ (modifiedMessage (mkFiltered [] false 1 true true) <> utf16 "spam ads" ->
      hasValidReplace (mkFiltered [] false 1 true true) = true).
Proof.
  apply (X5_flags_come_from_enabled_rules ascii_only
           (GroupRule.blockingWords two_rules_group) (utf16 "spam ads")
           (mkFiltered [] false 1 true true)).
  vm_compute. reflexivity.
Defined.

Lemma X6_witness :
  (Forall (fun e => BlockingWords.enable e.2 = true -> BlockingWords.recall e.2 = false)
     (GroupRule.blockingWords (spam_group 3)) ->
   forallb (fun e => negb (is_recall e))
     (outcome (middleware ascii_only (policy_spam 3) spam_session all_fulfilled initial)).2
   = true)
  /\ (MuteConfig.enable (GroupRule.muteConfig (spam_group 3)) = false
      \/ Forall (fun e => BlockingWords.enable e.2 = true
                          -> BlockingWords.triggerMute e.2 = false)
           (GroupRule.blockingWords (spam_group 3)) ->
      (outcome (middleware ascii_only (policy_spam 3) spam_session all_fulfilled
                  initial)).1
      = initial
      /\ forallb (fun e => negb (is_ban e))
           (outcome (middleware ascii_only (policy_spam 3) spam_session all_fulfilled
                       initial)).2
         = true).
Proof.
  apply (X6_no_rule_asks_no_action ascii_only (policy_spam 3) spam_session all_fulfilled
           initial
           (outcome (middleware ascii_only (policy_spam 3) spam_session all_fulfilled
                       initial)).1
           (outcome (middleware ascii_only (policy_spam 3) spam_session all_fulfilled
                       initial)).2
           (spam_group 3));
    vm_compute; reflexivity.
Defined.

Lemma X7_witness :
  filter_message ascii_only (GroupRule.blockingWords (spam_group 3))
    (message_of clean_session)
  = Some (mkFiltered (message_of clean_session) false 0 false false)
  /\ middleware ascii_only (policy_spam 3) clean_session all_fulfilled initial
     = Some (initial, lookups clean_session ++ [Next]).
Proof.
  apply (X7_clean_message_is_passed_on ascii_only (policy_spam 3) clean_session
           all_fulfilled initial (spam_group 3) (utf16 "admin"));
    [reflexivity | reflexivity | vm_compute; reflexivity | reflexivity | reflexivity
     | reflexivity | vm_compute; reflexivity |].
  constructor; [| constructor].
  right. exists (mkRegExp (rule_regex (literal (utf16 "spam"))) true 1).
  split; vm_compute; reflexivity.
Defined.


Lemma X9_witness :
  violationRecords
    (outcome (middleware ascii_only (policy_spam 3) spam_session all_fulfilled
                (registered 1 key_12345_43 3 initial))).1 !! key_12345_43
  = violationRecords (registered 1 key_12345_43 3 initial) !! key_12345_43
  /\ (well_timed (registered 1 key_12345_43 3 initial) ->
      forall h,
        timers
          (outcome (middleware ascii_only (policy_spam 3) spam_session all_fulfilled
                      (registered 1 key_12345_43 3 initial))).1 !! h
        = Some key_12345_43
        <-> timers (registered 1 key_12345_43 3 initial) !! h = Some key_12345_43).
Proof.
  apply (X9_other_keys_are_untouched ascii_only (policy_spam 3) spam_session
           all_fulfilled (registered 1 key_12345_43 3 initial)
           (outcome (middleware ascii_only (policy_spam 3) spam_session all_fulfilled
                       (registered 1 key_12345_43 3 initial))).1
           (outcome (middleware ascii_only (policy_spam 3) spam_session all_fulfilled
                       (registered 1 key_12345_43 3 initial))).2
           key_12345_43);
    [vm_compute; reflexivity | vm_compute; discriminate].
Defined.

Lemma X10_witness :
  (length alert_1_of_3 <= 4500)%nat /\ utf16 "12345" = guildId spam_session.
Proof.
  apply (X10_alert_is_at_most_4500 ascii_only (policy_spam 3) spam_session all_fulfilled
           initial
           (outcome (middleware ascii_only (policy_spam 3) spam_session all_fulfilled
                       initial)).1
           (outcome (middleware ascii_only (policy_spam 3) spam_session all_fulfilled
                       initial)).2
           (utf16 "12345") alert_1_of_3);
    [vm_compute; reflexivity | vm_compute; reflexivity |].
  vm_compute. right. right. left. reflexivity.
Defined.

Lemma X11_witness : utf16 "12345" = utf16 "12345" /\ utf16 "42" = utf16 "42".
Proof.
  apply (X11_record_keys_do_not_collide (utf16 "12345") (utf16 "42") (utf16 "12345")
           (utf16 "42"));
    [vm_compute; lia | vm_compute; lia | reflexivity].
Defined.


Lemma X13_witness :
  durationText 7199
  = (if 7199 / 3600 =? 0 then [] else Number_toString (7199 / 3600) ++ utf16 "小时")
    ++ utf16 "60分钟".
Proof. apply (X13_sixty_minutes_are_not_carried 7199); reflexivity. Defined.

Lemma X14_witness :
  RegExp_new (rule_source (utf16 "spam")) true true
  = Some (mkRegExp (rule_regex (literal (utf16 "spam"))) true 1).
Proof. apply (X14_plain_word_is_read_as_itself (utf16 "spam")). repeat constructor. Defined.
